(** * Text2VectorCluster-Web-ZH: the similarity matrix and the DBSCAN engine

    A shallow embedding of [src/app/dbscan.js] (the file beside
    [src/app/worker.js], which imports [dbscan] from it):

      - [vectorSimilarity], [computeDistanceMatrixCPU], [computeDistanceMatrix]
        (the similarity engine, with its accelerated attempt and CPU fallback);
      - [getNeighborsFromMatrix], [expandCluster] and [dbscan]
        (the density clustering engine);

    of the worker that calls it, [src/app/worker.js]
    ([PipelineSingleton.getInstance], [computeEmbeddings] and the message
    listener, in the module [Worker]); and of the rows that [handleDownload]
    of [src/app/page.js] builds from the answer of the worker (in the module
    [Page]).

    JavaScript numbers are IEEE 754 binary64 values: they are modelled by
    Rocq's primitive floats, whose operations are the same ones (round to
    nearest even, a single NaN, signed zeros).  Arrays are lists, read with
    stdpp's lookup [l !! i] and written with [<[i:=x]> l]; the [visited] Set
    is a [gset nat]; the [noise] Set, which the code turns into an array, is
    a duplicate-free list in insertion order. *)

From Stdlib Require Import ZArith List Floats Lia Bool Sorted String.
From stdpp Require Import base gmap sets list strings.

Set Warnings "-inexact-float,-clear-no-such-hyp".
#[local] Open Scope Z_scope.
#[local] Open Scope nat_scope.

(** ** Exceptions and outcomes *)

(** What a [throw] carries.  [TypeError] is raised by the engine itself
    (reading a property of [undefined]); [Error] is the [new Error (msg)] of
    the code; [HostError] stands for whatever the WebGPU host raises. *)
Inductive exn : Type :=
| TypeError
| Error (msg : string)
| HostError (msg : string).

(** The result of running a piece of the code: it returns, it throws, or the
    model's bound on the number of loop iterations was too small. *)
Inductive outcome (A : Type) : Type :=
| Ok (a : A)
| Throw (e : exn)
| OutOfFuel.
Arguments Ok {A} a.
Arguments Throw {A} e.
Arguments OutOfFuel {A}.

Definition bind {A B : Type} (m : outcome A) (k : A -> outcome B) : outcome B :=
  match m with
  | Ok a => k a
  | Throw e => Throw e
  | OutOfFuel => OutOfFuel
  end.

Notation "'let*' x ':=' m 'in' k" := (bind m (fun x => k))
  (at level 10, x pattern, m at level 100, k at level 200).

(** [for (let i = 0; i < n; i++) body], with the loop state threaded through
    and a [throw] in the body leaving the loop. *)
Fixpoint forM {S : Type} (l : list nat) (body : nat -> S -> outcome S) (s : S)
  : outcome S :=
  match l with
  | [] => Ok s
  | i :: l' => let* s' := body i s in forM l' body s'
  end.

Definition for_upto {S : Type} (n : nat) (body : nat -> S -> outcome S) (s : S)
  : outcome S :=
  forM (seq 0 n) body s.

(** ** Numbers *)

(** [x >= y] on JavaScript numbers: false as soon as one side is NaN. *)
Definition js_ge (x y : float) : bool := PrimFloat.leb y x.

(** [a[i]] on an array of numbers used as an operand: a missing element is
    [undefined], which arithmetic turns into NaN. *)
Definition num_at (a : list float) (i : nat) : float :=
  match a !! i with
  | Some x => x
  | None => nan
  end.

(** ** The similarity engine *)

(** [vectorSimilarity (point1, point2)]: the dot product, accumulated from
    [0] over the indices of [point1]. *)
Definition vectorSimilarity (point1 point2 : list float) : float :=
  fold_left (fun dotProduct i => (dotProduct + num_at point1 i * num_at point2 i)%float)
            (seq 0 (length point1)) 0%float.

(** [points[i]] for a row index the loops keep below [points.length]. *)
Definition point_at (points : list (list float)) (i : nat) : list float :=
  match points !! i with
  | Some p => p
  | None => []
  end.

(** [similarityMatrix[i][j] = v]. *)
Definition set_entry (m : list (list float)) (i j : nat) (v : float)
  : list (list float) :=
  match m !! i with
  | Some row => <[i := <[j := v]> row]> m
  | None => m
  end.

(** [computeDistanceMatrixCPU (points)]: an N x N table of zeros, every cell
    of which the double loop then overwrites. *)
Definition computeDistanceMatrixCPU (points : list (list float))
  : list (list float) :=
  let n := length points in
  let similarityMatrix := replicate n (replicate n 0%float) in
  fold_left
    (fun m i =>
       fold_left
         (fun m' j =>
            set_entry m' i j (vectorSimilarity (point_at points i) (point_at points j)))
         (seq 0 n) m)
    (seq 0 n) similarityMatrix.

(** *** The accelerated attempt

    Everything the [try] block asks of the WebGPU host is an oracle: each
    request either yields a value or raises.  [runKernel] stands for the
    buffer, pipeline, dispatch and read-back calls on a device; it is given
    the sizes and the flattened points and yields the [similarities] array
    read back from the device. *)
Record Device : Type := {
  runKernel : nat -> nat -> list float -> exn + list float
}.

Record Adapter : Type := {
  requestDevice : exn + Device
}.

Record Gpu : Type := {
  requestAdapter : exn + option Adapter
}.

(** The [navigator] object of the browser or worker that runs the code:
    ['gpu' in navigator] holds when [nav_gpu] is [Some _]. *)
Record Navigator : Type := {
  nav_gpu : option Gpu
}.

(** [await p] for a promise that settles. *)
Definition await {A : Type} (p : exn + A) : outcome A :=
  match p with
  | inl e => Throw e
  | inr a => Ok a
  end.

(** The body of the [try] block of [computeDistanceMatrix]. *)
Definition gpuAttempt (gpu : Gpu) (points : list (list float))
  : outcome (list (list float)) :=
  let* adapter := await (requestAdapter gpu) in
  match adapter with
  | None => Throw (Error "No GPU adapter found")
  | Some adapter =>
    let* device := await (requestDevice adapter) in
    let numPoints := length points in
    match points with
    | [] => Throw TypeError
    | p0 :: _ =>
      let vectorSize := length p0 in
      let* similarities := await (runKernel device numPoints vectorSize (concat points)) in
      Ok (map (fun i => take numPoints (drop (i * numPoints) similarities))
              (seq 0 numPoints))
    end
  end.

(** [computeDistanceMatrix (points, useGPU)]. *)
Definition computeDistanceMatrix (nav : Navigator) (points : list (list float))
  (useGPU : bool) : outcome (list (list float)) :=
  match useGPU, nav_gpu nav with
  | true, Some gpu =>
    match gpuAttempt gpu points with
    | Ok similarityMatrix => Ok similarityMatrix
    | Throw _ => Ok (computeDistanceMatrixCPU points)
    | OutOfFuel => OutOfFuel
    end
  | _, _ => Ok (computeDistanceMatrixCPU points)
  end.

(** ** The density clustering engine *)

(** The mutable state of one run of [dbscan]: the [visited] Set, the [noise]
    Set (in insertion order) and the [assignments] array, whose cells hold
    [null] ([None]), [-1] for noise, or a cluster id. *)
Record State : Type := mkState {
  visited : gset nat;
  noise : list nat;
  assignments : list (option Z)
}.

(** What [dbscan] returns: [{ clusters, noise: Array.from (noise) }]. *)
Record Result : Type := mkResult {
  clusters : list (list nat);
  res_noise : list nat
}.

Definition visited_add (i : nat) (st : State) : State :=
  mkState ({[ i ]} ∪ visited st) (noise st) (assignments st).

(** [Set.prototype.add]: an element already present keeps its place. *)
Definition noise_add (i : nat) (st : State) : State :=
  mkState (visited st)
          (if bool_decide (i ∈ noise st) then noise st else noise st ++ [i])
          (assignments st).

(** [assignments[i] = v].  The code writes at scan indices and at members
    of neighbour lists only, all below [assignments.length] (the invariant
    [inv] keeps them below [N]), so the array never grows. *)
Definition assign (i : nat) (v : Z) (st : State) : State :=
  mkState (visited st) (noise st) (<[i := Some v]> (assignments st)).

Definition visited_has (i : nat) (st : State) : bool :=
  bool_decide (i ∈ visited st).

(** [assignments[i] === null]. *)
Definition is_null (i : nat) (st : State) : bool :=
  match assignments st !! i with
  | Some None => true
  | _ => false
  end.

Section Engine.

(** [points.length], the similarity matrix, [epsilon] and [minPts], which
    the closures of [dbscan] capture.  [minPts] is an integer, as the
    specification has it and as [parseInt] on the page yields for a field
    that holds a number.  For a [minPts] that is NaN the two tests of the
    code, [<] in the scan and [>=] in the expansion, are both false and no
    longer the negation of each other; such a run is outside the model. *)
Variable N : nat.
Variable similarityMatrix : list (list float).
Variable epsilon : float.
Variable minPts : Z.

(** [similarityMatrix[pointIndex][i] >= epsilon]: reading a cell of a row
    that is not there throws; a cell that is not there is [undefined],
    and [undefined >= epsilon] is false. *)
Definition cell_ge (pointIndex i : nat) : outcome bool :=
  match similarityMatrix !! pointIndex with
  | None => Throw TypeError
  | Some row =>
    match row !! i with
    | Some x => Ok (js_ge x epsilon)
    | None => Ok false
    end
  end.

Definition getNeighborsFromMatrix (pointIndex : nat) : outcome (list nat) :=
  for_upto N
    (fun i neighbors =>
       let* b := cell_ge pointIndex i in
       Ok (if b then neighbors ++ [i] else neighbors))
    [].

(** [resultNeighbors.length >= minPts] *)
Definition enough (neighbors : list nat) : bool :=
  (minPts <=? Z.of_nat (length neighbors))%Z.

(** [for (const n of resultNeighbors) if (!visited.has (n)) seeds.push (n)] *)
Definition push_unvisited (st : State) (resultNeighbors seeds : list nat)
  : list nat :=
  fold_left (fun seeds n => if visited_has n st then seeds else seeds ++ [n])
            resultNeighbors seeds.

(** One turn of the [while] loop of [expandCluster], after
    [currentPoint = seeds.shift ()] left [seeds] behind. *)
Definition expandStep (clusterId : nat) (currentPoint : nat)
  (seeds : list nat) (st : State) : outcome (State * list nat) :=
  let* (st, seeds) :=
    (if visited_has currentPoint st then Ok (st, seeds)
     else
       let st := visited_add currentPoint st in
       let* resultNeighbors := getNeighborsFromMatrix currentPoint in
       if enough resultNeighbors
       then Ok (st, push_unvisited st resultNeighbors seeds)
       else Ok (st, seeds)) in
  if is_null currentPoint st
  then Ok (assign currentPoint (Z.of_nat clusterId) st, seeds)
  else Ok (st, seeds).

(** [while (seeds.length > 0) { ... }], with a bound on the number of
    turns: [OutOfFuel] when the bound is reached with seeds left. *)
Fixpoint expandLoop (fuel : nat) (clusterId : nat) (seeds : list nat)
  (st : State) : outcome State :=
  match seeds with
  | [] => Ok st
  | currentPoint :: seeds =>
    match fuel with
    | O => OutOfFuel
    | S fuel =>
      let* (st, seeds) := expandStep clusterId currentPoint seeds st in
      expandLoop fuel clusterId seeds st
    end
  end.

(** The number of turns given to one expansion: every turn either visits a
    new point, of which there are at most [N], each pushing at most [N]
    seeds, or consumes a seed ([expandLoop_inv] shows that it is enough). *)
Definition expand_fuel : nat := N + N * N.

Definition expandCluster (pointIndex : nat) (neighbors : list nat)
  (clusterId : nat) (st : State) : outcome State :=
  let st := assign pointIndex (Z.of_nat clusterId) st in
  expandLoop expand_fuel clusterId neighbors st.

(** One turn of the scan loop of [dbscan], on [(state, clusterId)]. *)
Definition scanStep (i : nat) (s : State * nat) : outcome (State * nat) :=
  let '(st, clusterId) := s in
  if visited_has i st then Ok (st, clusterId)
  else
    let st := visited_add i st in
    let* neighbors := getNeighborsFromMatrix i in
    if (Z.of_nat (length neighbors) <? minPts)%Z
    then Ok (assign i (-1) (noise_add i st), clusterId)
    else
      let* st := expandCluster i neighbors clusterId st in
      Ok (st, S clusterId).

Definition init_state : State :=
  mkState ∅ [] (replicate N None).

(** The state after the first [k] turns of the scan loop. *)
Definition scan_upto (k : nat) : outcome (State * nat) :=
  for_upto k scanStep (init_state, 0).

(** [if (assignments[i] >= 0) clusters[assignments[i]].push (i)]:
    [null >= 0] holds in JavaScript, and [clusters[null]] is [undefined],
    as is [clusters[a]] for [a] past the end: both make [.push] throw. *)
Definition groupStep (asg : list (option Z)) (i : nat)
  (clusters : list (list nat)) : outcome (list (list nat)) :=
  match asg !! i with
  | None => Ok clusters
  | Some None => Throw TypeError
  | Some (Some a) =>
    if (0 <=? a)%Z then
      match clusters !! Z.to_nat a with
      | Some c => Ok (<[Z.to_nat a := c ++ [i]]> clusters)
      | None => Throw TypeError
      end
    else Ok clusters
  end.

(** [dbscan], from the point where the similarity matrix is known. *)
Definition dbscanFromMatrix : outcome Result :=
  let* (st, clusterId) := scan_upto N in
  let* clusters :=
    for_upto (length (assignments st)) (groupStep (assignments st))
             (replicate clusterId []) in
  Ok (mkResult clusters (noise st)).


(** *** The vocabulary of the properties *)

(** [j] is a neighbour of [p]: the cell [(p, j)] is there and holds a
    number that is [>= epsilon]. *)
Definition is_neighbor (p j : nat) : bool :=
  match similarityMatrix !! p with
  | Some row =>
    match row !! j with
    | Some x => js_ge x epsilon
    | None => false
    end
  | None => false
  end.

Definition neighbors_of (p : nat) : list nat :=
  filter (fun j => is_neighbor p j) (seq 0 N).

(** The neighbour relation is symmetric, as it is on a symmetric matrix. *)
Definition symmetric_neighbors : Prop :=
  forall i j, i < N -> j < N -> is_neighbor i j = is_neighbor j i.

(** A core point: its neighbourhood, itself included when the diagonal
    cell passes the threshold, has at least [minPts] members. *)
Definition core (c : nat) : bool := enough (neighbors_of c).

(** [reach r q]: [q] is [r] or a neighbour of a core point reached from
    the core point [r]. *)
Inductive reach (r : nat) : nat -> Prop :=
| reach_root : core r = true -> reach r r
| reach_step (c q : nat) :
    reach r c -> core c = true -> q ∈ neighbors_of c -> reach r q.

(** The invariant at the head of turn [k] of the scan loop, [clusterId]
    being [cid]; inside [expandCluster] for the root [root] it holds at
    the head of every turn of the [while] loop, with [pending] the seeds. *)
Record inv (k cid root : nat) (pending : list nat) (st : State) : Prop := {
  inv_len : length (assignments st) = N;
  inv_vis_lt : forall i, i ∈ visited st -> i < N;
  inv_vis_asg : forall i, i < N ->
    (i ∈ visited st <-> assignments st !! i <> Some None);
  inv_below : forall i, i < k -> i ∈ visited st;
  inv_range : forall i a, assignments st !! i = Some (Some a) ->
                          a = (-1)%Z \/ (0 <= a < Z.of_nat cid)%Z;
  inv_noise : forall i, i ∈ noise st <-> assignments st !! i = Some (Some (-1)%Z);
  inv_noise_sorted : StronglySorted lt (noise st);
  inv_noise_lt : forall i, i ∈ noise st -> i < k;
  inv_roots : forall c, c < cid ->
    exists r, r < k /\ assignments st !! r = Some (Some (Z.of_nat c))
      /\ forall i c', (Z.of_nat c <= c')%Z ->
                      assignments st !! i = Some (Some c') -> r <= i;
  inv_pending : forall s, s ∈ pending ->
    s < N /\ reach root s /\ root < k
    /\ assignments st !! root = Some (Some (Z.of_nat cid - 1)%Z)
    /\ forall i, assignments st !! i = Some (Some (Z.of_nat cid - 1)%Z) -> root <= i;
  inv_closed : forall c q, c ∈ visited st -> core c = true -> q ∈ neighbors_of c ->
                           q ∈ visited st \/ q ∈ pending;
  inv_noise_unreach : forall i, assignments st !! i = Some (Some (-1)%Z) ->
                                core i = false /\ forall r, r < i -> ~ reach r i;
  inv_clustered_reach : forall i a, assignments st !! i = Some (Some a) -> (0 <= a)%Z ->
    exists r, r <= i /\ reach r i /\ assignments st !! r = Some (Some a)
              /\ forall i', assignments st !! i' = Some (Some a) -> r <= i';
  inv_link : symmetric_neighbors ->
    forall x y, x ∈ visited st -> core x = true -> core y = true -> y ∈ neighbors_of x ->
      (y ∈ visited st /\ assignments st !! x = assignments st !! y)
      \/ ((y ∉ visited st) /\ y ∈ pending
          /\ assignments st !! x = Some (Some (Z.of_nat cid - 1)%Z))
}.

End Engine.

(** [dbscan (points, epsilon, minPts, useGPU)]. *)
Definition dbscan (nav : Navigator) (points : list (list float))
  (epsilon : float) (minPts : Z) (useGPU : bool) : outcome Result :=
  let* similarityMatrix := computeDistanceMatrix nav points useGPU in
  dbscanFromMatrix (length points) similarityMatrix epsilon minPts.

Arguments inv_len {N similarityMatrix epsilon minPts k cid root pending st} _.
Arguments inv_vis_lt {N similarityMatrix epsilon minPts k cid root pending st} _.
Arguments inv_vis_asg {N similarityMatrix epsilon minPts k cid root pending st} _.
Arguments inv_below {N similarityMatrix epsilon minPts k cid root pending st} _.
Arguments inv_range {N similarityMatrix epsilon minPts k cid root pending st} _.
Arguments inv_noise {N similarityMatrix epsilon minPts k cid root pending st} _.
Arguments inv_noise_sorted {N similarityMatrix epsilon minPts k cid root pending st} _.
Arguments inv_noise_lt {N similarityMatrix epsilon minPts k cid root pending st} _.
Arguments inv_roots {N similarityMatrix epsilon minPts k cid root pending st} _.
Arguments inv_pending {N similarityMatrix epsilon minPts k cid root pending st} _.
Arguments inv_closed {N similarityMatrix epsilon minPts k cid root pending st} _.
Arguments inv_noise_unreach {N similarityMatrix epsilon minPts k cid root pending st} _.
Arguments inv_clustered_reach {N similarityMatrix epsilon minPts k cid root pending st} _.
Arguments inv_link {N similarityMatrix epsilon minPts k cid root pending st} _.

(** What later turns never undo. *)
Record stable (st st' : State) : Prop := {
  stable_asg : forall i a, assignments st !! i = Some (Some a) ->
                           assignments st' !! i = Some (Some a);
  stable_noise : forall i, i ∈ noise st -> i ∈ noise st';
  stable_visited : forall i, i ∈ visited st -> i ∈ visited st'
}.

(** The indices below [n] that [asg] gives to cluster [c], in ascending order. *)
Definition members (asg : list (option Z)) (c n : nat) : list nat :=
  filter (fun i => asg !! i = Some (Some (Z.of_nat c))) (seq 0 n).

(** The cell [(i, j)] of a matrix, when it is there. *)
Definition entry (m : list (list float)) (i j : nat) : option float :=
  match m !! i with
  | Some row => row !! j
  | None => None
  end.

(** An N x N matrix. *)
Definition square (N : nat) (m : list (list float)) : Prop :=
  length m = N /\ Forall (fun row => length row = N) m.

(** Index [i] is listed in the cluster with id [c]. *)
Definition in_cluster (r : Result) (c i : nat) : Prop :=
  exists cl, clusters r !! c = Some cl /\ i ∈ cl.

(** *** The result that a matrix prescribes

    A description of the result of [dbscan] by the matrix alone, without a
    scan, a queue or a state. *)
Section Described.

Variable N : nat.
Variable similarityMatrix : list (list float).
Variable epsilon : float.
Variable minPts : Z.

(** The point that opens a cluster: a core point that no core point with a
    smaller index reaches. *)
Definition is_root (r : nat) : Prop :=
  r < N /\ core N similarityMatrix epsilon minPts r = true
  /\ forall r', r' < r -> ~ reach N similarityMatrix epsilon minPts r' r.

(** The point that stays noise: no core point, and reached by no core
    point with a smaller index. *)
Definition is_noise (i : nat) : Prop :=
  i < N /\ core N similarityMatrix epsilon minPts i = false
  /\ forall r', r' < i -> ~ reach N similarityMatrix epsilon minPts r' i.

(** [described r]: the clusters of [r] are those of the roots in ascending
    order, the cluster of a root holding, in ascending order, the points
    that it is the first root to reach and that are not noise; and the
    noise array lists the noise points in ascending order. *)
Definition described (r : Result) : Prop :=
  exists roots,
    StronglySorted lt roots
    /\ (forall x, x ∈ roots <-> is_root x)
    /\ length (clusters r) = length roots
    /\ (forall c cl root,
          clusters r !! c = Some cl -> roots !! c = Some root ->
          StronglySorted lt cl
          /\ head cl = Some root
          /\ forall i, i ∈ cl <->
               i < N /\ ~ is_noise i
               /\ reach N similarityMatrix epsilon minPts root i
               /\ forall c' root', c' < c -> roots !! c' = Some root' ->
                    ~ reach N similarityMatrix epsilon minPts root' i)
    /\ StronglySorted lt (res_noise r)
    /\ forall i, i ∈ res_noise r <-> is_noise i.

End Described.

(** ** The worker ([src/app/worker.js])

    The worker keeps three module variables ([vectorCache], [lastTexts],
    [lastEmbeddings]) and the static fields of [PipelineSingleton]; it
    talks to the page through [self.postMessage].  Its functions are
    [async]: the model below runs one call to its end, no other task
    touching the variables of the worker between two of its [await]s.

    What the browser and the model library provide is gathered in a [Host]:
    the [navigator] object, the [pipeline] function of the library, the
    clock [performance.now], and the built-ins [toFixed] and [trim]. *)

Module Worker.

(** An error raised by the model library, with its [name] and [message]. *)
Record JsError : Type := mkJsError {
  name : string;
  message : string
}.

(** The feature extractor that [pipeline] resolves to.  A call is given the
    texts of the calls made before it, so that its answer for one text may
    change over time, and yields [Array.from (output.data)], or raises. *)
Record Extractor : Type := mkExtractor {
  extract : list string -> string -> JsError + list float
}.

Record Host : Type := mkHost {
  (** the global [navigator] *)
  navigator : Navigator;
  (** the k-th call [pipeline (task, model, { device, ... })] *)
  pipeline : nat -> string -> JsError + Extractor;
  (** the k-th reading of [performance.now ()] *)
  now : nat -> float;
  (** [x.toFixed (1)] *)
  toFixed1 : float -> string;
  (** [text.trim ()] *)
  trim : string -> string;
  (** the [message] of a [TypeError] that the engine itself raises *)
  typeErrorMessage : string
}.

(** The [progress] object of a ['computing'] message. *)
Record Progress : Type := mkProgress {
  current : nat;
  total : nat;
  elapsedSeconds : string;
  speed : string
}.

(** An element of [results]: [texts[index]] is [undefined] ([None]) for an
    index past the end of [texts]. *)
Record Cluster : Type := mkCluster {
  size : nat;
  texts : list (option string)
}.

Record Performance : Type := mkPerformance {
  vectorizationTime : string;
  clusteringTime : string;
  totalTime : string;
  averageSpeed : string
}.

(** The messages of the worker, by their [status]. *)
Inductive Message : Type :=
| initiate
| ready (device : string) (useGPU : bool)
| computing (progress : Progress)
| clustering
| complete (results : list Cluster) (noise : list (option string))
           (performance : Performance)
| error (error : string).

(** The variables of the worker, then the part of the host that its calls
    advance (the readings of the clock, the calls of [pipeline], the texts
    given to the extractor), then the messages posted so far.  An array
    filled by index ([embeddings]) is a list of optional cells, [None]
    being a hole. *)
Record Memory : Type := mkMemory {
  instance : option Extractor;
  device : string;
  useGPU : bool;
  vectorCache : gmap string (list float);
  lastTexts : option (list string);
  lastEmbeddings : option (list (option (list float)));
  clock : nat;
  attempts : nat;
  extracted : list string;
  posted : list Message
}.

(** The worker when its module is loaded. *)
Definition loaded : Memory :=
  mkMemory None "wasm" false ∅ None None 0 0 [] [].

(** [event.data.data] of a message from the page.  [minPts] is an integer,
    as it is for [dbscan]. *)
Record Data : Type := mkData {
  data_texts : list string;
  epsilon : float;
  minPts : Z
}.

Record Event : Type := mkEvent {
  type : string;
  data : Data
}.

(** *** Running a piece of the worker *)

Definition Run (A : Type) : Type := Memory -> outcome A * Memory.

Definition ret {A : Type} (a : A) : Run A := fun m => (Ok a, m).

Definition throw {A : Type} (e : exn) : Run A := fun m => (Throw e, m).

Definition bindR {A B : Type} (r : Run A) (k : A -> Run B) : Run B :=
  fun m =>
    match r m with
    | (Ok a, m') => k a m'
    | (Throw e, m') => (Throw e, m')
    | (OutOfFuel, m') => (OutOfFuel, m')
    end.

Notation "'let!' x ':=' r 'in' k" := (bindR r (fun x => k))
  (at level 10, x pattern, r at level 100, k at level 200).

(** [try { r } catch (e) { handler }] *)
Definition try_catch {A : Type} (r : Run A) (handler : exn -> Run A) : Run A :=
  fun m =>
    match r m with
    | (Throw e, m') => handler e m'
    | other => other
    end.

Definition read : Run Memory := fun m => (Ok m, m).

Definition lift {A : Type} (o : outcome A) : Run A := fun m => (o, m).

Fixpoint forEach {A S : Type} (l : list A) (body : A -> S -> Run S) (s : S)
  : Run S :=
  match l with
  | [] => ret s
  | x :: l' => let! s' := body x s in forEach l' body s'
  end.

Definition postMessage (msg : Message) : Run unit :=
  fun m =>
    (Ok tt, mkMemory (instance m) (device m) (useGPU m) (vectorCache m)
                     (lastTexts m) (lastEmbeddings m) (clock m) (attempts m)
                     (extracted m) (posted m ++ [msg])).

Definition set_device (d : string) (g : bool) : Run unit :=
  fun m =>
    (Ok tt, mkMemory (instance m) d g (vectorCache m)
                     (lastTexts m) (lastEmbeddings m) (clock m) (attempts m)
                     (extracted m) (posted m)).

Definition set_instance (extractor : Extractor) : Run unit :=
  fun m =>
    (Ok tt, mkMemory (Some extractor) (device m) (useGPU m) (vectorCache m)
                     (lastTexts m) (lastEmbeddings m) (clock m) (attempts m)
                     (extracted m) (posted m)).

(** [vectorCache.set (text, vector)] *)
Definition cache_set (text : string) (vector : list float) : Run unit :=
  fun m =>
    (Ok tt, mkMemory (instance m) (device m) (useGPU m)
                     (<[text := vector]> (vectorCache m))
                     (lastTexts m) (lastEmbeddings m) (clock m) (attempts m)
                     (extracted m) (posted m)).

(** [lastTexts = [...texts]; lastEmbeddings = [...embeddings]] *)
Definition set_last (texts : list string)
  (embeddings : list (option (list float))) : Run unit :=
  fun m =>
    (Ok tt, mkMemory (instance m) (device m) (useGPU m) (vectorCache m)
                     (Some texts) (Some embeddings) (clock m) (attempts m)
                     (extracted m) (posted m)).

Section Host.

Variable host : Host.

(** [performance.now ()] *)
Definition performance_now : Run float :=
  fun m =>
    (Ok (now host (clock m)),
     mkMemory (instance m) (device m) (useGPU m) (vectorCache m)
              (lastTexts m) (lastEmbeddings m) (S (clock m)) (attempts m)
              (extracted m) (posted m)).

(** [await pipeline (this.task, this.model, options)], as a value. *)
Definition call_pipeline (d : string) : Run (JsError + Extractor) :=
  fun m =>
    (Ok (pipeline host (attempts m) d),
     mkMemory (instance m) (device m) (useGPU m) (vectorCache m)
              (lastTexts m) (lastEmbeddings m) (clock m) (S (attempts m))
              (extracted m) (posted m)).

(** [await extractor (text, { pooling: 'mean', normalize: true })] followed
    by [Array.from (output.data)], as a value. *)
Definition call_extractor (extractor : Extractor) (text : string)
  : Run (JsError + list float) :=
  fun m =>
    (Ok (extract extractor (extracted m) text),
     mkMemory (instance m) (device m) (useGPU m) (vectorCache m)
              (lastTexts m) (lastEmbeddings m) (clock m) (attempts m)
              (extracted m ++ [text]) (posted m)).

(** *** [PipelineSingleton.getInstance] *)

(** The first [try] block of [getInstance]: the probe for WebGPU.  Whatever
    a request raises is caught, and the fields go back to their defaults. *)
Definition detectWebGPU : Run unit :=
  match nav_gpu (navigator host) with
  | None => ret tt
  | Some gpu =>
    match requestAdapter gpu with
    | inl _ => set_device "wasm" false
    | inr None => ret tt
    | inr (Some adapter) =>
      match requestDevice adapter with
      | inl _ => set_device "wasm" false
      | inr _ => set_device "webgpu" true
      end
    end
  end.

(** [s.includes (sub)] *)
Definition includes (s sub : string) : bool :=
  match String.index 0 sub s with
  | Some _ => true
  | None => false
  end.

(** The message of the [Error] that [getInstance] throws when [pipeline]
    raised [err]. *)
Definition errorMessage (err : JsError) : string :=
  "初始化失败: " +:+
  (if includes (message err) "Failed to fetch"
   then "无法下载模型，请检查网络连接"
   else if String.eqb (name err) "TypeError"
   then "浏览器版本过低，请使用最新版Chrome等现代浏览器"
   else message err).

(** [PipelineSingleton.getInstance ()], as the message handler calls it,
    without a [progress_callback].  The call made when the module is
    loaded passes one, which [pipeline] uses as it sees fit; that call is
    not modelled. *)
Definition getInstance : Run Extractor :=
  let! m := read in
  match instance m with
  | Some extractor => ret extractor
  | None =>
    let! _ := postMessage initiate in
    let! _ := detectWebGPU in
    let! m := read in
    let! created := call_pipeline (device m) in
    match created with
    | inr extractor =>
      let! _ := set_instance extractor in
      let! _ := postMessage (ready (device m) (useGPU m)) in
      ret extractor
    | inl err => throw (Error (errorMessage err))
    end
  end.

(** *** [computeEmbeddings] *)

(** [[...new Set (texts)]]: the distinct texts, in the order of their first
    occurrence. *)
Definition uniqueTexts (texts : list string) : list string :=
  fold_left (fun set text => if bool_decide (text ∈ set) then set else set ++ [text])
            texts [].

(** The [forEach] that fills [textToIndexMap]: the indices of each text,
    in ascending order. *)
Definition textToIndexMap (texts : list string) : gmap string (list nat) :=
  fold_left
    (fun map '(index, text) =>
       match map !! text with
       | Some indices => <[text := indices ++ [index]]> map
       | None => <[text := [index]]> map
       end)
    (zip (seq 0 (length texts)) texts) ∅.

(** [a[index] = v] on an array: a write past the end extends the array,
    leaving holes between the old end and [index]. *)
Definition array_set {A : Type} (a : list (option A)) (index : nat) (v : A)
  : list (option A) :=
  if decide (index < length a) then <[index := Some v]> a
  else a ++ replicate (index - length a) None ++ [Some v].

(** [indices.forEach (index => { embeddings[index] = v })] *)
Definition fill {A : Type} (indices : list nat) (v : A) (a : list (option A))
  : list (option A) :=
  fold_left (fun a index => array_set a index v) indices a.

(** A JavaScript number from an array length. *)
Definition number (n : nat) : float :=
  PrimFloat.of_uint63 (Uint63.of_Z (Z.of_nat n)).

(** One turn of the loop over [uniqueTexts], on
    [(processedCount, embeddings)]. *)
Definition embedStep (extractor : Extractor) (startTime : float)
  (index_of : gmap string (list nat)) (n : nat) (text : string)
  (s : nat * list (option (list float)))
  : Run (nat * list (option (list float))) :=
  let '(processedCount, embeddings) := s in
  match index_of !! text with
  | None => throw TypeError
  | Some indices =>
    let processedCount := processedCount + length indices in
    let! currentTime := performance_now in
    let elapsedSeconds := toFixed1 host ((currentTime - startTime) / 1000)%float in
    let speed :=
      toFixed1 host (number processedCount / (currentTime - startTime) * 1000)%float in
    let! _ := postMessage (computing (mkProgress processedCount n elapsedSeconds speed)) in
    let! m := read in
    match vectorCache m !! text with
    | Some cachedVector => ret (processedCount, fill indices cachedVector embeddings)
    | None =>
      let! output := call_extractor extractor text in
      match output with
      | inr vector =>
        let! _ := cache_set text vector in
        ret (processedCount, fill indices vector embeddings)
      | inl err => throw (Error ("处理文本时出错: " +:+ message err))
      end
    end
  end.

(** [computeEmbeddings (texts, extractor)]: it returns
    [{ embeddings, vectorizationTime }]. *)
Definition computeEmbeddings (texts : list string) (extractor : Extractor)
  : Run (list (option (list float)) * float) :=
  let! startTime := performance_now in
  let! (_, embeddings) :=
    forEach (uniqueTexts texts)
            (embedStep extractor startTime (textToIndexMap texts) (length texts))
            (0, []) in
  let! endTime := performance_now in
  ret (embeddings, (endTime - startTime)%float).

(** *** The message handler *)

(** [texts.length === lastTexts.length
     && texts.every ((text, i) => text === lastTexts[i])] *)
Definition sameTexts (texts lastTexts : list string) : bool :=
  (length texts =? length lastTexts)
  && forallb (fun '(i, text) => bool_decide (lastTexts !! i = Some text))
             (zip (seq 0 (length texts)) texts).

(** The points that [dbscan] is given: an array without a hole.  On an
    array with a hole the fallback of [computeDistanceMatrix] throws a
    [TypeError] when it reads the missing vector; what the device would make
    of it is not modelled, since [computeEmbeddings] returns no such array
    and [lastEmbeddings] never holds one, as is shown below. *)
Fixpoint dense {A : Type} (a : list (option A)) : option (list A) :=
  match a with
  | [] => Some []
  | Some x :: a' =>
    match dense a' with
    | Some l => Some (x :: l)
    | None => None
    end
  | None :: _ => None
  end.

(** [1 - data.epsilon]: the distance threshold of the page as a similarity
    threshold. *)
Definition similarityThreshold (epsilon : float) : float := (1 - epsilon)%float.

(** [cluster => ({ size: cluster.length,
                   texts: cluster.map (index => texts[index]) })] *)
Definition toCluster (texts : list string) (cluster : list nat) : Cluster :=
  mkCluster (length cluster) (map (fun index => texts !! index) cluster).

(** [results.sort ((a, b) => b.size - a.size)].  The sort of an array is
    stable and the comparator is an order on the sizes, which fixes the
    result: the sizes descend, and elements of one size keep their order. *)
Fixpoint sort_insert (x : Cluster) (sorted : list Cluster) : list Cluster :=
  match sorted with
  | [] => [x]
  | y :: sorted' =>
    if size y <=? size x then x :: y :: sorted'
    else y :: sort_insert x sorted'
  end.

Definition sort (results : list Cluster) : list Cluster :=
  foldr sort_insert [] results.

(** The [else] branch of the handler: the texts changed, their vectors are
    computed and remembered. *)
Definition computeAndRemember (texts : list string)
  : Run (list (option (list float)) * float) :=
  let! extractor := getInstance in
  let! (embeddings, vectorizationTime) := computeEmbeddings texts extractor in
  let! _ := set_last texts embeddings in
  ret (embeddings, vectorizationTime).

(** The [if ... else] of the handler: it yields [embeddings] and
    [vectorizationTime]. *)
Definition obtainEmbeddings (texts : list string)
  : Run (list (option (list float)) * float) :=
  let! m := read in
  match lastTexts m, lastEmbeddings m with
  | Some lastTexts, Some lastEmbeddings =>
    if sameTexts texts lastTexts
    then
      let! _ := postMessage
                  (computing (mkProgress (length texts) (length texts) "0.0" "∞")) in
      ret (lastEmbeddings, 0%float)
    else computeAndRemember texts
  | _, _ => computeAndRemember texts
  end.

(** The rest of the [try] block: the clustering and the ['complete']
    message. *)
Definition clusterAndReport (d : Data) (texts : list string) (startTime : float)
  (embeddings : list (option (list float))) (vectorizationTime : float)
  : Run unit :=
  let! _ := postMessage clustering in
  let! m := read in
  let! result :=
    match dense embeddings with
    | Some points =>
      lift (dbscan (navigator host) points (similarityThreshold (epsilon d))
                   (minPts d) (useGPU m))
    | None => throw TypeError
    end in
  let! endTime := performance_now in
  let clusteringTime := (endTime - startTime - vectorizationTime)%float in
  let results := sort (map (toCluster texts) (clusters result)) in
  let noiseTexts := map (fun index => texts !! index) (res_noise result) in
  let totalTime := (vectorizationTime + clusteringTime)%float in
  postMessage
    (complete results noiseTexts
       (mkPerformance
          (toFixed1 host (vectorizationTime / 1000)%float)
          (toFixed1 host (clusteringTime / 1000)%float)
          (toFixed1 host (totalTime / 1000)%float)
          (if PrimFloat.eqb vectorizationTime 0 then "∞"
           else toFixed1 host (number (length texts) / (vectorizationTime / 1000))%float))).

(** The body of the [try] block of the handler. *)
Definition handle (d : Data) : Run unit :=
  let texts := filter (fun text => trim host text <> ""%string) (data_texts d) in
  let! startTime := performance_now in
  let! (embeddings, vectorizationTime) := obtainEmbeddings texts in
  clusterAndReport d texts startTime embeddings vectorizationTime.

(** [error.message] of what the handler catches. *)
Definition message_of (e : exn) : string :=
  match e with
  | TypeError => typeErrorMessage host
  | Error msg => msg
  | HostError msg => msg
  end.

(** The listener of the worker for the messages of the page. *)
Definition onMessage (event : Event) : Run unit :=
  if String.eqb (type event) "compute_embeddings"
  then try_catch (handle (data event))
                 (fun e => postMessage (error (message_of e)))
  else ret tt.

End Host.

(** *** The vocabulary of the properties *)

(** The indices at which [texts] holds [text], in ascending order. *)
Definition occurrences (texts : list string) (text : string) : list nat :=
  filter (fun i => texts !! i = Some text) (seq 0 (length texts)).

(** The [device] and [useGPU] fields of [PipelineSingleton] agree. *)
Definition coherent (m : Memory) : Prop :=
  useGPU m = true <-> device m = "webgpu"%string.

(** What the worker remembers of its last request is an array of vectors
    without a hole, one vector for each text. *)
Definition remembers_vectors (m : Memory) : Prop :=
  forall lastTexts0 lastEmbeddings0,
    lastTexts m = Some lastTexts0 -> lastEmbeddings m = Some lastEmbeddings0 ->
    exists points,
      lastEmbeddings0 = Some <$> points /\ length points = length lastTexts0.

(** A message that reports progress, as opposed to the last message of a
    request (['complete'] or ['error']). *)
Definition is_progress (msg : Message) : bool :=
  match msg with
  | initiate | ready _ _ | computing _ | clustering => true
  | complete _ _ _ | error _ => false
  end.

(** The [current] field of a ['computing'] message. *)
Definition current_of (msg : Message) : option nat :=
  match msg with
  | computing progress => Some (current progress)
  | _ => None
  end.

End Worker.

(** ** The page ([src/app/page.js]) *)

Module Page.

(** A cell of the sheet: a text (or [undefined]) or a number. *)
Inductive Cell : Type :=
| str (s : option string)
| num (n : Z).

(** The rows [excelData] of [handleDownload], from the [results] and [noise]
    of the last ['complete'] message. *)
Definition excelData (results : list Worker.Cluster) (noise : list (option string))
  : list (list Cell) :=
  [ [str (Some "query"); str (Some "cluster_id")] ]
  ++ concat (imap (fun clusterIdx cluster =>
                     map (fun text => [str text; num (Z.of_nat clusterIdx)])
                         (Worker.texts cluster))
                  results)
  ++ map (fun text => [str text; num (-1)]) noise.

End Page.

(** ** Sample inputs *)

Definition chain3 : list (list float) :=
  [ [1; 0.9; 0.3]; [0.9; 1; 0.9]; [0.3; 0.9; 1] ]%float.

Definition no_gpu : Navigator := {| nav_gpu := None |}.

(** A host with a [gpu] entry that hands out no adapter. *)
Definition no_adapter : Navigator :=
  {| nav_gpu := Some {| requestAdapter := inr None |} |}.

(** Three vectors of dimension two, and two vectors of different lengths. *)
Definition points3 : list (list float) :=
  [ [1; 0]; [0.6; 0.8]; [0; 1] ]%float.

(** Nine unit vectors in the plane, at the angles 0, three times -24, 60,
    three times 84, and 40 degrees. *)
Definition points9 : list (list float) :=
  [ [1; 0];
    [0.9135; -0.4067]; [0.9135; -0.4067]; [0.9135; -0.4067];
    [0.5; 0.866];
    [0.1045; 0.9945]; [0.1045; 0.9945]; [0.1045; 0.9945];
    [0.766; 0.6428] ]%float.

Definition ragged2 : list (list float) :=
  [ [1]; [1; 2] ]%float.

(** A host whose device answers every kernel with a table of ones. *)
Definition ones_device : Device :=
  {| runKernel := fun numPoints _ _ => inr (replicate (numPoints * numPoints) 1%float) |}.

Definition ones_gpu : Navigator :=
  {| nav_gpu := Some {| requestAdapter :=
                          inr (Some {| requestDevice := inr ones_device |}) |} |}.

(** Five vectors: two copies of [[1, 0]], two copies of [[0, 1]] and one
    vector between them; and a host whose device answers with the table of
    their dot products. *)
Definition points5 : list (list float) :=
  [ [1; 0]; [1; 0]; [0; 1]; [0; 1]; [0.6; 0.8] ]%float.

Definition table_device : Device :=
  {| runKernel := fun _ _ _ => inr (concat (computeDistanceMatrixCPU points5)) |}.

Definition table_gpu : Navigator :=
  {| nav_gpu := Some {| requestAdapter :=
                          inr (Some {| requestDevice := inr table_device |}) |} |}.

(** A model that answers the text "a" with [[1, 0]] and any other text with
    [[0, 1]], and a model that fails. *)
Definition sample_extractor : Worker.Extractor :=
  Worker.mkExtractor
    (fun _ text => inr (if String.eqb text "a" then [1; 0] else [0; 1])%float).

Definition failing_extractor : Worker.Extractor :=
  Worker.mkExtractor (fun _ _ => inl (Worker.mkJsError "Error" "out of memory")).

(** A host without WebGPU, whose clock advances by a second at every
    reading. *)
Definition sample_host : Worker.Host :=
  Worker.mkHost no_gpu
                (fun _ _ => inr sample_extractor)
                (fun k => (Worker.number k * 1000)%float)
                (fun _ => "0.0"%string)
                (fun text => if String.eqb text " " then ""%string else text)
                "TypeError".

Definition sample_texts : list string := ["a"; "b"; "a"]%string.

(** The worker after it embedded [sample_texts] once. *)
Definition sample_memory : Worker.Memory :=
  snd (Worker.computeEmbeddings sample_host sample_texts sample_extractor
                                Worker.loaded).

(** A first request of the page, the worker after it, and a second request
    with the same texts and other parameters. *)
Definition sample_event : Worker.Event :=
  Worker.mkEvent "compute_embeddings"
                 (Worker.mkData ["a"; " "; "b"; "a"]%string 0.15 2).

Definition sample_worker : Worker.Memory :=
  snd (Worker.onMessage sample_host sample_event Worker.loaded).

Definition sample_event_again : Worker.Event :=
  Worker.mkEvent "compute_embeddings"
                 (Worker.mkData ["a"; "b"; " "; "a"]%string 0.5 1).

(** ** Loops *)

Lemma bind_Ok {A B : Type} (m : outcome A) (k : A -> outcome B) (b : B) :
  bind m k = Ok b -> exists a, m = Ok a /\ k a = Ok b.
Proof. destruct m as [a | e |]; simpl; intros H; try discriminate. eauto. Qed.

Lemma forM_app {S : Type} (l1 l2 : list nat) (body : nat -> S -> outcome S) (s : S) :
  forM (l1 ++ l2) body s = let* s' := forM l1 body s in forM l2 body s'.
Proof.
  revert s. induction l1 as [| i l1 IH]; intros s; simpl; [reflexivity |].
  destruct (body i s); simpl; auto.
Qed.

Lemma for_upto_S {S : Type} (n : nat) (body : nat -> S -> outcome S) (s : S) :
  for_upto (Datatypes.S n) body s = let* s' := for_upto n body s in body n s'.
Proof.
  unfold for_upto. rewrite seq_S, forM_app. simpl.
  destruct (forM (seq 0 n) body s); simpl; auto.
  destruct (body n a); reflexivity.
Qed.

Lemma forM_ext {S : Type} (l : list nat) (f g : nat -> S -> outcome S) (s : S) :
  (forall i s, f i s = g i s) -> forM l f s = forM l g s.
Proof.
  intros Hfg. revert s. induction l as [| i l IH]; intros s; simpl; [reflexivity |].
  rewrite Hfg. destruct (g i s); simpl; auto.
Qed.

(** ** The engine reads the matrix through [getNeighborsFromMatrix] only *)

Section Ext.

Variable N : nat.
Variables sim sim' : list (list float).
Variables eps eps' : float.
Variable minPts : Z.

Hypothesis Hnb : forall p,
  getNeighborsFromMatrix N sim eps p = getNeighborsFromMatrix N sim' eps' p.

Lemma expandStep_ext (cid p : nat) (seeds : list nat) (st : State) :
  expandStep N sim eps minPts cid p seeds st
  = expandStep N sim' eps' minPts cid p seeds st.
Proof. unfold expandStep. rewrite Hnb. reflexivity. Qed.

Lemma expandLoop_ext (fuel cid : nat) (seeds : list nat) (st : State) :
  expandLoop N sim eps minPts fuel cid seeds st
  = expandLoop N sim' eps' minPts fuel cid seeds st.
Proof.
  revert seeds st. induction fuel as [| fuel IH]; intros [| p seeds] st; simpl;
    try reflexivity.
  rewrite expandStep_ext.
  destruct (expandStep N sim' eps' minPts cid p seeds st) as [[st' seeds'] | |];
    simpl; auto.
Qed.

Lemma scanStep_ext (i : nat) (s : State * nat) :
  scanStep N sim eps minPts i s = scanStep N sim' eps' minPts i s.
Proof.
  unfold scanStep, expandCluster. destruct s as [st cid].
  destruct (visited_has i st); [reflexivity |]. rewrite Hnb.
  destruct (getNeighborsFromMatrix N sim' eps' i) as [nb | |]; simpl; try reflexivity.
  destruct (Z.of_nat (length nb) <? minPts)%Z; simpl; [reflexivity |].
  rewrite expandLoop_ext. reflexivity.
Qed.

Lemma dbscanFromMatrix_ext :
  dbscanFromMatrix N sim eps minPts = dbscanFromMatrix N sim' eps' minPts.
Proof.
  unfold dbscanFromMatrix, scan_upto, for_upto.
  rewrite (forM_ext _ _ _ _ scanStep_ext). reflexivity.
Qed.

End Ext.

(** ** Neighbourhoods *)

Section Neighbours.

Variable N : nat.
Variable similarityMatrix : list (list float).
Variable epsilon : float.
Variable minPts : Z.

Abbreviation neighbor := (is_neighbor similarityMatrix epsilon).
Abbreviation neighbors := (neighbors_of N similarityMatrix epsilon).

Lemma cell_ge_row (p j : nat) :
  is_Some (similarityMatrix !! p) ->
  cell_ge similarityMatrix epsilon p j = Ok (neighbor p j).
Proof.
  intros [row Hrow]. unfold cell_ge, is_neighbor. rewrite Hrow.
  destruct (row !! j); reflexivity.
Qed.

Lemma getNeighbors_prefix (p n : nat) :
  is_Some (similarityMatrix !! p) ->
  for_upto n
    (fun i neighbors =>
       let* b := cell_ge similarityMatrix epsilon p i in
       Ok (if b then neighbors ++ [i] else neighbors)) []
  = Ok (filter (fun j => neighbor p j) (seq 0 n)).
Proof.
  intros Hrow. induction n as [| n IH]; [reflexivity |].
  rewrite for_upto_S, IH, seq_S, filter_app. cbn [bind].
  rewrite (cell_ge_row _ _ Hrow). cbn [bind]. f_equal.
  destruct (neighbor p n) eqn:E.
  - rewrite filter_cons_True by (simpl; rewrite E; exact I). reflexivity.
  - rewrite filter_cons_False by (simpl; rewrite E; simpl; tauto).
    rewrite filter_nil, app_nil_r. reflexivity.
Qed.

Lemma getNeighbors_ok (p : nat) :
  is_Some (similarityMatrix !! p) ->
  getNeighborsFromMatrix N similarityMatrix epsilon p = Ok (neighbors p).
Proof. apply getNeighbors_prefix. Qed.

Lemma elem_of_neighbors_of (p j : nat) :
  j ∈ neighbors p <-> j < N /\ neighbor p j = true.
Proof.
  unfold neighbors_of. rewrite list_elem_of_filter, elem_of_seq.
  rewrite Is_true_true. intuition lia.
Qed.

Lemma length_neighbors_of (p : nat) : length (neighbors p) <= N.
Proof.
  unfold neighbors_of.
  etransitivity; [apply length_filter |]. rewrite length_seq. lia.
Qed.

Lemma push_unvisited_filter (st : State) (rn seeds : list nat) :
  push_unvisited st rn seeds
  = seeds ++ filter (fun n => n ∉ visited st) rn.
Proof.
  unfold push_unvisited. revert seeds.
  induction rn as [| n rn IH]; intros seeds; simpl.
  - rewrite filter_nil, app_nil_r. reflexivity.
  - rewrite IH. unfold visited_has. destruct (bool_decide_reflect (n ∈ visited st)).
    + rewrite filter_cons_False by tauto. reflexivity.
    + rewrite filter_cons_True by assumption. rewrite <- app_assoc. reflexivity.
Qed.

End Neighbours.

(** ** Grouping the assignments into clusters *)

Lemma members_S_in (asg : list (option Z)) (c n : nat) :
  asg !! n = Some (Some (Z.of_nat c)) -> members asg c (S n) = members asg c n ++ [n].
Proof.
  intros H. unfold members. rewrite seq_S, filter_app. simpl.
  rewrite filter_cons_True by assumption. reflexivity.
Qed.

Lemma members_S_out (asg : list (option Z)) (c n : nat) :
  asg !! n <> Some (Some (Z.of_nat c)) -> members asg c (S n) = members asg c n.
Proof.
  intros H. unfold members. rewrite seq_S, filter_app. simpl.
  rewrite filter_cons_False by assumption. rewrite filter_nil, app_nil_r. reflexivity.
Qed.

Lemma elem_of_members (asg : list (option Z)) (c n i : nat) :
  i ∈ members asg c n <-> i < n /\ asg !! i = Some (Some (Z.of_nat c)).
Proof.
  unfold members. rewrite list_elem_of_filter, elem_of_seq. intuition lia.
Qed.

(** The grouping loop of [dbscan] fills cluster [c] with the members of [c],
    provided every cell holds [-1] or a cluster id below [cid]. *)
Lemma group_prefix (asg : list (option Z)) (cid n : nat) :
  (forall i, i < n -> exists a, asg !! i = Some (Some a)
                               /\ (a = (-1)%Z \/ (0 <= a < Z.of_nat cid)%Z)) ->
  for_upto n (groupStep asg) (replicate cid [])
  = Ok ((fun c => members asg c n) <$> seq 0 cid).
Proof.
  induction n as [| n IH]; intros Hasg.
  - unfold for_upto. simpl. f_equal. apply list_eq. intros c.
    rewrite list_lookup_fmap. destruct (decide (c < cid)) as [Hc | Hc].
    + rewrite lookup_replicate_2 by assumption.
      rewrite (proj2 (lookup_seq 0 cid c c)) by (split; [reflexivity | assumption]).
      reflexivity.
    + rewrite !lookup_ge_None_2; [reflexivity | |].
      * rewrite length_seq. lia.
      * rewrite length_replicate. lia.
  - rewrite for_upto_S, IH by (intros; apply Hasg; lia). cbn [bind].
    destruct (Hasg n) as (a & Hn & Ha); [lia |].
    unfold groupStep. rewrite Hn.
    destruct Ha as [-> | Ha].
    + simpl. f_equal. apply list_fmap_ext. intros _ c _.
      symmetry. apply members_S_out. rewrite Hn. intros [= H]. lia.
    + rewrite (proj2 (Z.leb_le 0 a)) by lia.
      assert (Hc : Z.to_nat a < cid) by lia.
      rewrite list_lookup_fmap.
      rewrite (proj2 (lookup_seq 0 cid (Z.to_nat a) (Z.to_nat a)))
        by (split; [reflexivity | assumption]).
      simpl. f_equal. apply list_eq. intros c.
      rewrite list_lookup_fmap.
      destruct (decide (c = Z.to_nat a)) as [-> | Hne].
      * rewrite list_lookup_insert_eq by (rewrite length_fmap, length_seq; assumption).
        rewrite (proj2 (lookup_seq 0 cid (Z.to_nat a) (Z.to_nat a)))
          by (split; [reflexivity | assumption]).
        simpl. f_equal. symmetry. apply members_S_in.
        rewrite Hn. do 2 f_equal. lia.
      * rewrite list_lookup_insert_ne by congruence.
        rewrite list_lookup_fmap. destruct (seq 0 cid !! c) as [c0 |] eqn:E; [| reflexivity].
        apply lookup_seq in E as [-> _]. simpl. f_equal.
        symmetry. apply members_S_out. rewrite Hn. intros [= H]. lia.
Qed.

(** ** The invariant of a run *)

Section Run.

Variable N : nat.
Variable similarityMatrix : list (list float).
Variable epsilon : float.
Variable minPts : Z.

(** The matrix has a row for each of the [N] points. *)
Hypothesis Hrows : length similarityMatrix = N.

Abbreviation neighbors := (neighbors_of N similarityMatrix epsilon).
Abbreviation asg st i := (assignments st !! i).
Abbreviation Core := (core N similarityMatrix epsilon minPts).
Abbreviation Reach := (reach N similarityMatrix epsilon minPts).
Abbreviation Inv := (inv N similarityMatrix epsilon minPts).
Abbreviation Sym := (symmetric_neighbors N similarityMatrix epsilon).

Lemma stable_refl (st : State) : stable st st.
Proof. split; auto. Qed.

Lemma stable_trans (st1 st2 st3 : State) :
  stable st1 st2 -> stable st2 st3 -> stable st1 st3.
Proof. intros [] []. split; auto. Qed.

Lemma reach_core (r q : nat) : Reach r q -> Core r = true.
Proof. induction 1; auto. Qed.

(** With no seeds pending, the visited set is closed under [Reach]. *)
Lemma reach_visited (k cid root : nat) (st : State) (r q : nat) :
  Inv k cid root [] st -> r ∈ visited st -> Reach r q -> q ∈ visited st.
Proof.
  intros I Hr H. induction H as [| c q _ IH Hc Hq]; [assumption |].
  destruct (inv_closed I c q IH Hc Hq) as [? | Hin]; [assumption |].
  inversion Hin.
Qed.

Lemma inv_root_irrelevant (k cid root root' : nat) (st : State) :
  Inv k cid root [] st -> Inv k cid root' [] st.
Proof.
  intros []. split; auto. intros s Hs. inversion Hs.
Qed.

Lemma inv_unvisited_null (k cid root : nat) (pending : list nat) (st : State) (i : nat) :
  Inv k cid root pending st -> i < N -> i ∉ visited st -> asg st i = Some None.
Proof.
  intros I Hi Hnv.
  destruct (asg st i) as [[a |] |] eqn:E; [| reflexivity |].
  - exfalso. apply Hnv. apply (inv_vis_asg I i Hi). rewrite E. discriminate.
  - apply lookup_ge_None_1 in E. rewrite (inv_len I) in E. lia.
Qed.

Lemma inv_visited_not_null (k cid root : nat) (pending : list nat) (st : State) (i : nat) :
  Inv k cid root pending st -> i ∈ visited st -> is_null i st = false.
Proof.
  intros I Hv. unfold is_null.
  pose proof (inv_vis_lt I i Hv) as Hi.
  apply (inv_vis_asg I i Hi) in Hv.
  destruct (asg st i) as [[a |] |]; congruence.
Qed.

Lemma inv_init : Inv 0 0 0 [] (init_state N).
Proof.
  split; simpl.
  - apply length_replicate.
  - intros i Hi. set_solver.
  - intros i Hi. rewrite lookup_replicate_2 by assumption. set_solver.
  - intros i Hi. lia.
  - intros i a H. apply lookup_replicate_1 in H as [H _]. discriminate.
  - intros i. split; [intros H; inversion H |].
    intros H. apply lookup_replicate_1 in H as [H _]. discriminate.
  - constructor.
  - intros i H. inversion H.
  - intros c Hc. lia.
  - intros s H. inversion H.
  - intros c q H. set_solver.
  - intros i H. apply lookup_replicate_1 in H as [H _]. discriminate.
  - intros i a H. apply lookup_replicate_1 in H as [H _]. discriminate.
  - intros _ x y H. set_solver.
Qed.

(** On a symmetric neighbour relation, a core point reached from a visited
    core point has the assignment of that point. *)
Lemma reach_same_cluster (k cid root : nat) (st : State) (r x : nat) :
  Inv k cid root [] st -> Sym -> r ∈ visited st -> Reach r x -> Core x = true ->
  asg st r = asg st x.
Proof.
  intros I Hsym Hr H. induction H as [Hc | c q Hreach IH Hc Hq]; intros Hx.
  - reflexivity.
  - pose proof (reach_visited _ _ _ _ _ _ I Hr Hreach) as Hcv.
    rewrite (IH Hc).
    destruct (inv_link I Hsym c q Hcv Hc Hx Hq) as [[_ Heq] | (_ & Hin & _)];
      [assumption | inversion Hin].
Qed.

(** *** The four moves of a run *)

(** The scan loop meets an index that an expansion already visited. *)
Lemma inv_skip (k cid root : nat) (st : State) :
  Inv k cid root [] st -> k ∈ visited st -> Inv (S k) cid root [] st.
Proof.
  intros [Hlen Hvlt Hva Hbel Hrng Hnz Hsort Hnlt Hroots Hpend Hclosed Hunreach Hcr Hlink] Hk.
  split; auto.
  - intros i Hi. destruct (decide (i = k)) as [-> |]; [assumption | apply Hbel; lia].
  - intros i Hi. specialize (Hnlt i Hi). lia.
  - intros c Hc. destruct (Hroots c Hc) as (r & Hr & H1 & H2).
    exists r. split; [lia | auto].
  - intros s Hs. inversion Hs.
Qed.

(** The scan root [k] has too few neighbours: it is labelled noise. *)
Lemma inv_noise_step (k cid root : nat) (st : State) :
  Inv k cid root [] st -> k < N -> k ∉ visited st -> Core k = false ->
  let st' := assign k (-1) (noise_add k (visited_add k st)) in
  Inv (S k) cid root [] st' /\ stable st st'.
Proof.
  intros I Hk Hnv Hcore.
  pose proof (inv_unvisited_null _ _ _ _ _ _ I Hk Hnv) as Hnull.
  pose proof (fun r q => reach_visited _ _ _ _ r q I) as Hreach.
  destruct I as [Hlen Hvlt Hva Hbel Hrng Hnz Hsort Hnlt Hroots Hpend Hclosed Hunreach Hcr Hlink].
  assert (Hnn : k ∉ noise st).
  { intros H. apply Hnz in H. congruence. }
  assert (Hklen : k < length (assignments st)) by lia.
  simpl. unfold noise_add. simpl. rewrite bool_decide_false by assumption.
  split; [split; simpl |split; simpl].
  - rewrite length_insert. assumption.
  - intros i Hi. apply elem_of_union in Hi as [Hi | Hi]; [| auto].
    apply elem_of_singleton in Hi. subst. assumption.
  - intros i Hi. destruct (decide (i = k)) as [-> | Hne].
    + rewrite list_lookup_insert_eq by assumption. split; [discriminate | set_solver].
    + rewrite list_lookup_insert_ne by congruence.
      rewrite <- (Hva i Hi). set_solver.
  - intros i Hi. destruct (decide (i = k)) as [-> | Hne]; [set_solver |].
    apply elem_of_union_r, Hbel. lia.
  - intros i a. destruct (decide (i = k)) as [-> | Hne].
    + rewrite list_lookup_insert_eq by assumption. intros [= <-]. auto.
    + rewrite list_lookup_insert_ne by congruence. apply Hrng.
  - intros i. rewrite elem_of_app, list_elem_of_singleton.
    destruct (decide (i = k)) as [-> | Hne].
    + rewrite list_lookup_insert_eq by assumption. tauto.
    + rewrite list_lookup_insert_ne by congruence. rewrite Hnz. tauto.
  - clear - Hsort Hnlt. induction (noise st) as [| x l IH].
    + repeat constructor.
    + simpl. apply StronglySorted_inv in Hsort as [Hs Hx]. constructor.
      * apply IH; [assumption | intros; apply Hnlt; set_solver].
      * apply Forall_app. split; [assumption |].
        constructor; [| constructor]. apply Hnlt. set_solver.
  - intros i Hi. apply elem_of_app in Hi as [Hi | Hi].
    + specialize (Hnlt i Hi). lia.
    + apply list_elem_of_singleton in Hi. lia.
  - intros c Hc. destruct (Hroots c Hc) as (r & Hr & H1 & H2).
    exists r. split; [lia |]. split.
    + rewrite list_lookup_insert_ne by congruence. assumption.
    + intros i c' Hc'. destruct (decide (i = k)) as [-> | Hne].
      * rewrite list_lookup_insert_eq by assumption. intros [= <-]. lia.
      * rewrite list_lookup_insert_ne by congruence. apply H2. assumption.
  - intros s Hs. inversion Hs.
  - intros c q Hc Hcc Hq. left. apply elem_of_union in Hc as [Hc | Hc].
    + apply elem_of_singleton in Hc. congruence.
    + destruct (Hclosed c q Hc Hcc Hq) as [? | Hin]; [set_solver | inversion Hin].
  - intros i. destruct (decide (i = k)) as [-> | Hne].
    + intros _. split; [assumption |]. intros r Hr Hrk.
      apply Hnv. apply (Hreach r k); [apply Hbel; assumption | assumption].
    + rewrite list_lookup_insert_ne by congruence. apply Hunreach.
  - intros i a. destruct (decide (i = k)) as [-> | Hne].
    + rewrite list_lookup_insert_eq by assumption. intros [= <-]. lia.
    + rewrite list_lookup_insert_ne by congruence. intros Hi Ha.
      destruct (Hcr i a Hi Ha) as (r & Hri & Hreach' & Hr & Hmin).
      exists r. split; [assumption |]. split; [assumption |]. split.
      * rewrite list_lookup_insert_ne by congruence. assumption.
      * intros i'. destruct (decide (i' = k)) as [-> | Hne'].
        -- rewrite list_lookup_insert_eq by assumption. intros [= <-]. lia.
        -- rewrite list_lookup_insert_ne by congruence. apply Hmin.
  - intros Hsym x y Hx Hcx Hcy Hy. left.
    apply elem_of_union in Hx as [Hx | Hx];
      [apply elem_of_singleton in Hx; congruence |].
    destruct (Hlink Hsym x y Hx Hcx Hcy Hy) as [[Hyv Heq] | (_ & Hin & _)];
      [| inversion Hin].
    split; [set_solver |].
    rewrite !list_lookup_insert_ne by congruence. assumption.
  - intros i a. destruct (decide (i = k)) as [-> | Hne]; [congruence |].
    rewrite list_lookup_insert_ne by congruence. auto.
  - intros i Hi. apply elem_of_app. auto.
  - intros i Hi. set_solver.
Qed.

(** The scan root [k] is a core point: it opens cluster [cid], and its
    neighbours are the first seeds. *)
Lemma inv_start (k cid root : nat) (st : State) :
  Inv k cid root [] st -> k < N -> k ∉ visited st -> Core k = true ->
  let st' := assign k (Z.of_nat cid) (visited_add k st) in
  Inv (S k) (S cid) k (neighbors k) st' /\ stable st st'.
Proof.
  intros I Hk Hnv Hcore.
  pose proof (inv_unvisited_null _ _ _ _ _ _ I Hk Hnv) as Hnull.
  destruct I as [Hlen Hvlt Hva Hbel Hrng Hnz Hsort Hnlt Hroots Hpend Hclosed Hunreach Hcr Hlink].
  assert (Hklen : k < length (assignments st)) by lia.
  assert (Hmin_new : forall i,
            <[k:=Some (Z.of_nat cid)]> (assignments st) !! i
            = Some (Some (Z.of_nat (S cid) - 1)%Z) -> k <= i).
  { intros i. destruct (decide (i = k)) as [-> | Hne]; [lia |].
    rewrite list_lookup_insert_ne by congruence. intros Hi.
    destruct (Hrng i _ Hi); lia. }
  simpl. split; [split; simpl | split; simpl].
  - rewrite length_insert. assumption.
  - intros i Hi. apply elem_of_union in Hi as [Hi | Hi]; [| auto].
    apply elem_of_singleton in Hi. subst. assumption.
  - intros i Hi. destruct (decide (i = k)) as [-> | Hne].
    + rewrite list_lookup_insert_eq by assumption. split; [discriminate | set_solver].
    + rewrite list_lookup_insert_ne by congruence.
      rewrite <- (Hva i Hi). set_solver.
  - intros i Hi. destruct (decide (i = k)) as [-> | Hne]; [set_solver |].
    apply elem_of_union_r, Hbel. lia.
  - intros i a. destruct (decide (i = k)) as [-> | Hne].
    + rewrite list_lookup_insert_eq by assumption. intros [= <-]. right. lia.
    + rewrite list_lookup_insert_ne by congruence. intros H.
      destruct (Hrng i a H); [auto | right; lia].
  - intros i. destruct (decide (i = k)) as [-> | Hne].
    + rewrite list_lookup_insert_eq by assumption. rewrite Hnz, Hnull.
      split; intros [=]. lia.
    + rewrite list_lookup_insert_ne by congruence. apply Hnz.
  - assumption.
  - intros i Hi. specialize (Hnlt i Hi). lia.
  - intros c Hc. destruct (decide (c = cid)) as [-> | Hne].
    + exists k. split; [lia |]. split.
      * apply list_lookup_insert_eq. assumption.
      * intros i c' Hc'. destruct (decide (i = k)) as [-> | Hne]; [lia |].
        rewrite list_lookup_insert_ne by congruence. intros H.
        destruct (Hrng i c' H); lia.
    + destruct (Hroots c ltac:(lia)) as (r & Hr & H1 & H2).
      exists r. split; [lia |]. split.
      * rewrite list_lookup_insert_ne by congruence. assumption.
      * intros i c' Hc'. destruct (decide (i = k)) as [-> | Hne']; [lia |].
        rewrite list_lookup_insert_ne by congruence. apply H2. assumption.
  - intros s Hs. split; [| split; [| split; [lia | split]]].
    + apply elem_of_neighbors_of in Hs. tauto.
    + apply reach_step with k; [apply reach_root |..]; assumption.
    + rewrite list_lookup_insert_eq by assumption. do 2 f_equal. lia.
    + apply Hmin_new.
  - intros c q Hc Hcc Hq. apply elem_of_union in Hc as [Hc | Hc].
    + apply elem_of_singleton in Hc. subst. auto.
    + destruct (Hclosed c q Hc Hcc Hq) as [? | Hin]; [left; set_solver | inversion Hin].
  - intros i. destruct (decide (i = k)) as [-> | Hne].
    + rewrite list_lookup_insert_eq by assumption. intros [=]. lia.
    + rewrite list_lookup_insert_ne by congruence. apply Hunreach.
  - intros i a. destruct (decide (i = k)) as [-> | Hne].
    + rewrite list_lookup_insert_eq by assumption. intros [= <-] _.
      exists k. split; [lia |]. split; [apply reach_root; assumption |].
      split; [apply list_lookup_insert_eq; assumption |].
      intros i' Hi'. apply Hmin_new. rewrite Hi'. do 2 f_equal. lia.
    + rewrite list_lookup_insert_ne by congruence. intros Hi Ha.
      destruct (Hcr i a Hi Ha) as (r & Hri & Hreach' & Hr & Hmin).
      exists r. split; [assumption |]. split; [assumption |]. split.
      * rewrite list_lookup_insert_ne by congruence. assumption.
      * intros i'. destruct (decide (i' = k)) as [-> | Hne'].
        -- rewrite list_lookup_insert_eq by assumption. intros [= <-].
           destruct (Hrng i _ Hi); lia.
        -- rewrite list_lookup_insert_ne by congruence. apply Hmin.
  - intros Hsym x y Hx Hcx Hcy Hy.
    apply elem_of_union in Hx as [Hx | Hx].
    + apply elem_of_singleton in Hx. subst x.
      destruct (decide (y = k)) as [-> | Hyk]; [left; split; [set_solver | reflexivity] |].
      destruct (decide (y ∈ visited st)) as [Hyv | Hyv].
      * exfalso. apply elem_of_neighbors_of in Hy as [HyN Hnb].
        assert (Hk' : k ∈ neighbors y).
        { apply elem_of_neighbors_of. split; [assumption |].
          rewrite <- (Hsym k y Hk HyN). assumption. }
        destruct (Hlink Hsym y k Hyv Hcy Hcx Hk') as [[? _] | (_ & Hin & _)];
          [contradiction | inversion Hin].
      * right. split; [set_solver |]. split; [assumption |].
        rewrite list_lookup_insert_eq by assumption. do 2 f_equal. lia.
    + assert (x <> k) by (intros ->; contradiction).
      destruct (Hlink Hsym x y Hx Hcx Hcy Hy) as [[Hyv Heq] | (_ & Hin & _)];
        [| inversion Hin].
      assert (y <> k) by (intros ->; contradiction).
      left. split; [set_solver |].
      rewrite !list_lookup_insert_ne by congruence. assumption.
  - intros i a. destruct (decide (i = k)) as [-> | Hne]; [congruence |].
    rewrite list_lookup_insert_ne by congruence. auto.
  - auto.
  - intros i Hi. set_solver.
Qed.

(** A seed that was visited before is dropped: it has its assignment. *)
Lemma inv_expand_visited (k cid root p : nat) (seeds : list nat) (st : State) :
  Inv k cid root (p :: seeds) st -> p ∈ visited st -> Inv k cid root seeds st.
Proof.
  intros [Hlen Hvlt Hva Hbel Hrng Hnz Hsort Hnlt Hroots Hpend Hclosed Hunreach Hcr Hlink] Hp.
  split; auto.
  - intros s Hs. apply Hpend. set_solver.
  - intros c q Hc Hcc Hq. destruct (Hclosed c q Hc Hcc Hq) as [? | Hin]; [auto |].
    apply elem_of_cons in Hin as [-> | ?]; auto.
  - intros Hsym x y Hx Hcx Hcy Hy.
    destruct (Hlink Hsym x y Hx Hcx Hcy Hy) as [? | (Hyv & Hin & Heq)]; [auto |].
    right. split; [assumption |]. split; [| assumption].
    apply elem_of_cons in Hin as [-> | ?]; [contradiction | assumption].
Qed.

(** A seed met for the first time is visited and claimed by the cluster
    being expanded; when it is a core point, its neighbours not yet visited
    join the seeds. *)
Lemma inv_expand_fresh (cid root p : nat) (seeds : list nat) (st : State) :
  Inv (S root) (S cid) root (p :: seeds) st -> p ∉ visited st ->
  let st' := assign p (Z.of_nat cid) (visited_add p st) in
  let seeds' :=
    if Core p then seeds ++ filter (fun n => n ∉ visited st') (neighbors p) else seeds in
  Inv (S root) (S cid) root seeds' st' /\ stable st st'.
Proof.
  intros I Hnv.
  assert (Hp : p < N /\ Reach root p
               /\ assignments st !! root = Some (Some (Z.of_nat (S cid) - 1)%Z)
               /\ forall i, assignments st !! i = Some (Some (Z.of_nat (S cid) - 1)%Z) ->
                            root <= i).
  { destruct (inv_pending I p) as (? & ? & _ & ? & ?); [set_solver | auto]. }
  destruct Hp as (Hp & Hrp & Hroot & Hrootmin).
  pose proof (inv_unvisited_null _ _ _ _ _ _ I Hp Hnv) as Hnull.
  destruct I as [Hlen Hvlt Hva Hbel Hrng Hnz Hsort Hnlt Hroots Hpend Hclosed Hunreach Hcr Hlink].
  assert (Hplen : p < length (assignments st)) by lia.
  assert (Hrootp : S root <= p).
  { destruct (decide (p < S root)) as [Hlt |]; [| lia]. elim Hnv. auto. }
  assert (Hcur : (Z.of_nat (S cid) - 1)%Z = Z.of_nat cid) by lia.
  assert (Hroot' : <[p:=Some (Z.of_nat cid)]> (assignments st) !! root
                   = Some (Some (Z.of_nat (S cid) - 1)%Z)).
  { rewrite list_lookup_insert_ne by lia. assumption. }
  assert (Hrootmin' : forall i,
            <[p:=Some (Z.of_nat cid)]> (assignments st) !! i
            = Some (Some (Z.of_nat (S cid) - 1)%Z) -> root <= i).
  { intros i. destruct (decide (i = p)) as [-> | Hne]; [lia |].
    rewrite list_lookup_insert_ne by congruence. apply Hrootmin. }
  simpl. split; [split; simpl | split; simpl].
  - rewrite length_insert. assumption.
  - intros i Hi. apply elem_of_union in Hi as [Hi | Hi]; [| auto].
    apply elem_of_singleton in Hi. subst. assumption.
  - intros i Hi. destruct (decide (i = p)) as [-> | Hne].
    + rewrite list_lookup_insert_eq by assumption. split; [discriminate | set_solver].
    + rewrite list_lookup_insert_ne by congruence.
      rewrite <- (Hva i Hi). set_solver.
  - intros i Hi. apply elem_of_union_r, Hbel. assumption.
  - intros i a. destruct (decide (i = p)) as [-> | Hne].
    + rewrite list_lookup_insert_eq by assumption. intros [= <-]. right. lia.
    + rewrite list_lookup_insert_ne by congruence. apply Hrng.
  - intros i. destruct (decide (i = p)) as [-> | Hne].
    + rewrite list_lookup_insert_eq by assumption. rewrite Hnz, Hnull.
      split; intros [=]. lia.
    + rewrite list_lookup_insert_ne by congruence. apply Hnz.
  - assumption.
  - assumption.
  - intros c Hc. destruct (Hroots c Hc) as (r & Hr & H1 & H2).
    exists r. split; [lia |]. split.
    + rewrite list_lookup_insert_ne by (intros ->; congruence). assumption.
    + intros i c' Hc'. destruct (decide (i = p)) as [-> | Hne']; [lia |].
      rewrite list_lookup_insert_ne by congruence. apply H2. assumption.
  - intros s Hs.
    assert (Hcases : s ∈ seeds \/ Core p = true /\ s ∈ neighbors p).
    { destruct (Core p); [| auto]. apply elem_of_app in Hs as [? | Hs]; [auto |].
      apply list_elem_of_filter in Hs. tauto. }
    destruct Hcases as [Hs' | [Hc Hs']].
    + destruct (Hpend s) as (? & ? & ? & _); [set_solver |]. auto.
    + split; [| split; [| split; [lia | split; assumption]]].
      * apply elem_of_neighbors_of in Hs'. tauto.
      * apply reach_step with p; assumption.
  - intros c q Hc Hcc Hq. apply elem_of_union in Hc as [Hc | Hc].
    + apply elem_of_singleton in Hc. subst c. rewrite Hcc.
      destruct (decide (q ∈ {[p]} ∪ visited st)) as [? | Hn]; [auto |].
      right. apply elem_of_app. right. apply list_elem_of_filter. auto.
    + destruct (Hclosed c q Hc Hcc Hq) as [? | Hin]; [left; set_solver |].
      apply elem_of_cons in Hin as [-> | Hin]; [left; set_solver |].
      right. destruct (Core p); [apply elem_of_app |]; auto.
  - intros i. destruct (decide (i = p)) as [-> | Hne].
    + rewrite list_lookup_insert_eq by assumption. intros [=]. lia.
    + rewrite list_lookup_insert_ne by congruence. apply Hunreach.
  - intros i a. destruct (decide (i = p)) as [-> | Hne].
    + rewrite list_lookup_insert_eq by assumption. intros [= <-] _.
      exists root. split; [lia |]. split; [assumption |]. split.
      * rewrite Hroot'. do 2 f_equal. lia.
      * intros i' Hi'. apply Hrootmin'. rewrite Hi'. do 2 f_equal. lia.
    + rewrite list_lookup_insert_ne by congruence. intros Hi Ha.
      destruct (Hcr i a Hi Ha) as (r & Hri & Hreach' & Hr & Hmin).
      exists r. split; [assumption |]. split; [assumption |]. split.
      * rewrite list_lookup_insert_ne by congruence. assumption.
      * intros i'. destruct (decide (i' = p)) as [-> | Hne'].
        -- rewrite list_lookup_insert_eq by assumption. intros [= <-].
           rewrite <- Hcur in Hmin. specialize (Hmin root Hroot). lia.
        -- rewrite list_lookup_insert_ne by congruence. apply Hmin.
  - intros Hsym x y Hx Hcx Hcy Hy.
    assert (Hpush : forall z, z ∈ seeds -> z ∈
              (if Core p
               then seeds ++ filter (fun n => n ∉ {[p]} ∪ visited st) (neighbors p)
               else seeds)).
    { intros z Hz. destruct (Core p); [apply elem_of_app |]; auto. }
    apply elem_of_union in Hx as [Hx | Hx].
    + apply elem_of_singleton in Hx. subst x.
      destruct (decide (y = p)) as [-> | Hyp]; [left; split; [set_solver | reflexivity] |].
      destruct (decide (y ∈ visited st)) as [Hyv | Hyv].
      * left. split; [set_solver |].
        apply elem_of_neighbors_of in Hy as [HyN Hnb].
        assert (Hp' : p ∈ neighbors y).
        { apply elem_of_neighbors_of. split; [assumption |].
          rewrite <- (Hsym p y Hp HyN). assumption. }
        destruct (Hlink Hsym y p Hyv Hcy Hcx Hp') as [[? _] | (_ & _ & Heq)];
          [contradiction |].
        rewrite list_lookup_insert_eq by assumption.
        rewrite list_lookup_insert_ne by congruence.
        rewrite Heq. do 2 f_equal. lia.
      * right. split; [set_solver |]. split.
        -- rewrite Hcx. apply elem_of_app. right.
           apply list_elem_of_filter. split; [set_solver | assumption].
        -- rewrite list_lookup_insert_eq by assumption. do 2 f_equal. lia.
    + assert (x <> p) by (intros ->; contradiction).
      destruct (Hlink Hsym x y Hx Hcx Hcy Hy) as [[Hyv Heq] | (Hyv & Hin & Heq)].
      * assert (y <> p) by (intros ->; contradiction).
        left. split; [set_solver |].
        rewrite !list_lookup_insert_ne by congruence. assumption.
      * apply elem_of_cons in Hin as [-> | Hin].
        -- left. split; [set_solver |].
           rewrite list_lookup_insert_eq by assumption.
           rewrite list_lookup_insert_ne by congruence.
           rewrite Heq. do 2 f_equal. lia.
        -- destruct (decide (y = p)) as [-> | Hyp].
           ++ left. split; [set_solver |].
              rewrite list_lookup_insert_eq by assumption.
              rewrite list_lookup_insert_ne by congruence.
              rewrite Heq. do 2 f_equal. lia.
           ++ right. split; [set_solver |]. split; [apply Hpush; assumption |].
              rewrite list_lookup_insert_ne by congruence. assumption.
  - intros i a. destruct (decide (i = p)) as [-> | Hne]; [congruence |].
    rewrite list_lookup_insert_ne by congruence. auto.
  - auto.
  - intros i Hi. set_solver.
Qed.

(** *** The code makes these moves *)

Lemma row_present (p : nat) : p < N -> is_Some (similarityMatrix !! p).
Proof. intros. apply lookup_lt_is_Some. lia. Qed.

Lemma expandStep_visited (k cid' root cid p : nat) (seeds pending : list nat) (st : State) :
  Inv k cid' root pending st -> p ∈ visited st ->
  expandStep N similarityMatrix epsilon minPts cid p seeds st = Ok (st, seeds).
Proof.
  intros I Hp. unfold expandStep, visited_has.
  rewrite bool_decide_true by assumption. cbn [bind].
  rewrite (inv_visited_not_null _ _ _ _ _ _ I Hp). reflexivity.
Qed.

Lemma expandStep_fresh (k cid' root cid p : nat) (seeds pending : list nat) (st : State) :
  Inv k cid' root pending st -> p < N -> p ∉ visited st ->
  let st' := assign p (Z.of_nat cid) (visited_add p st) in
  expandStep N similarityMatrix epsilon minPts cid p seeds st
  = Ok (st', if Core p
             then seeds ++ filter (fun n => n ∉ visited st') (neighbors p)
             else seeds).
Proof.
  intros I Hp Hnv. unfold expandStep, visited_has.
  rewrite bool_decide_false by assumption.
  rewrite (getNeighbors_ok _ _ _ _ (row_present p Hp)). cbn [bind].
  fold (Core p).
  assert (Hnull : is_null p (visited_add p st) = true).
  { unfold is_null. simpl. rewrite (inv_unvisited_null _ _ _ _ _ _ I Hp Hnv). reflexivity. }
  destruct (Core p); cbn [bind]; rewrite Hnull; [| reflexivity].
  rewrite push_unvisited_filter. reflexivity.
Qed.

Lemma inv_size_visited (k cid root : nat) (pending : list nat) (st : State) :
  Inv k cid root pending st -> size (visited st) <= N.
Proof.
  intros I. rewrite <- (size_set_seq (C := gset nat) 0 N).
  apply subseteq_size. intros i Hi. apply elem_of_set_seq.
  pose proof (inv_vis_lt I i Hi). lia.
Qed.

(** [expandLoop] runs to the end within its fuel and keeps the invariant. *)
Lemma expandLoop_inv (cid root : nat) (fuel : nat) :
  forall (seeds : list nat) (st : State),
    Inv (S root) (S cid) root seeds st ->
    length seeds + N * (N - size (visited st)) <= fuel ->
    exists st',
      expandLoop N similarityMatrix epsilon minPts fuel cid seeds st = Ok st'
      /\ Inv (S root) (S cid) root [] st' /\ stable st st'.
Proof.
  induction fuel as [| fuel IH]; intros seeds st I Hfuel.
  - destruct seeds as [| p seeds].
    + exists st. simpl. auto using stable_refl.
    + exfalso. simpl in Hfuel. set (m := N * _) in Hfuel. lia.
  - destruct seeds as [| p seeds].
    { exists st. simpl. auto using stable_refl. }
    cbn [expandLoop]. simpl in Hfuel.
    destruct (decide (p ∈ visited st)) as [Hv | Hnv].
    + rewrite (expandStep_visited _ _ _ _ _ _ _ _ I Hv). cbn [bind].
      apply IH; [eapply inv_expand_visited; eassumption |].
      set (m := N * _) in *. lia.
    + destruct (inv_pending I p) as (Hp & _); [set_solver |].
      rewrite (expandStep_fresh _ _ _ _ _ _ _ _ I Hp Hnv). cbn [bind].
      destruct (inv_expand_fresh _ _ _ _ _ I Hnv) as [I' Hst].
      set (st' := assign p (Z.of_nat cid) (visited_add p st)) in *.
      set (seeds' := if Core p then _ else _) in *.
      destruct (IH seeds' st' I') as (st'' & Hrun & I'' & Hst').
      * pose proof (inv_size_visited _ _ _ _ _ I') as Hsz.
        assert (Hsize : size (visited st') = S (size (visited st))).
        { subst st'. simpl. rewrite size_union by set_solver.
          rewrite size_singleton. reflexivity. }
        assert (Hlen : length seeds' <= length seeds + N).
        { subst seeds'. destruct (Core p); [| lia].
          rewrite length_app.
          pose proof (length_filter (fun n => n ∉ visited st') (neighbors p)).
          pose proof (length_neighbors_of N similarityMatrix epsilon p). lia. }
        rewrite Hsize in *. nia.
      * exists st''. eauto using stable_trans.
Qed.

(** One turn of the scan loop keeps the invariant. *)
Lemma scanStep_inv (k cid root : nat) (st : State) :
  Inv k cid root [] st -> k < N ->
  exists st' cid',
    scanStep N similarityMatrix epsilon minPts k (st, cid) = Ok (st', cid')
    /\ Inv (S k) cid' 0 [] st' /\ stable st st' /\ cid <= cid'.
Proof.
  intros I Hk. unfold scanStep, visited_has.
  destruct (decide (k ∈ visited st)) as [Hv | Hnv].
  - rewrite bool_decide_true by assumption. exists st, cid.
    split; [reflexivity |]. split; [| auto using stable_refl].
    apply inv_root_irrelevant with root, inv_skip; assumption.
  - rewrite bool_decide_false by assumption.
    rewrite (getNeighbors_ok _ _ _ _ (row_present k Hk)). cbn [bind].
    rewrite Z.ltb_antisym. fold (enough minPts (neighbors k)).
    fold (Core k). destruct (Core k) eqn:Hcore; cbn [negb].
    + destruct (inv_start _ _ _ _ I Hk Hnv Hcore) as [I' Hst].
      unfold expandCluster.
      set (st' := assign k (Z.of_nat cid) (visited_add k st)) in *.
      destruct (expandLoop_inv cid k (expand_fuel N) (neighbors k) st' I')
        as (st'' & Hrun & I'' & Hst').
      * unfold expand_fuel.
        pose proof (length_neighbors_of N similarityMatrix epsilon k).
        assert (N * (N - size (visited st')) <= N * N) by (apply Nat.mul_le_mono_l; lia).
        lia.
      * rewrite Hrun. cbn [bind]. exists st'', (S cid).
        split; [reflexivity |]. split; [| split; [eauto using stable_trans | lia]].
        apply inv_root_irrelevant with k. assumption.
    + destruct (inv_noise_step _ _ _ _ I Hk Hnv Hcore) as [I' Hst].
      eexists _, cid. split; [reflexivity |].
      split; [| auto]. apply inv_root_irrelevant with root. assumption.
Qed.

(** Every prefix of the scan runs to its end, and the invariant holds there. *)
Lemma scan_upto_inv (k : nat) :
  k <= N ->
  exists st cid,
    scan_upto N similarityMatrix epsilon minPts k = Ok (st, cid)
    /\ Inv k cid 0 [] st.
Proof.
  unfold scan_upto. induction k as [| k IH]; intros Hk.
  - exists (init_state N), 0. split; [reflexivity | apply inv_init].
  - destruct IH as (st & cid & Hrun & I); [lia |].
    destruct (scanStep_inv _ _ _ _ I) as (st' & cid' & Hstep & I' & _); [lia |].
    exists st', cid'. rewrite for_upto_S, Hrun. cbn [bind]. auto.
Qed.

(** What a prefix of the scan wrote, the rest of the scan keeps. *)
Lemma scan_upto_stable (j k : nat) (stj stk : State) (cj ck : nat) :
  j <= k -> k <= N ->
  scan_upto N similarityMatrix epsilon minPts j = Ok (stj, cj) ->
  scan_upto N similarityMatrix epsilon minPts k = Ok (stk, ck) ->
  stable stj stk /\ cj <= ck.
Proof.
  intros Hjk. revert stk ck. induction Hjk as [| k Hjk IH]; intros stk ck Hk Hj Hrun.
  - rewrite Hj in Hrun. injection Hrun as <- <-. auto using stable_refl.
  - destruct (scan_upto_inv k) as (st & cid & Hrun' & I); [lia |].
    destruct (IH st cid) as [Hst Hc]; [lia | assumption | assumption |].
    destruct (scanStep_inv _ _ _ _ I) as (st' & cid' & Hstep & _ & Hst' & Hc'); [lia |].
    unfold scan_upto in *. rewrite for_upto_S, Hrun' in Hrun. cbn [bind] in Hrun.
    rewrite Hstep in Hrun. injection Hrun as <- <-.
    split; [eauto using stable_trans | lia].
Qed.

(** *** The whole run *)

(** [dbscan] on a matrix with [N] rows returns: cluster [c] holds, in
    ascending order, the indices the scan assigned to [c], and the noise
    array is the [noise] Set. *)
Lemma dbscanFromMatrix_spec :
  exists st cid,
    scan_upto N similarityMatrix epsilon minPts N = Ok (st, cid)
    /\ Inv N cid 0 [] st
    /\ dbscanFromMatrix N similarityMatrix epsilon minPts
       = Ok (mkResult ((fun c => members (assignments st) c N) <$> seq 0 cid) (noise st)).
Proof.
  destruct (scan_upto_inv N) as (st & cid & Hrun & I); [lia |].
  exists st, cid. split; [assumption |]. split; [assumption |].
  unfold dbscanFromMatrix. rewrite Hrun. cbn [bind].
  rewrite (inv_len I).
  rewrite (group_prefix (assignments st) cid N); [reflexivity |].
  intros i Hi.
  pose proof (inv_below I i Hi) as Hv.
  apply (inv_vis_asg I i Hi) in Hv.
  destruct (assignments st !! i) as [[a |] |] eqn:E.
  - exists a. split; [reflexivity |]. apply (inv_range I i a E).
  - congruence.
  - apply lookup_ge_None_1 in E. rewrite (inv_len I) in E. lia.
Qed.

End Run.

(** ** Reading a result *)

Lemma StronglySorted_lt_NoDup (l : list nat) : StronglySorted lt l -> NoDup l.
Proof.
  induction 1 as [| x l Hs IH Hx]; constructor; [| assumption].
  intros Hin. rewrite Forall_forall in Hx. specialize (Hx x Hin). lia.
Qed.

Lemma members_sorted (asg : list (option Z)) (c n : nat) :
  StronglySorted lt (members asg c n).
Proof.
  unfold members. generalize 0 as s. induction n as [| n IH]; intros s; simpl.
  - constructor.
  - rewrite filter_cons. destruct (decide _); [constructor |]; try apply IH.
    apply Forall_forall. intros j Hj.
    apply list_elem_of_filter in Hj as [_ Hj]. apply elem_of_seq in Hj. lia.
Qed.

(** The facts about a run that the properties below are read from: the
    final scan state satisfies the invariant, and the result lists it. *)
Lemma run_facts (N : nat) (sim : list (list float)) (eps : float) (minPts : Z) :
  length sim = N ->
  exists st cid r,
    scan_upto N sim eps minPts N = Ok (st, cid)
    /\ inv N sim eps minPts N cid 0 [] st
    /\ dbscanFromMatrix N sim eps minPts = Ok r
    /\ res_noise r = noise st
    /\ length (clusters r) = cid
    /\ (forall c, c < cid -> clusters r !! c = Some (members (assignments st) c N))
    /\ (forall c i, in_cluster r c i
                    <-> i < N /\ assignments st !! i = Some (Some (Z.of_nat c))).
Proof.
  intros Hrows.
  destruct (dbscanFromMatrix_spec N sim eps minPts Hrows) as (st & cid & Hscan & I & Hrun).
  exists st, cid, (mkResult ((fun c => members (assignments st) c N) <$> seq 0 cid) (noise st)).
  assert (Hcl : forall c, c < cid ->
            ((fun c => members (assignments st) c N) <$> seq 0 cid) !! c
            = Some (members (assignments st) c N)).
  { intros c Hc. rewrite list_lookup_fmap.
    rewrite (proj2 (lookup_seq 0 cid c c)) by (split; [reflexivity | assumption]).
    reflexivity. }
  assert (Hlt : forall c cl,
            ((fun c => members (assignments st) c N) <$> seq 0 cid) !! c = Some cl ->
            c < cid).
  { intros c cl Hc. apply lookup_lt_Some in Hc.
    rewrite length_fmap, length_seq in Hc. assumption. }
  split; [assumption |]. split; [assumption |]. split; [assumption |].
  split; [reflexivity |]. simpl.
  split; [rewrite length_fmap, length_seq; reflexivity |].
  split; [assumption |].
  intros c i. split.
  - intros (cl & Hc & Hi). simpl in Hc.
    pose proof (Hlt _ _ Hc).
    rewrite Hcl in Hc by assumption. injection Hc as <-.
    apply elem_of_members in Hi. assumption.
  - intros [Hi Hasg].
    assert (c < cid).
    { destruct (inv_range I i _ Hasg); lia. }
    exists (members (assignments st) c N). simpl. split; [auto |].
    apply elem_of_members. auto.
Qed.

(** The noise array, read off the matrix: an index is noise exactly when it
    is no core point and no core point with a smaller index reaches it. *)
Lemma noise_characterization (N : nat) (sim : list (list float)) (eps : float)
  (minPts : Z) :
  length sim = N ->
  exists r,
    dbscanFromMatrix N sim eps minPts = Ok r
    /\ forall i, i ∈ res_noise r <->
                 i < N /\ core N sim eps minPts i = false
                 /\ forall root, root < i -> ~ reach N sim eps minPts root i.
Proof.
  intros Hrows.
  destruct (run_facts N sim eps minPts Hrows)
    as (st & cid & r & Hscan & I & Hrun & Hnoise & Hlen & Hcl & Hin).
  exists r. split; [assumption |]. rewrite Hnoise. intros i. split.
  - intros Hi. split; [apply (inv_noise_lt I); assumption |].
    apply (inv_noise_unreach I), (inv_noise I), Hi.
  - intros (Hi & Hcore & Hreach).
    pose proof (inv_below I i Hi) as Hv. apply (inv_vis_asg I i Hi) in Hv.
    destruct (assignments st !! i) as [[a |] |] eqn:E.
    + destruct (inv_range I i a E) as [-> | Ha]; [apply (inv_noise I); assumption |].
      exfalso. destruct (inv_clustered_reach I i a E) as (root & Hle & Hr & _); [lia |].
      destruct (decide (root = i)) as [-> | Hne].
      * apply reach_core in Hr. congruence.
      * apply (Hreach root); [lia | assumption].
    + congruence.
    + apply lookup_ge_None_1 in E. rewrite (inv_len I) in E. lia.
Qed.

(** ** Numbers: order and product *)

(** The comparison of the specification floats is a lexicographic order on
    sign, exponent and mantissa, hence transitive; NaN compares with nothing. *)
Lemma SFltb_SFleb_trans (a b c : spec_float) :
  SFltb a b = true -> SFleb b c = true -> SFleb a c = true.
Proof.
  unfold SFltb, SFleb.
  destruct a as [[] | [] | | [] ma ea], b as [[] | [] | | [] mb eb],
           c as [[] | [] | | [] mc ec];
    simpl; try congruence;
    change (Pos.compare_cont Eq) with Pos.compare;
    repeat match goal with
           | |- context [Z.compare ?x ?y] => destruct (Z.compare_spec x y); simpl
           | |- context [Pos.compare ?x ?y] => destruct (Pos.compare_spec x y); simpl
           end; try congruence; try lia.
Qed.

(** [x >= t] and [t' < t] give [x >= t']. *)
Lemma js_ge_lower (x t t' : float) :
  js_ge x t = true -> PrimFloat.ltb t' t = true -> js_ge x t' = true.
Proof.
  unfold js_ge. rewrite !leb_spec, ltb_spec. intros H1 H2.
  eapply SFltb_SFleb_trans; eassumption.
Qed.

Lemma SF64mul_comm (a b : spec_float) : SF64mul a b = SF64mul b a.
Proof.
  unfold SF64mul, SFmul.
  destruct a as [sa | sa | | sa ma ea], b as [sb | sb | | sb mb eb];
    try reflexivity; rewrite (xorb_comm sa sb); try reflexivity.
  rewrite Pos.mul_comm, Z.add_comm. reflexivity.
Qed.

Lemma float_mul_comm (a b : float) : (a * b = b * a)%float.
Proof. apply Prim2SF_inj. rewrite !mul_spec. apply SF64mul_comm. Qed.

(** ** The neighbour set (C4) *)

Lemma neighbors_of_sorted (N : nat) (sim : list (list float)) (eps : float) (p : nat) :
  StronglySorted lt (neighbors_of N sim eps p).
Proof.
  unfold neighbors_of. generalize 0 as s. induction N as [| n IH]; intros s; simpl.
  - constructor.
  - rewrite filter_cons. destruct (decide _); [constructor |]; try apply IH.
    apply Forall_forall. intros j Hj.
    apply list_elem_of_filter in Hj as [_ Hj]. apply elem_of_seq in Hj. lia.
Qed.

(** C4.  For a row index [i] of an N x N matrix, [getNeighborsFromMatrix (i)]
    returns the indices [j < N] with [similarityMatrix[i][j] >= epsilon], each
    once and in ascending order; when the diagonal cell passes the threshold,
    [i] is among them, so the length that is compared with [minPts] counts
    [i] itself (and is enough for [minPts = 1]). *)
Theorem getNeighborsFromMatrix_exact (N : nat) (sim : list (list float))
  (eps : float) (i : nat) :
  square N sim -> i < N ->
  exists nb,
    getNeighborsFromMatrix N sim eps i = Ok nb
    /\ (forall j, j ∈ nb <->
                  j < N /\ exists row x, sim !! i = Some row /\ row !! j = Some x
                                         /\ js_ge x eps = true)
    /\ StronglySorted lt nb
    /\ (forall row x, sim !! i = Some row -> row !! i = Some x -> js_ge x eps = true ->
                      i ∈ nb /\ 1 <= length nb /\ enough 1 nb = true).
Proof.
  intros [Hrows _] Hi. exists (neighbors_of N sim eps i).
  assert (Hmem : forall j, j ∈ neighbors_of N sim eps i <->
            j < N /\ exists row x, sim !! i = Some row /\ row !! j = Some x
                                   /\ js_ge x eps = true).
  { intros j. rewrite elem_of_neighbors_of. unfold is_neighbor.
    split.
    - intros [Hj H]. split; [assumption |].
      destruct (sim !! i) as [row |]; [| discriminate].
      destruct (row !! j) as [x |] eqn:Hx; [| discriminate]. eauto.
    - intros [Hj (row & x & Hrow & Hx & H)]. rewrite Hrow, Hx. auto. }
  split; [| split; [| split]].
  - apply getNeighbors_ok. apply lookup_lt_is_Some. lia.
  - exact Hmem.
  - apply neighbors_of_sorted.
  - intros row x Hrow Hx Hge.
    assert (Hin : i ∈ neighbors_of N sim eps i) by (apply Hmem; eauto 6).
    split; [assumption |].
    assert (1 <= length (neighbors_of N sim eps i)).
    { destruct (neighbors_of N sim eps i); [inversion Hin | simpl; lia]. }
    split; [assumption |]. unfold enough. apply Z.leb_le. lia.
Qed.

Lemma square_chain3 : square 3 chain3.
Proof. split; [reflexivity | repeat constructor]. Qed.

Lemma getNeighborsFromMatrix_exact_witness :
  exists nb,
    getNeighborsFromMatrix 3 chain3 0.85 1 = Ok nb
    /\ (forall j, j ∈ nb <->
                  j < 3 /\ exists row x, chain3 !! 1 = Some row /\ row !! j = Some x
                                         /\ js_ge x 0.85 = true)
    /\ StronglySorted lt nb
    /\ (forall row x, chain3 !! 1 = Some row -> row !! 1 = Some x -> js_ge x 0.85 = true ->
                      1 ∈ nb /\ 1 <= length nb /\ enough 1 nb = true).
Proof.
  apply (getNeighborsFromMatrix_exact 3 chain3 0.85 1 square_chain3). lia.
Defined.

(** ** The partition (C2) *)

(** C2.  On an N x N matrix, for every threshold and every [minPts] (so in
    particular for [minPts >= 1]), [dbscan] returns, and in what it returns:
    every index below [N] is in the noise array or in a cluster, never in
    both and never in two clusters; nothing else is listed, and nothing is
    listed twice; no cluster is empty; and the noise array holds exactly
    the indices whose cell of [assignments] never held a cluster id, at
    whatever turn of the scan loop one looks. *)
Theorem dbscan_partition (N : nat) (sim : list (list float)) (eps : float)
  (minPts : Z) :
  square N sim ->
  exists r,
    dbscanFromMatrix N sim eps minPts = Ok r
    /\ (forall i, i < N -> i ∈ res_noise r \/ exists c, in_cluster r c i)
    /\ (forall i c, in_cluster r c i -> i ∉ res_noise r)
    /\ (forall i c c', in_cluster r c i -> in_cluster r c' i -> c = c')
    /\ (forall i, i ∈ res_noise r -> i < N)
    /\ (forall i c, in_cluster r c i -> i < N)
    /\ NoDup (res_noise r)
    /\ (forall cl, cl ∈ clusters r -> NoDup cl)
    /\ (forall cl, cl ∈ clusters r -> cl <> [])
    /\ (forall i, i ∈ res_noise r <->
          i < N /\ forall k st cid c,
                     k <= N -> scan_upto N sim eps minPts k = Ok (st, cid) ->
                     assignments st !! i = Some (Some c) -> (c < 0)%Z).
Proof.
  intros [Hrows _].
  destruct (run_facts N sim eps minPts Hrows)
    as (st & cid & r & Hscan & I & Hrun & Hnoise & Hlen & Hcl & Hin).
  exists r. split; [assumption |]. rewrite Hnoise.
  assert (Hfinal : forall i, i < N -> exists a, assignments st !! i = Some (Some a)
                     /\ (a = (-1)%Z \/ (0 <= a < Z.of_nat cid)%Z)).
  { intros i Hi. pose proof (inv_below I i Hi) as Hv.
    apply (inv_vis_asg I i Hi) in Hv.
    destruct (assignments st !! i) as [[a |] |] eqn:E.
    - exists a. split; [reflexivity |]. apply (inv_range I i a E).
    - congruence.
    - apply lookup_ge_None_1 in E. rewrite (inv_len I) in E. lia. }
  assert (Hlist : forall cl, cl ∈ clusters r ->
                    exists c, c < cid /\ cl = members (assignments st) c N).
  { intros cl Hcl'. apply list_elem_of_lookup in Hcl' as [c Hc].
    pose proof (lookup_lt_Some _ _ _ Hc) as Hlt. rewrite Hlen in Hlt.
    rewrite (Hcl c Hlt) in Hc. injection Hc as <-. eauto. }
  repeat apply conj.
  - intros i Hi. destruct (Hfinal i Hi) as (a & Ha & [-> | Hrange]).
    + left. apply (inv_noise I). assumption.
    + right. exists (Z.to_nat a). apply Hin. split; [assumption |].
      rewrite Ha. do 2 f_equal. lia.
  - intros i c Hc Hn. apply Hin in Hc as [_ Hc]. apply (inv_noise I) in Hn.
    rewrite Hc in Hn. injection Hn as Hn. lia.
  - intros i c c' Hc Hc'. apply Hin in Hc as [_ Hc]. apply Hin in Hc' as [_ Hc'].
    rewrite Hc in Hc'. injection Hc' as Hc'. lia.
  - apply (inv_noise_lt I).
  - intros i c Hc. apply Hin in Hc. tauto.
  - apply StronglySorted_lt_NoDup, (inv_noise_sorted I).
  - intros cl Hcl'. destruct (Hlist cl Hcl') as (c & _ & ->).
    apply StronglySorted_lt_NoDup, members_sorted.
  - intros cl Hcl'. destruct (Hlist cl Hcl') as (c & Hc & ->).
    destruct (inv_roots I c Hc) as (root & Hroot & Hasg & _).
    intros Hnil.
    assert (Hm : root ∈ members (assignments st) c N) by (apply elem_of_members; auto).
    rewrite Hnil in Hm. inversion Hm.
  - intros i. split.
    + intros Hn. split; [apply (inv_noise_lt I); assumption |].
      intros k st' cid' c Hk Hscan' Hc.
      destruct (scan_upto_stable N sim eps minPts Hrows k N st' st cid' cid Hk (le_n N)
                  Hscan' Hscan) as [Hst _].
      apply (stable_asg _ _ Hst) in Hc. apply (inv_noise I) in Hn.
      rewrite Hc in Hn. injection Hn as ->. lia.
    + intros [Hi Hnever]. destruct (Hfinal i Hi) as (a & Ha & [-> | Hrange]).
      * apply (inv_noise I). assumption.
      * specialize (Hnever N st cid a (le_n N) Hscan Ha). lia.
Qed.

Lemma dbscan_partition_witness :
  exists r,
    dbscanFromMatrix 3 chain3 0.85 2 = Ok r
    /\ (forall i, i < 3 -> i ∈ res_noise r \/ exists c, in_cluster r c i)
    /\ (forall i c, in_cluster r c i -> i ∉ res_noise r)
    /\ (forall i c c', in_cluster r c i -> in_cluster r c' i -> c = c')
    /\ (forall i, i ∈ res_noise r -> i < 3)
    /\ (forall i c, in_cluster r c i -> i < 3)
    /\ NoDup (res_noise r)
    /\ (forall cl, cl ∈ clusters r -> NoDup cl)
    /\ (forall cl, cl ∈ clusters r -> cl <> [])
    /\ (forall i, i ∈ res_noise r <->
          i < 3 /\ forall k st cid c,
                     k <= 3 -> scan_upto 3 chain3 0.85 2 k = Ok (st, cid) ->
                     assignments st !! i = Some (Some c) -> (c < 0)%Z).
Proof. exact (dbscan_partition 3 chain3 0.85 2 square_chain3). Defined.

(** At the end of the scan every cell holds [-1] or a cluster id. *)
Lemma inv_final_cell (N : nat) (sim : list (list float)) (eps : float) (minPts : Z)
  (cid root : nat) (pending : list nat) (st : State) (i : nat) :
  inv N sim eps minPts N cid root pending st -> i < N ->
  exists a, assignments st !! i = Some (Some a)
            /\ (a = (-1)%Z \/ (0 <= a < Z.of_nat cid)%Z).
Proof.
  intros I Hi. pose proof (inv_below I i Hi) as Hv.
  apply (inv_vis_asg I i Hi) in Hv.
  destruct (assignments st !! i) as [[a |] |] eqn:E.
  - exists a. split; [reflexivity |]. apply (inv_range I i a E).
  - congruence.
  - apply lookup_ge_None_1 in E. rewrite (inv_len I) in E. lia.
Qed.

(** ** [minPts = 1] (C8) *)

(** C8.  When every diagonal cell of an N x N matrix passes the threshold,
    every point is a core point for [minPts = 1]; [dbscan] then returns an
    empty noise array, and every index below [N] is in exactly one cluster. *)
Theorem dbscan_minPts_one (N : nat) (sim : list (list float)) (eps : float) :
  square N sim ->
  (forall i row x, sim !! i = Some row -> row !! i = Some x -> js_ge x eps = true) ->
  exists r,
    dbscanFromMatrix N sim eps 1 = Ok r
    /\ (forall i, i < N -> core N sim eps 1 i = true)
    /\ res_noise r = []
    /\ (forall i, i < N ->
          exists c, in_cluster r c i /\ forall c', in_cluster r c' i -> c' = c).
Proof.
  intros [Hrows Hcols] Hdiag.
  destruct (run_facts N sim eps 1 Hrows)
    as (st & cid & r & Hscan & I & Hrun & Hnoise & Hlen & Hcl & Hin).
  assert (Hcore : forall i, i < N -> core N sim eps 1 i = true).
  { intros i Hi.
    destruct (lookup_lt_is_Some_2 sim i) as [row Hrow]; [lia |].
    assert (Hlenrow : length row = N).
    { rewrite Forall_forall in Hcols. apply Hcols.
      apply list_elem_of_lookup. eauto. }
    destruct (lookup_lt_is_Some_2 row i) as [x Hx]; [lia |].
    assert (Hi' : i ∈ neighbors_of N sim eps i).
    { apply elem_of_neighbors_of. split; [assumption |].
      unfold is_neighbor. rewrite Hrow, Hx. eauto. }
    unfold core, enough. apply Z.leb_le.
    destruct (neighbors_of N sim eps i); [inversion Hi' | simpl; lia]. }
  assert (Hempty : noise st = []).
  { destruct (noise st) as [| i l] eqn:E; [reflexivity |].
    assert (Hi : i ∈ noise st) by (rewrite E; left).
    pose proof (inv_noise_lt I i Hi) as Hlt.
    apply (inv_noise I) in Hi. apply (inv_noise_unreach I) in Hi as [Hi _].
    rewrite (Hcore i Hlt) in Hi. discriminate. }
  exists r. split; [assumption |]. split; [assumption |].
  split; [congruence |].
  intros i Hi. destruct (inv_final_cell _ _ _ _ _ _ _ _ i I Hi) as (a & Ha & [-> | Hrange]).
  - apply (inv_noise I) in Ha. rewrite Hempty in Ha. inversion Ha.
  - exists (Z.to_nat a). split.
    + apply Hin. split; [assumption |]. rewrite Ha. do 2 f_equal. lia.
    + intros c' Hc'. apply Hin in Hc' as [_ Hc']. rewrite Ha in Hc'.
      injection Hc' as ->. lia.
Qed.

Lemma dbscan_minPts_one_witness :
  exists r,
    dbscanFromMatrix 3 chain3 0.85 1 = Ok r
    /\ (forall i, i < 3 -> core 3 chain3 0.85 1 i = true)
    /\ res_noise r = []
    /\ (forall i, i < 3 ->
          exists c, in_cluster r c i /\ forall c', in_cluster r c' i -> c' = c).
Proof.
  apply (dbscan_minPts_one 3 chain3 0.85 square_chain3).
  intros [| [| [| i]]] row x Hrow Hx; vm_compute in Hrow;
    [simplify_eq; vm_compute in Hx; simplify_eq; reflexivity ..
    | discriminate Hrow].
Defined.

(** ** The chain of three points (C9) *)

(** C9.  Take a 3 x 3 matrix with ones on the diagonal, the four cells
    between 0 and 1 and between 1 and 2 at or above 0.85 (as 0.9 is) and the
    two cells between 0 and 2 below it (as 0.3 is).  With threshold 0.85 and
    [minPts = 2], point 2 is no neighbour of point 0, and [dbscan] returns
    the single cluster [0; 1; 2] and no noise. *)
Theorem dbscan_chain (s01 s10 s12 s21 s02 s20 : float) :
  js_ge s01 0.85 = true -> js_ge s10 0.85 = true ->
  js_ge s12 0.85 = true -> js_ge s21 0.85 = true ->
  js_ge s02 0.85 = false -> js_ge s20 0.85 = false ->
  let sim := [ [1; s01; s02]; [s10; 1; s12]; [s20; s21; 1] ]%float in
  getNeighborsFromMatrix 3 sim 0.85 0 = Ok [0; 1]
  /\ dbscanFromMatrix 3 sim 0.85 2 = Ok (mkResult [[0; 1; 2]] []).
Proof.
  intros H01 H10 H12 H21 H02 H20 sim.
  assert (Hnb : forall p, getNeighborsFromMatrix 3 sim 0.85 p
                          = getNeighborsFromMatrix 3 chain3 0.85 p).
  { subst sim. unfold js_ge in *. intros [| [| [| p]]].
    - vm_compute. rewrite H01, H02. reflexivity.
    - vm_compute. rewrite H10, H12. reflexivity.
    - vm_compute. rewrite H20, H21. reflexivity.
    - reflexivity. }
  split.
  - rewrite Hnb. vm_compute. reflexivity.
  - rewrite (dbscanFromMatrix_ext 3 sim chain3 0.85 0.85 2 Hnb).
    vm_compute. reflexivity.
Qed.

Lemma dbscan_chain_witness :
  getNeighborsFromMatrix 3 chain3 0.85 0 = Ok [0; 1]
  /\ dbscanFromMatrix 3 chain3 0.85 2 = Ok (mkResult [[0; 1; 2]] []).
Proof.
  apply (dbscan_chain 0.9 0.9 0.9 0.9 0.3 0.3); reflexivity.
Defined.

(** ** The accelerated attempt and its fallback (C5) *)

(** C5.  Whatever the WebGPU host does: when the accelerated attempt throws,
    whatever it throws, [computeDistanceMatrix] returns the matrix of
    [computeDistanceMatrixCPU]; it never throws itself; and it returns the
    matrix of [computeDistanceMatrixCPU] as well when [useGPU] is false or
    [navigator] has no [gpu]. *)
Theorem computeDistanceMatrix_fallback (nav : Navigator)
  (points : list (list float)) (useGPU : bool) :
  (forall gpu e, nav_gpu nav = Some gpu -> gpuAttempt gpu points = Throw e ->
                 computeDistanceMatrix nav points true
                 = Ok (computeDistanceMatrixCPU points))
  /\ (forall e, computeDistanceMatrix nav points useGPU <> Throw e)
  /\ (useGPU = false \/ nav_gpu nav = None ->
      computeDistanceMatrix nav points useGPU = Ok (computeDistanceMatrixCPU points)).
Proof.
  unfold computeDistanceMatrix. split; [| split].
  - intros gpu e -> ->. reflexivity.
  - intros e. destruct useGPU; [| discriminate].
    destruct (nav_gpu nav) as [gpu |]; [| discriminate].
    destruct (gpuAttempt gpu points); discriminate.
  - intros [-> | ->]; [reflexivity |]. destruct useGPU; reflexivity.
Qed.

(** The failures the code names: no adapter, no device, a failing device. *)
Lemma gpuAttempt_failures (gpu : Gpu) (points : list (list float)) :
  (forall e, requestAdapter gpu = inl e -> gpuAttempt gpu points = Throw e)
  /\ (requestAdapter gpu = inr None ->
      gpuAttempt gpu points = Throw (Error "No GPU adapter found"))
  /\ (forall adapter e, requestAdapter gpu = inr (Some adapter) ->
        requestDevice adapter = inl e -> gpuAttempt gpu points = Throw e)
  /\ (forall adapter device e p0 rest,
        requestAdapter gpu = inr (Some adapter) ->
        requestDevice adapter = inr device ->
        points = p0 :: rest ->
        runKernel device (length points) (length p0) (concat points) = inl e ->
        gpuAttempt gpu points = Throw e).
Proof.
  unfold gpuAttempt. repeat split.
  - intros e ->. reflexivity.
  - intros ->. reflexivity.
  - intros adapter e H1 H2. rewrite H1. cbn [await bind]. rewrite H2. reflexivity.
  - intros adapter device e p0 rest H1 H2 -> H. rewrite H1. cbn [await bind].
    rewrite H2. cbn [await bind]. rewrite H. reflexivity.
Qed.

(** ** The empty input (C10) *)

(** C10.  On no points at all [dbscan] returns, whatever the threshold,
    [minPts], [useGPU] and the host: no cluster and no noise.  (With a GPU
    the accelerated attempt throws on [points[0].length] at the latest, and
    the fallback yields the empty matrix.) *)
Theorem dbscan_empty (nav : Navigator) (eps : float) (minPts : Z) (useGPU : bool) :
  dbscan nav [] eps minPts useGPU = Ok (mkResult [] []).
Proof.
  unfold dbscan, computeDistanceMatrix.
  destruct useGPU; [| reflexivity].
  destruct (nav_gpu nav) as [gpu |]; [| reflexivity].
  unfold gpuAttempt.
  destruct (requestAdapter gpu) as [e | [adapter |]]; [reflexivity | | reflexivity].
  cbn [await bind]. destruct (requestDevice adapter); reflexivity.
Qed.

(** ** The sequential similarity matrix (C6) *)

Lemma set_entry_square (N : nat) (m : list (list float)) (i j : nat) (v : float) :
  square N m -> square N (set_entry m i j v).
Proof.
  intros [Hlen Hrows]. unfold set_entry.
  destruct (m !! i) as [row |] eqn:Hrow; [| split; assumption].
  split; [rewrite length_insert; assumption |].
  apply Forall_insert; [assumption |]. rewrite length_insert.
  rewrite Forall_forall in Hrows. apply Hrows. apply list_elem_of_lookup. eauto.
Qed.

Lemma entry_is_Some (N : nat) (m : list (list float)) (i j : nat) :
  square N m -> i < N -> j < N -> is_Some (entry m i j).
Proof.
  intros [Hlen Hrows] Hi Hj. unfold entry.
  destruct (lookup_lt_is_Some_2 m i) as [row Hrow]; [lia |]. rewrite Hrow.
  apply lookup_lt_is_Some. rewrite Forall_forall in Hrows.
  rewrite (Hrows row); [assumption |]. apply list_elem_of_lookup. eauto.
Qed.

Lemma entry_set_entry_eq (N : nat) (m : list (list float)) (i j : nat) (v : float) :
  square N m -> i < N -> j < N -> entry (set_entry m i j v) i j = Some v.
Proof.
  intros [Hlen Hrows] Hi Hj. unfold set_entry, entry.
  destruct (lookup_lt_is_Some_2 m i) as [row Hrow]; [lia |]. rewrite Hrow.
  rewrite list_lookup_insert_eq by lia.
  apply list_lookup_insert_eq. rewrite Forall_forall in Hrows.
  rewrite (Hrows row); [assumption |]. apply list_elem_of_lookup. eauto.
Qed.

Lemma entry_set_entry_ne (m : list (list float)) (i j i' j' : nat) (v : float) :
  (i, j) <> (i', j') -> entry (set_entry m i j v) i' j' = entry m i' j'.
Proof.
  intros Hne. unfold set_entry, entry.
  destruct (m !! i) as [row |] eqn:Hrow; [| reflexivity].
  destruct (decide (i = i')) as [<- | Hi].
  - rewrite list_lookup_insert_eq by (apply lookup_lt_Some in Hrow; assumption).
    rewrite Hrow. apply list_lookup_insert_ne. congruence.
  - rewrite list_lookup_insert_ne by assumption. reflexivity.
Qed.

Section Fill.

Variable N : nat.
Variable f : nat -> nat -> float.

(** The inner loop, stopped after [b] columns of row [i]. *)
Lemma fill_row (m : list (list float)) (i b : nat) :
  square N m -> i < N -> b <= N ->
  square N (fold_left (fun m' j => set_entry m' i j (f i j)) (seq 0 b) m)
  /\ forall i' j',
      entry (fold_left (fun m' j => set_entry m' i j (f i j)) (seq 0 b) m) i' j'
      = if decide (i' = i /\ j' < b) then Some (f i j') else entry m i' j'.
Proof.
  intros Hsq Hi. induction b as [| b IH]; intros Hb.
  - simpl. split; [assumption |]. intros i' j'.
    destruct (decide _) as [[_ ?] |]; [lia | reflexivity].
  - destruct IH as [Hsq' Hent]; [lia |].
    rewrite seq_S, fold_left_app. cbn [fold_left Nat.add].
    split; [apply set_entry_square; assumption |].
    intros i' j'. destruct (decide ((i, b) = (i', j'))) as [[= <- <-] | Hne].
    + rewrite (entry_set_entry_eq N) by (assumption || lia).
      rewrite decide_True by lia. reflexivity.
    + rewrite entry_set_entry_ne by assumption. rewrite Hent.
      destruct (decide (i' = i /\ j' < b)) as [[-> ?] | Hn].
      * rewrite decide_True by lia. reflexivity.
      * rewrite decide_False; [reflexivity |]. intros [-> ?].
        destruct (decide (j' = b)) as [-> |]; [congruence | apply Hn; lia].
Qed.

(** The outer loop, stopped after [a] rows. *)
Lemma fill_rows (m : list (list float)) (a : nat) :
  square N m -> a <= N ->
  square N (fold_left
              (fun m i => fold_left (fun m' j => set_entry m' i j (f i j)) (seq 0 N) m)
              (seq 0 a) m)
  /\ forall i' j', j' < N ->
      entry (fold_left
               (fun m i => fold_left (fun m' j => set_entry m' i j (f i j)) (seq 0 N) m)
               (seq 0 a) m) i' j'
      = if decide (i' < a) then Some (f i' j') else entry m i' j'.
Proof.
  intros Hsq. induction a as [| a IH]; intros Ha.
  - simpl. split; [assumption |]. intros i' j' _.
    destruct (decide (i' < 0)); [lia | reflexivity].
  - destruct IH as [Hsq' Hent]; [lia |].
    rewrite seq_S, fold_left_app. cbn [fold_left Nat.add].
    destruct (fill_row _ a N Hsq') as [Hsq'' Hent']; [lia | lia |].
    split; [assumption |]. intros i' j' Hj'. rewrite Hent', Hent by assumption.
    destruct (decide (i' = a /\ j' < N)) as [[-> _] | Hn].
    + rewrite decide_True by lia. reflexivity.
    + destruct (decide (i' < a)).
      * rewrite decide_True by lia. reflexivity.
      * rewrite decide_False by lia. reflexivity.
Qed.

End Fill.

Lemma square_zeros (N : nat) : square N (replicate N (replicate N 0%float)).
Proof.
  split; [apply length_replicate |].
  apply Forall_replicate. apply length_replicate.
Qed.

(** The matrix of [computeDistanceMatrixCPU] is N x N and its cell [(i, j)]
    is [vectorSimilarity (points[i], points[j])]. *)
Lemma computeDistanceMatrixCPU_entries (points : list (list float)) :
  square (length points) (computeDistanceMatrixCPU points)
  /\ forall i j p q, points !! i = Some p -> points !! j = Some q ->
       entry (computeDistanceMatrixCPU points) i j = Some (vectorSimilarity p q).
Proof.
  unfold computeDistanceMatrixCPU.
  destruct (fill_rows (length points)
              (fun i j => vectorSimilarity (point_at points i) (point_at points j))
              (replicate (length points) (replicate (length points) 0%float))
              (length points) (square_zeros _) (le_n _)) as [Hsq Hent].
  split; [exact Hsq |].
  intros i j p q Hp Hq.
  pose proof (lookup_lt_Some _ _ _ Hp). pose proof (lookup_lt_Some _ _ _ Hq).
  rewrite Hent by assumption. rewrite decide_True by assumption.
  unfold point_at. rewrite Hp, Hq. reflexivity.
Qed.

(** Vectors of one length have the same dot product in both orders. *)
Lemma vectorSimilarity_comm (p q : list float) :
  length p = length q -> vectorSimilarity p q = vectorSimilarity q p.
Proof.
  intros Hlen. unfold vectorSimilarity. rewrite <- Hlen.
  generalize (seq 0 (length p)) 0%float. intros l.
  induction l as [| k l IH]; intros acc; simpl; [reflexivity |].
  rewrite (float_mul_comm (num_at p k) (num_at q k)). apply IH.
Qed.



(** Without a common dimension the matrix need not be symmetric: a missing
    coordinate is [undefined], and the sum becomes NaN on one side only. *)
Lemma computeDistanceMatrixCPU_ragged :
  computeDistanceMatrixCPU ragged2 = [ [1; 1]; [nan; 5] ]%float.
Proof. vm_compute. reflexivity. Qed.

(** ** Noise labels (C1) *)





(** ** Lowering the threshold (C3) *)

Lemma is_neighbor_entry (sim : list (list float)) (eps : float) (i j : nat) :
  is_neighbor sim eps i j
  = match entry sim i j with
    | Some x => js_ge x eps
    | None => false
    end.
Proof. unfold is_neighbor, entry. destruct (sim !! i); reflexivity. Qed.

Lemma symmetric_matrix_neighbors (N : nat) (sim : list (list float)) (eps : float) :
  (forall i j, i < N -> j < N -> entry sim i j = entry sim j i) ->
  symmetric_neighbors N sim eps.
Proof.
  intros Hsym i j Hi Hj. rewrite !is_neighbor_entry, (Hsym i j Hi Hj). reflexivity.
Qed.

Lemma length_filter_mono {A : Type} (P Q : A -> Prop)
  `{!forall x, Decision (P x)} `{!forall x, Decision (Q x)} (l : list A) :
  (forall x, P x -> Q x) -> length (filter P l) <= length (filter Q l).
Proof.
  intros HPQ. induction l as [| x l IH]; [reflexivity |].
  rewrite !filter_cons. destruct (decide (P x)) as [HP | HP].
  - rewrite decide_True by auto. simpl. lia.
  - destruct (decide (Q x)); simpl; lia.
Qed.

Section Lower.

Variable N : nat.
Variable sim : list (list float).
Variables t t' : float.
Variable minPts : Z.

(** The threshold [t'] is below [t]. *)
Hypothesis Hlower : PrimFloat.ltb t' t = true.

Lemma is_neighbor_lower (p j : nat) :
  is_neighbor sim t p j = true -> is_neighbor sim t' p j = true.
Proof.
  rewrite !is_neighbor_entry. destruct (entry sim p j) as [x |]; [| discriminate].
  intros H. apply js_ge_lower with t; assumption.
Qed.

Lemma neighbors_of_lower (p j : nat) :
  j ∈ neighbors_of N sim t p -> j ∈ neighbors_of N sim t' p.
Proof.
  rewrite !elem_of_neighbors_of. intros [Hj H]. auto using is_neighbor_lower.
Qed.

Lemma core_lower (c : nat) :
  core N sim t minPts c = true -> core N sim t' minPts c = true.
Proof.
  unfold core, enough. rewrite !Z.leb_le. intros H.
  assert (length (neighbors_of N sim t c) <= length (neighbors_of N sim t' c)).
  { unfold neighbors_of. apply length_filter_mono. intros j.
    rewrite !Is_true_true. apply is_neighbor_lower. }
  lia.
Qed.

Lemma reach_lower (r q : nat) :
  reach N sim t minPts r q -> reach N sim t' minPts r q.
Proof.
  induction 1 as [Hc | c q _ IH Hc Hq].
  - apply reach_root, core_lower, Hc.
  - apply reach_step with c; [assumption | apply core_lower, Hc |].
    apply neighbors_of_lower, Hq.
Qed.

End Lower.

(** C3, as the code has it.  Let [t' < t] on an N x N matrix.  Every index
    that [dbscan] puts in a cluster at threshold [t] is in a cluster, and
    not in the noise array, at threshold [t'].  When the matrix is
    symmetric, two core points (at [t]) of one cluster at [t] are in one
    cluster at [t']: lowering the threshold never separates the core points
    of a cluster.  (A point that is not a core point may leave its cluster
    for another one.) *)
Theorem dbscan_threshold_monotone (N : nat) (sim : list (list float))
  (t t' : float) (minPts : Z) :
  square N sim -> PrimFloat.ltb t' t = true ->
  exists r r',
    dbscanFromMatrix N sim t minPts = Ok r
    /\ dbscanFromMatrix N sim t' minPts = Ok r'
    /\ (forall c i, in_cluster r c i ->
          (exists c', in_cluster r' c' i) /\ i ∉ res_noise r')
    /\ ((forall i j, i < N -> j < N -> entry sim i j = entry sim j i) ->
        forall c i j,
          in_cluster r c i -> in_cluster r c j ->
          core N sim t minPts i = true -> core N sim t minPts j = true ->
          exists c', in_cluster r' c' i /\ in_cluster r' c' j).
Proof.
  intros [Hrows _] Hlower.
  destruct (run_facts N sim t minPts Hrows)
    as (st & cid & r & Hscan & I & Hrun & Hnoise & Hlen & Hcl & Hin).
  destruct (run_facts N sim t' minPts Hrows)
    as (st' & cid' & r' & Hscan' & I' & Hrun' & Hnoise' & Hlen' & Hcl' & Hin').
  exists r, r'. split; [assumption |]. split; [assumption |].
  assert (Hkept : forall c i, in_cluster r c i ->
            exists a, (0 <= a < Z.of_nat cid')%Z
                      /\ assignments st' !! i = Some (Some a)).
  { intros c i Hc. apply Hin in Hc as [Hi Hc].
    destruct (inv_clustered_reach I i _ Hc) as (root & Hroot & Hreach & _); [lia |].
    apply (reach_lower N sim t t' minPts Hlower) in Hreach.
    destruct (inv_final_cell _ _ _ _ _ _ _ _ i I' Hi) as (a & Ha & [-> | Hrange]);
      [exfalso | eauto].
    destruct (inv_noise_unreach I' i Ha) as [Hncore Hnreach].
    destruct (decide (root = i)) as [-> | Hne].
    - apply reach_core in Hreach. congruence.
    - apply (Hnreach root); [lia | assumption]. }
  assert (Hlisted : forall i a, i < N -> (0 <= a)%Z ->
            assignments st' !! i = Some (Some a) -> in_cluster r' (Z.to_nat a) i).
  { intros i a Hi Ha Hasg. apply Hin'. split; [assumption |].
    rewrite Hasg. do 2 f_equal. lia. }
  split.
  - intros c i Hc. destruct (Hkept c i Hc) as (a & Ha & Hasg).
    pose proof (proj1 (proj1 (Hin c i) Hc)) as Hi. split.
    + exists (Z.to_nat a). apply Hlisted; [assumption | lia | assumption].
    + rewrite Hnoise'. intros Hn. apply (inv_noise I') in Hn.
      rewrite Hasg in Hn. injection Hn as Hn. lia.
  - intros Hsym c i j Hci Hcj Hcorei Hcorej.
    destruct (Hkept c i Hci) as (a & Ha & Hasg).
    apply Hin in Hci as [Hi Hci]. apply Hin in Hcj as [Hj Hcj].
    destruct (inv_clustered_reach I i _ Hci) as (ri & _ & Hri & Hai & Hmini); [lia |].
    destruct (inv_clustered_reach I j _ Hcj) as (rj & _ & Hrj & Haj & Hminj); [lia |].
    assert (ri = rj).
    { pose proof (Hmini rj Haj). pose proof (Hminj ri Hai). lia. }
    subst rj.
    assert (HriN : ri < N).
    { apply lookup_lt_Some in Hai. rewrite (inv_len I) in Hai. assumption. }
    pose proof (symmetric_matrix_neighbors N sim t' Hsym) as Hsym'.
    pose proof (inv_below I' ri HriN) as Hrv.
    assert (Hsame : forall x, reach N sim t minPts ri x -> core N sim t minPts x = true ->
              assignments st' !! ri = assignments st' !! x).
    { intros x Hx Hcx.
      apply (reach_same_cluster N sim t' minPts N cid' 0 st' ri x I' Hsym' Hrv).
      - apply (reach_lower N sim t t' minPts Hlower), Hx.
      - apply (core_lower N sim t t' minPts Hlower), Hcx. }
    exists (Z.to_nat a). split.
    + apply Hlisted; [assumption | lia | assumption].
    + apply Hlisted; [assumption | lia |].
      rewrite <- (Hsame j Hrj Hcorej), (Hsame i Hri Hcorei). assumption.
Qed.

Lemma dbscan_threshold_monotone_witness :
  exists r r',
    dbscanFromMatrix 3 chain3 0.85 2 = Ok r
    /\ dbscanFromMatrix 3 chain3 0.25 2 = Ok r'
    /\ (forall c i, in_cluster r c i ->
          (exists c', in_cluster r' c' i) /\ i ∉ res_noise r')
    /\ ((forall i j, i < 3 -> j < 3 -> entry chain3 i j = entry chain3 j i) ->
        forall c i j,
          in_cluster r c i -> in_cluster r c j ->
          core 3 chain3 0.85 2 i = true -> core 3 chain3 0.85 2 j = true ->
          exists c', in_cluster r' c' i /\ in_cluster r' c' j).
Proof.
  apply (dbscan_threshold_monotone 3 chain3 0.85 0.25 2 square_chain3). reflexivity.
Defined.

(** C3, as the claim has it, fails on the nine unit vectors [points9] with
    [minPts = 4].  At threshold 0.91 the second cluster is [4; 5; 6; 7; 8];
    at the lower threshold 0.75 point 8, which is not a core point, is a
    neighbour of point 0 as well and is claimed by the first cluster, whose
    expansion comes first: the cluster [4; 5; 6; 7; 8] is contained in
    neither cluster found at 0.75. *)
Lemma threshold_splits_cluster :
  PrimFloat.ltb 0.75 0.91 = true
  /\ exists r r',
      dbscan no_gpu points9 0.91 4 false = Ok r
      /\ dbscan no_gpu points9 0.75 4 false = Ok r'
      /\ r = mkResult [[0; 1; 2; 3]; [4; 5; 6; 7; 8]] []
      /\ r' = mkResult [[0; 1; 2; 3; 8]; [4; 5; 6; 7]] []
      /\ exists cl, cl ∈ clusters r
           /\ forall cl', cl' ∈ clusters r' -> exists i, i ∈ cl /\ i ∉ cl'.
Proof.
  split; [reflexivity |].
  exists (mkResult [[0; 1; 2; 3]; [4; 5; 6; 7; 8]] []),
         (mkResult [[0; 1; 2; 3; 8]; [4; 5; 6; 7]] []).
  split; [vm_compute; reflexivity |]. split; [vm_compute; reflexivity |].
  split; [reflexivity |]. split; [reflexivity |].
  exists [4; 5; 6; 7; 8]. split; [simpl; set_solver |].
  simpl. intros cl' Hcl'.
  apply elem_of_cons in Hcl' as [-> | Hcl'].
  - exists 4. split; [set_solver |]. rewrite !elem_of_cons, elem_of_nil. lia.
  - apply elem_of_cons in Hcl' as [-> | Hcl']; [| inversion Hcl'].
    exists 8. split; [set_solver |]. rewrite !elem_of_cons, elem_of_nil. lia.
Qed.

(** ** Determinism (C7) *)

(** Both strategies return a matrix with a row for each point. *)
Lemma computeDistanceMatrix_rows (nav : Navigator) (points : list (list float))
  (useGPU : bool) (m : list (list float)) :
  computeDistanceMatrix nav points useGPU = Ok m -> length m = length points.
Proof.
  assert (Hcpu : length (computeDistanceMatrixCPU points) = length points).
  { destruct (computeDistanceMatrixCPU_entries points) as [[Hlen _] _]. exact Hlen. }
  unfold computeDistanceMatrix.
  destruct useGPU; [| intros [= <-]; exact Hcpu].
  destruct (nav_gpu nav) as [gpu |]; [| intros [= <-]; exact Hcpu].
  destruct (gpuAttempt gpu points) as [m' | e |] eqn:Hgpu;
    [| intros [= <-]; exact Hcpu | discriminate].
  intros [= <-]. unfold gpuAttempt in Hgpu.
  apply bind_Ok in Hgpu as (adapter & _ & Hgpu).
  destruct adapter as [adapter |]; [| discriminate].
  apply bind_Ok in Hgpu as (device & _ & Hgpu).
  destruct points as [| p0 rest]; [discriminate |].
  apply bind_Ok in Hgpu as (similarities & _ & Hgpu).
  injection Hgpu as <-. simpl. rewrite length_map, length_seq. reflexivity.
Qed.

(** X1.  [dbscan] returns for every list of vectors, every threshold and
    every [minPts], whatever the host does: nothing is thrown (no row of the
    matrix is missed, no cell of [assignments] is left [null] for the
    grouping), and every expansion loop ends. *)
Lemma dbscan_returns (nav : Navigator) (points : list (list float))
  (eps : float) (minPts : Z) (useGPU : bool) :
  exists r, dbscan nav points eps minPts useGPU = Ok r.
Proof.
  assert (Hm : exists m, computeDistanceMatrix nav points useGPU = Ok m).
  { unfold computeDistanceMatrix. destruct useGPU; [| eauto].
    destruct (nav_gpu nav) as [gpu |]; [| eauto].
    destruct (gpuAttempt gpu points) as [m | e |] eqn:Hgpu; [eauto | eauto |].
    exfalso. unfold gpuAttempt in Hgpu.
    destruct (requestAdapter gpu) as [e | [adapter |]]; try discriminate.
    cbn [await bind] in Hgpu.
    destruct (requestDevice adapter) as [e | device]; try discriminate.
    cbn [await bind] in Hgpu. destruct points as [| p0 rest]; [discriminate |].
    destruct (runKernel device _ _ _); discriminate. }
  destruct Hm as [m Hm]. pose proof (computeDistanceMatrix_rows _ _ _ _ Hm) as Hlen.
  destruct (run_facts (length points) m eps minPts Hlen) as (_ & _ & r & _ & _ & Hrun & _).
  exists r. unfold dbscan. rewrite Hm. exact Hrun.
Qed.

(** The first element of an ascending list is its least element. *)
Lemma head_sorted_least (l : list nat) (x : nat) :
  StronglySorted lt l -> x ∈ l -> (forall y, y ∈ l -> x <= y) -> head l = Some x.
Proof.
  intros Hs Hx Hmin. destruct l as [| z l]; [inversion Hx |]. simpl. f_equal.
  apply StronglySorted_inv in Hs as [_ Hz]. rewrite Forall_forall in Hz.
  apply elem_of_cons in Hx as [-> | Hx]; [reflexivity |].
  specialize (Hz x Hx). specialize (Hmin z ltac:(left)). lia.
Qed.

Lemma filter_ext_in {A : Type} (P Q : A -> Prop)
  `{!forall x, Decision (P x)} `{!forall x, Decision (Q x)} (l : list A) :
  (forall x, x ∈ l -> (P x <-> Q x)) -> filter P l = filter Q l.
Proof.
  induction l as [| x l IH]; intros Hext; [reflexivity |].
  rewrite !filter_cons.
  assert (Hx : P x <-> Q x) by (apply Hext; left).
  rewrite IH by (intros y Hy; apply Hext; right; assumption).
  destruct (decide (P x)), (decide (Q x)); tauto.
Qed.

(** The engine sees a matrix through the cells that pass the threshold:
    two matrices of one size on which the same cells pass give the same
    neighbour lists. *)
Lemma getNeighbors_same (N : nat) (sim sim' : list (list float)) (eps : float) :
  length sim = N -> length sim' = N ->
  (forall i j, i < N -> j < N -> is_neighbor sim eps i j = is_neighbor sim' eps i j) ->
  forall p, getNeighborsFromMatrix N sim eps p = getNeighborsFromMatrix N sim' eps p.
Proof.
  intros Hlen Hlen' Hsame p. destruct (decide (p < N)) as [Hp | Hp].
  - rewrite !getNeighbors_ok by (apply lookup_lt_is_Some_2; lia).
    f_equal. unfold neighbors_of. apply filter_ext_in.
    intros j Hj. apply elem_of_seq in Hj. rewrite (Hsame p j) by lia. reflexivity.
  - unfold getNeighborsFromMatrix, for_upto. apply forM_ext.
    intros i nb. unfold cell_ge.
    rewrite (proj2 (lookup_ge_None sim p)) by lia.
    rewrite (proj2 (lookup_ge_None sim' p)) by lia. reflexivity.
Qed.

Lemma reach_trans (N : nat) (sim : list (list float)) (eps : float) (minPts : Z)
  (a b c : nat) :
  reach N sim eps minPts a b -> reach N sim eps minPts b c ->
  reach N sim eps minPts a c.
Proof.
  intros Hab Hbc. induction Hbc as [_ | c0 q _ IH Hc0 Hq]; [assumption |].
  eapply reach_step; eassumption.
Qed.

(** Two ascending lists with the same elements are the same list. *)
Lemma sorted_lt_ext (l k : list nat) :
  StronglySorted lt l -> StronglySorted lt k ->
  (forall x, x ∈ l <-> x ∈ k) -> l = k.
Proof.
  revert k. induction l as [| x l IH]; intros k Hl Hk Hext.
  - destruct k as [| y k]; [reflexivity |].
    assert (Hy : y ∈ @nil nat) by (apply Hext; left). inversion Hy.
  - destruct k as [| y k].
    + assert (Hx : x ∈ @nil nat) by (apply Hext; left). inversion Hx.
    + apply StronglySorted_inv in Hl as [Hl Hx].
      apply StronglySorted_inv in Hk as [Hk Hy].
      rewrite Forall_forall in Hx, Hy.
      assert (x = y) as ->.
      { assert (Hxk : x ∈ y :: k) by (apply Hext; left).
        assert (Hyl : y ∈ x :: l) by (apply Hext; left).
        apply elem_of_cons in Hxk as [-> | Hxk]; [reflexivity |].
        apply elem_of_cons in Hyl as [-> | Hyl]; [reflexivity |].
        specialize (Hx y Hyl). specialize (Hy x Hxk). lia. }
      f_equal. apply IH; [assumption | assumption |].
      intros z. split; intros Hz.
      * assert (Hzk : z ∈ y :: k) by (apply Hext; right; assumption).
        apply elem_of_cons in Hzk as [-> | Hzk]; [| assumption].
        specialize (Hx y Hz). lia.
      * assert (Hzl : z ∈ y :: l) by (apply Hext; right; assumption).
        apply elem_of_cons in Hzl as [-> | Hzl]; [| assumption].
        specialize (Hy y Hz). lia.
Qed.

Lemma sorted_fmap_seq (f : nat -> nat) (s n : nat) :
  (forall a b, s <= a -> a < b -> b < s + n -> f a < f b) ->
  StronglySorted lt (f <$> seq s n).
Proof.
  revert s. induction n as [| n IH]; intros s Hf; simpl; constructor.
  - apply IH. intros a b Ha Hab Hb. apply Hf; lia.
  - apply Forall_forall. intros y Hy.
    apply list_elem_of_fmap in Hy as (b & -> & Hb). apply elem_of_seq in Hb.
    apply Hf; lia.
Qed.

(** A matrix prescribes at most one result. *)
Lemma described_unique (N : nat) (sim : list (list float)) (eps : float)
  (minPts : Z) (r1 r2 : Result) :
  described N sim eps minPts r1 -> described N sim eps minPts r2 -> r1 = r2.
Proof.
  intros (roots1 & Hs1 & Hr1 & Hl1 & Hc1 & Hns1 & Hn1)
         (roots2 & Hs2 & Hr2 & Hl2 & Hc2 & Hns2 & Hn2).
  assert (roots1 = roots2) as <-.
  { apply sorted_lt_ext; [assumption | assumption |].
    intros x. rewrite Hr1, Hr2. reflexivity. }
  destruct r1 as [cls1 ns1], r2 as [cls2 ns2]. simpl in *. f_equal.
  - apply list_eq. intros c.
    destruct (cls1 !! c) as [cl1 |] eqn:E1, (cls2 !! c) as [cl2 |] eqn:E2.
    + destruct (lookup_lt_is_Some_2 roots1 c) as [root Hroot].
      { rewrite <- Hl1. eapply lookup_lt_Some. eassumption. }
      destruct (Hc1 c cl1 root E1 Hroot) as (Hsc1 & _ & Hm1).
      destruct (Hc2 c cl2 root E2 Hroot) as (Hsc2 & _ & Hm2).
      f_equal. apply sorted_lt_ext; [assumption | assumption |].
      intros i. rewrite Hm1, Hm2. reflexivity.
    + apply lookup_lt_Some in E1. apply lookup_ge_None in E2. lia.
    + apply lookup_lt_Some in E2. apply lookup_ge_None in E1. lia.
    + reflexivity.
  - apply sorted_lt_ext; [assumption | assumption |].
    intros i. rewrite Hn1, Hn2. reflexivity.
Qed.

(** A point that the root of cluster [c] reaches is visited once the scan
    has passed this root: the run leaves it to a cluster with an id up to
    [c], or as noise. *)
Lemma reached_by_root (N : nat) (sim : list (list float)) (eps : float)
  (minPts : Z) (st : State) (cid c root i : nat) :
  length sim = N ->
  scan_upto N sim eps minPts N = Ok (st, cid) ->
  inv N sim eps minPts N cid 0 [] st ->
  root < N ->
  assignments st !! root = Some (Some (Z.of_nat c)) ->
  (forall j c', (Z.of_nat c <= c')%Z -> assignments st !! j = Some (Some c') -> root <= j) ->
  reach N sim eps minPts root i ->
  exists a, assignments st !! i = Some (Some a) /\ (a <= Z.of_nat c)%Z.
Proof.
  intros Hrows Hscan I Hroot Hasg Hmin Hreach.
  destruct (scan_upto_inv N sim eps minPts Hrows (S root)) as (st1 & cid1 & Hscan1 & I1);
    [lia |].
  destruct (scan_upto_stable N sim eps minPts Hrows (S root) N st1 st cid1 cid
              ltac:(lia) ltac:(lia) Hscan1 Hscan) as [Hstable _].
  assert (Hcid1 : cid1 <= S c).
  { destruct (decide (cid1 <= S c)) as [| Hgt]; [assumption |]. exfalso.
    destruct (inv_roots I1 (S c)) as (r' & Hr' & Ha' & _); [lia |].
    apply (stable_asg _ _ Hstable) in Ha'.
    assert (root <= r') by (apply (Hmin r' (Z.of_nat (S c))); [lia | assumption]).
    assert (r' = root) by lia. subst r'.
    rewrite Hasg in Ha'. injection Ha' as Ha'. lia. }
  assert (Hv : i ∈ visited st1).
  { eapply reach_visited; [exact I1 | | exact Hreach]. apply (inv_below I1). lia. }
  assert (Hi : i < N) by (apply (inv_vis_lt I1); assumption).
  apply (inv_vis_asg I1 i Hi) in Hv.
  destruct (assignments st1 !! i) as [[a |] |] eqn:E.
  - exists a. split; [apply (stable_asg _ _ Hstable); assumption |].
    destruct (inv_range I1 i a E); lia.
  - congruence.
  - apply lookup_ge_None_1 in E. rewrite (inv_len I1) in E. lia.
Qed.

(** The result of a run is the one that the matrix prescribes. *)
Lemma run_described (N : nat) (sim : list (list float)) (eps : float) (minPts : Z) :
  length sim = N ->
  exists r, dbscanFromMatrix N sim eps minPts = Ok r /\ described N sim eps minPts r.
Proof.
  intros Hrows.
  destruct (run_facts N sim eps minPts Hrows)
    as (st & cid & r & Hscan & I & Hrun & Hnoise & Hlen & Hcl & Hin).
  exists r. split; [assumption |].
  (* the root of every cluster *)
  assert (Hroots : forall c, c < cid ->
            exists root,
              head (members (assignments st) c N) = Some root
              /\ root < N
              /\ assignments st !! root = Some (Some (Z.of_nat c))
              /\ (forall j c', (Z.of_nat c <= c')%Z ->
                     assignments st !! j = Some (Some c') -> root <= j)).
  { intros c Hc. destruct (inv_roots I c Hc) as (root & Hroot & Hasg & Hmin).
    exists root. split; [| auto].
    apply head_sorted_least.
    - apply members_sorted.
    - apply elem_of_members. auto.
    - intros y Hy. apply elem_of_members in Hy as [_ Hy].
      apply (Hmin y _ ltac:(reflexivity) Hy). }
  set (root_of := fun c => default 0 (head (members (assignments st) c N))).
  assert (Hroot_of : forall c, c < cid ->
            head (members (assignments st) c N) = Some (root_of c)
            /\ root_of c < N
            /\ assignments st !! root_of c = Some (Some (Z.of_nat c))
            /\ (forall j c', (Z.of_nat c <= c')%Z ->
                   assignments st !! j = Some (Some c') -> root_of c <= j)).
  { intros c Hc. destruct (Hroots c Hc) as (root & Hhead & Hrest).
    unfold root_of. rewrite Hhead. simpl. auto. }
  clearbody root_of. clear Hroots.
  (* a clustered point is reached by the root of its cluster *)
  assert (Hreached : forall i c, c < cid ->
            assignments st !! i = Some (Some (Z.of_nat c)) ->
            reach N sim eps minPts (root_of c) i).
  { intros i c Hc Hi.
    destruct (Hroot_of c Hc) as (_ & _ & Hasg & Hmin).
    destruct (inv_clustered_reach I i _ Hi) as (root' & _ & Hr' & Hasg' & Hmin'); [lia |].
    assert (root' = root_of c) as ->; [| assumption].
    pose proof (Hmin' _ Hasg). pose proof (Hmin root' _ ltac:(reflexivity) Hasg'). lia. }
  (* and by the root of no earlier cluster *)
  assert (Hfirst : forall i c c', c < cid -> c' < c ->
            assignments st !! i = Some (Some (Z.of_nat c)) ->
            ~ reach N sim eps minPts (root_of c') i).
  { intros i c c' Hc Hc' Hi Hreach.
    destruct (Hroot_of c' ltac:(lia)) as (_ & Hlt & Hasg & Hmin).
    destruct (reached_by_root N sim eps minPts st cid c' (root_of c') i
                Hrows Hscan I Hlt Hasg Hmin Hreach) as (a & Ha & Hle).
    rewrite Hi in Ha. injection Ha as <-. lia. }
  (* what is noise *)
  assert (Hnoise_iff : forall i, i ∈ noise st <-> is_noise N sim eps minPts i).
  { intros i. unfold is_noise. split.
    - intros Hi. split; [apply (inv_noise_lt I); assumption |].
      apply (inv_noise_unreach I), (inv_noise I), Hi.
    - intros (Hi & Hcore & Hnone).
      destruct (inv_final_cell _ _ _ _ _ _ _ _ i I Hi) as (a & Ha & [-> | Hrange]);
        [apply (inv_noise I); assumption |].
      exfalso. destruct (inv_clustered_reach I i a Ha) as (root & Hle & Hr & _); [lia |].
      destruct (decide (root = i)) as [-> | Hne].
      + apply reach_core in Hr. congruence.
      + apply (Hnone root); [lia | assumption]. }
  (* what is a root *)
  assert (Hcore_clustered : forall x, x < N -> core N sim eps minPts x = true ->
            exists c, c < cid /\ assignments st !! x = Some (Some (Z.of_nat c))).
  { intros x Hx Hcore.
    destruct (inv_final_cell _ _ _ _ _ _ _ _ x I Hx) as (a & Ha & [-> | Hrange]).
    - apply (inv_noise_unreach I) in Ha as [Ha _]. congruence.
    - exists (Z.to_nat a). split; [lia |]. rewrite Ha. do 2 f_equal. lia. }
  assert (Hroot_iff : forall x, x ∈ root_of <$> seq 0 cid <-> is_root N sim eps minPts x).
  { intros x. unfold is_root. rewrite list_elem_of_fmap. split.
    - intros (c & -> & Hc). apply elem_of_seq in Hc. assert (Hc' : c < cid) by lia.
      destruct (Hroot_of c Hc') as (_ & Hlt & Hasg & Hmin).
      split; [assumption |]. split.
      + pose proof (Hreached _ c Hc' Hasg) as Hr. apply reach_core in Hr. exact Hr.
      + intros r' Hr' Hreach.
        pose proof (reach_core _ _ _ _ _ _ Hreach) as Hcore'.
        destruct (Hcore_clustered r' ltac:(lia) Hcore') as (c' & Hc'' & Hasg').
        pose proof (Hreached r' c' Hc'' Hasg') as Hr0.
        pose proof (reach_trans _ _ _ _ _ _ _ Hr0 Hreach) as Hr1.
        destruct (Hroot_of c' Hc'') as (_ & Hlt' & Hasg0 & Hmin').
        destruct (reached_by_root N sim eps minPts st cid c' (root_of c') (root_of c)
                    Hrows Hscan I Hlt' Hasg0 Hmin' Hr1) as (a & Ha & Hle).
        rewrite Hasg in Ha. injection Ha as <-.
        assert (root_of c <= r') by (apply (Hmin r' (Z.of_nat c')); [lia | assumption]).
        lia.
    - intros (Hx & Hcore & Hnone).
      destruct (Hcore_clustered x Hx Hcore) as (c & Hc & Hasg).
      exists c. split; [| apply elem_of_seq; lia].
      pose proof (Hreached x c Hc Hasg) as Hr.
      destruct (Hroot_of c Hc) as (_ & _ & Hasg0 & Hmin).
      assert (root_of c <= x) by (apply (Hmin x _ ltac:(reflexivity) Hasg)).
      destruct (decide (root_of c = x)) as [| Hne]; [congruence |].
      exfalso. apply (Hnone (root_of c)); [lia | assumption]. }
  exists (root_of <$> seq 0 cid).
  split.
  { apply sorted_fmap_seq. intros a b _ Hab Hb. simpl in Hb.
    destruct (Hroot_of a ltac:(lia)) as (_ & _ & Hasga & Hmina).
    destruct (Hroot_of b ltac:(lia)) as (_ & _ & Hasgb & _).
    assert (root_of a <= root_of b) by (apply (Hmina _ (Z.of_nat b)); [lia | assumption]).
    destruct (decide (root_of a = root_of b)) as [Heq | Hne]; [| lia].
    rewrite Heq, Hasgb in Hasga. injection Hasga as Hasga. lia. }
  split; [assumption |].
  split; [rewrite length_fmap, length_seq; assumption |].
  split.
  { intros c cl root Hc Hroot.
    pose proof (lookup_lt_Some _ _ _ Hc) as Hlt. rewrite Hlen in Hlt.
    rewrite (Hcl c Hlt) in Hc. injection Hc as <-.
    rewrite list_lookup_fmap in Hroot.
    rewrite (proj2 (lookup_seq 0 cid c c)) in Hroot by (split; [reflexivity | assumption]).
    simpl in Hroot. injection Hroot as <-.
    destruct (Hroot_of c Hlt) as (Hhead & _).
    split; [apply members_sorted |]. split; [assumption |].
    intros i. rewrite elem_of_members. split.
    - intros [Hi Hasg]. split; [assumption |]. split.
      + intros Hn. apply Hnoise_iff, (inv_noise I) in Hn.
        rewrite Hasg in Hn. injection Hn as Hn. lia.
      + split; [apply Hreached; assumption |].
        intros c' root' Hc' Hroot'.
        rewrite list_lookup_fmap in Hroot'.
        rewrite (proj2 (lookup_seq 0 cid c' c')) in Hroot'
          by (split; [reflexivity | lia]).
        simpl in Hroot'. injection Hroot' as <-.
        apply (Hfirst i c c'); assumption.
    - intros (Hi & Hnot & Hreach & Hnone). split; [assumption |].
      destruct (inv_final_cell _ _ _ _ _ _ _ _ i I Hi) as (a & Ha & [-> | Hrange]).
      + exfalso. apply Hnot, Hnoise_iff, (inv_noise I). assumption.
      + assert (Ha' : assignments st !! i = Some (Some (Z.of_nat (Z.to_nat a))))
          by (rewrite Ha; do 2 f_equal; lia).
        assert (Hac : Z.to_nat a < cid) by lia.
        destruct (Nat.lt_trichotomy (Z.to_nat a) c) as [Hlt' | [Heq | Hgt]].
        * exfalso. apply (Hnone (Z.to_nat a) (root_of (Z.to_nat a)) Hlt').
          -- rewrite list_lookup_fmap.
             rewrite (proj2 (lookup_seq 0 cid (Z.to_nat a) (Z.to_nat a)))
               by (split; [reflexivity | assumption]).
             reflexivity.
          -- apply Hreached; assumption.
        * rewrite <- Heq. assumption.
        * exfalso. apply (Hfirst i (Z.to_nat a) c Hac Hgt Ha'). assumption. }
  rewrite Hnoise. split; [apply (inv_noise_sorted I) | assumption].
Qed.

(** C7.  Two runs of [dbscan] that work on the same similarity matrix [m],
    whichever hosts, points and strategies produced it, with the same
    threshold and [minPts], return the same result [r], and so does every
    run on a matrix of the same size on which the same cells pass the
    threshold.  This result is fixed by the matrix alone: it is the one
    result that the matrix prescribes ([described]), with no reference to a
    state or a queue.
    The cluster ids follow the scan: the clusters are those of the roots
    (the core points that no core point with a smaller index reaches) in
    ascending order of the roots; the cluster of a root lists, in ascending
    order and starting with the root, the points that this root is the first
    to reach and that are not noise; and the noise array lists, in ascending
    order, the points that are no core points and that no core point with a
    smaller index reaches. *)
Theorem dbscan_deterministic (nav1 nav2 : Navigator)
  (points1 points2 : list (list float)) (useGPU1 useGPU2 : bool)
  (m : list (list float)) (eps : float) (minPts : Z) :
  computeDistanceMatrix nav1 points1 useGPU1 = Ok m ->
  computeDistanceMatrix nav2 points2 useGPU2 = Ok m ->
  exists r,
    dbscan nav1 points1 eps minPts useGPU1 = Ok r
    /\ dbscan nav2 points2 eps minPts useGPU2 = Ok r
    /\ described (length m) m eps minPts r
    /\ (forall r', described (length m) m eps minPts r' -> r' = r)
    /\ forall nav3 points3 useGPU3 m3,
         computeDistanceMatrix nav3 points3 useGPU3 = Ok m3 ->
         length m3 = length m ->
         (forall i j, i < length m -> j < length m ->
            is_neighbor m3 eps i j = is_neighbor m eps i j) ->
         dbscan nav3 points3 eps minPts useGPU3 = Ok r.
Proof.
  intros H1 H2.
  pose proof (computeDistanceMatrix_rows _ _ _ _ H1) as Hlen1.
  pose proof (computeDistanceMatrix_rows _ _ _ _ H2) as Hlen2.
  destruct (run_described (length m) m eps minPts eq_refl) as (r & Hrun & Hdescribed).
  exists r. unfold dbscan. rewrite H1, H2. cbn [bind]. rewrite <- Hlen1, <- Hlen2.
  split; [assumption |]. split; [assumption |]. split; [assumption |].
  split; [intros r' Hr'; eapply described_unique; eassumption |].
  intros nav3 points3 useGPU3 m3 H3 Hlen3 Hsame.
  pose proof (computeDistanceMatrix_rows _ _ _ _ H3) as Hrows3.
  rewrite H3. cbn [bind]. rewrite <- Hrows3, Hlen3, <- Hrun.
  apply dbscanFromMatrix_ext. apply getNeighbors_same; auto.
Qed.

(** Two runs on the five sample vectors, one on the table read back from
    the device and one on the sequential path: two clusters and a noise
    point, the same in both. *)
Lemma dbscan_deterministic_witness :
  (dbscan table_gpu points5 0.85 2 true = Ok (mkResult [[0; 1]; [2; 3]] [4])
   /\ dbscan no_gpu points5 0.85 2 false = Ok (mkResult [[0; 1]; [2; 3]] [4]))
  /\ exists r,
      dbscan table_gpu points5 0.85 2 true = Ok r
      /\ dbscan no_gpu points5 0.85 2 false = Ok r
      /\ described (length (computeDistanceMatrixCPU points5))
                   (computeDistanceMatrixCPU points5) 0.85 2 r
      /\ (forall r', described (length (computeDistanceMatrixCPU points5))
                               (computeDistanceMatrixCPU points5) 0.85 2 r' -> r' = r)
      /\ forall nav3 points3 useGPU3 m3,
           computeDistanceMatrix nav3 points3 useGPU3 = Ok m3 ->
           length m3 = length (computeDistanceMatrixCPU points5) ->
           (forall i j, i < length (computeDistanceMatrixCPU points5) ->
                        j < length (computeDistanceMatrixCPU points5) ->
              is_neighbor m3 0.85 i j
              = is_neighbor (computeDistanceMatrixCPU points5) 0.85 i j) ->
           dbscan nav3 points3 0.85 2 useGPU3 = Ok r.
Proof.
  split; [split; vm_compute; reflexivity |].
  apply (dbscan_deterministic table_gpu no_gpu points5 points5 true false
           (computeDistanceMatrixCPU points5) 0.85 2);
    vm_compute; reflexivity.
Defined.

(** ** Further properties of a run *)

(** What [dbscan] runs on: the matrix that [computeDistanceMatrix] returns,
    from the device or from the fallback, with a row for each point. *)
Lemma dbscan_run (nav : Navigator) (points : list (list float))
  (eps : float) (minPts : Z) (useGPU : bool) :
  exists m,
    computeDistanceMatrix nav points useGPU = Ok m
    /\ length m = length points
    /\ dbscan nav points eps minPts useGPU
       = dbscanFromMatrix (length points) m eps minPts.
Proof.
  assert (Hm : exists m, computeDistanceMatrix nav points useGPU = Ok m).
  { unfold computeDistanceMatrix. destruct useGPU; [| eauto].
    destruct (nav_gpu nav) as [gpu |]; [| eauto].
    destruct (gpuAttempt gpu points) as [m | e |] eqn:Hgpu; [eauto | eauto |].
    exfalso. unfold gpuAttempt in Hgpu.
    destruct (requestAdapter gpu) as [e | [adapter |]]; try discriminate.
    cbn [await bind] in Hgpu.
    destruct (requestDevice adapter) as [e | device]; try discriminate.
    cbn [await bind] in Hgpu. destruct points as [| p0 rest]; [discriminate |].
    destruct (runKernel device _ _ _); discriminate. }
  destruct Hm as [m Hm]. exists m. split; [assumption |].
  split; [eapply computeDistanceMatrix_rows; eassumption |].
  unfold dbscan. rewrite Hm. reflexivity.
Qed.

(** An ascending list that holds exactly the indices of a range is the range. *)
Lemma sorted_lt_eq_seq_from (n : nat) (l : list nat) (s : nat) :
  StronglySorted lt l -> (forall i, i ∈ l <-> s <= i < s + n) -> l = seq s n.
Proof.
  revert l s. induction n as [| n IH]; intros l s Hs Hl.
  - destruct l as [| x l]; [reflexivity |].
    assert (Hx : x ∈ x :: l) by left. apply Hl in Hx. lia.
  - destruct l as [| x l].
    + assert (Hin : s ∈ @nil nat) by (apply Hl; lia). inversion Hin.
    + apply StronglySorted_inv in Hs as [Hs Hx]. rewrite Forall_forall in Hx.
      assert (x = s) as ->.
      { assert (Hxs : s <= x < s + S n) by (apply Hl; left).
        assert (Hin : s ∈ x :: l) by (apply Hl; lia).
        apply elem_of_cons in Hin as [-> | Hin]; [reflexivity |].
        specialize (Hx s Hin). lia. }
      simpl. f_equal. apply IH; [assumption |].
      intros i. split.
      * intros Hi. specialize (Hx i Hi).
        assert (s <= i < s + S n) by (apply Hl; right; assumption). lia.
      * intros Hi. assert (Hin : i ∈ s :: l) by (apply Hl; lia).
        apply elem_of_cons in Hin as [-> | Hin]; [lia | assumption].
Qed.

Lemma sorted_lt_eq_seq (l : list nat) (N : nat) :
  StronglySorted lt l -> (forall i, i ∈ l <-> i < N) -> l = seq 0 N.
Proof.
  intros Hs Hl. apply sorted_lt_eq_seq_from; [assumption |].
  intros i. rewrite Hl. lia.
Qed.

(** Without a core point the scan opens no cluster. *)
Lemma run_without_core (N : nat) (sim : list (list float)) (eps : float)
  (minPts : Z) :
  length sim = N ->
  (forall i, i < N -> core N sim eps minPts i = false) ->
  dbscanFromMatrix N sim eps minPts = Ok (mkResult [] (seq 0 N)).
Proof.
  intros Hrows Hcore.
  destruct (run_facts N sim eps minPts Hrows)
    as (st & cid & r & Hscan & I & Hrun & Hnoise & Hlen & Hcl & Hin).
  assert (Hall : forall i a, assignments st !! i = Some (Some a) -> a = (-1)%Z).
  { intros i a Ha. destruct (inv_range I i a Ha) as [-> | Hr]; [reflexivity |].
    destruct (inv_clustered_reach I i a Ha) as (root & Hle & Hreach & _); [lia |].
    apply reach_core in Hreach.
    pose proof (lookup_lt_Some _ _ _ Ha) as Hi. rewrite (inv_len I) in Hi.
    rewrite Hcore in Hreach by lia. discriminate. }
  assert (Hcid : cid = 0).
  { destruct cid as [| c]; [reflexivity |].
    destruct (inv_roots I 0) as (root & _ & Ha & _); [lia |].
    apply Hall in Ha. lia. }
  rewrite Hrun. f_equal. destruct r as [cls ns]. simpl in *. f_equal.
  - apply nil_length_inv. lia.
  - subst ns. apply sorted_lt_eq_seq; [apply (inv_noise_sorted I) |].
    intros i. split; [apply (inv_noise_lt I) |]. intros Hi.
    destruct (inv_final_cell _ _ _ _ _ _ _ _ i I Hi) as (a & Ha & _).
    apply (inv_noise I). rewrite Ha. do 2 f_equal. eapply Hall. eassumption.
Qed.

(** X3.  For an integer [minPts]: when the test [neighbors.length < minPts]
    of the scan holds at every point (a point counts among its own
    neighbours when its diagonal cell passes the threshold), [dbscan] opens
    no cluster: it returns an empty [clusters] array and the noise array
    [0, 1, ..., N-1].  A [minPts] that is NaN, at which this test holds
    nowhere, is not covered. *)
Theorem dbscan_without_core_point (N : nat) (sim : list (list float))
  (eps : float) (minPts : Z) :
  length sim = N ->
  (forall i, i < N ->
     (Z.of_nat (length (neighbors_of N sim eps i)) < minPts)%Z) ->
  dbscanFromMatrix N sim eps minPts = Ok (mkResult [] (seq 0 N)).
Proof.
  intros Hrows Hfew. apply run_without_core; [assumption |].
  intros i Hi. unfold core, enough. apply Z.leb_gt. apply Hfew. assumption.
Qed.

Lemma dbscan_without_core_point_witness :
  dbscanFromMatrix 3 chain3 0.85 4 = Ok (mkResult [] (seq 0 3)).
Proof.
  apply (dbscan_without_core_point 3 chain3 0.85 4 eq_refl).
  intros [| [| [| i]]] Hi; [vm_compute; reflexivity .. | lia].
Defined.

(** *** Thresholds that nothing passes *)

(** No number is [>=] NaN, and NaN is [>=] no number. *)
Lemma js_ge_nan (x : float) : js_ge x nan = false /\ js_ge nan x = false.
Proof.
  unfold js_ge. rewrite !leb_spec. change (Prim2SF nan) with S754_nan.
  split; destruct (Prim2SF x) as [[] | [] | | [] ? ?]; reflexivity.
Qed.

Lemma neighbors_of_nan (N : nat) (sim : list (list float)) (p : nat) :
  neighbors_of N sim nan p = [].
Proof.
  destruct (neighbors_of N sim nan p) as [| j l] eqn:E; [reflexivity |].
  assert (Hj : j ∈ neighbors_of N sim nan p) by (rewrite E; left).
  apply elem_of_neighbors_of in Hj as [_ Hj]. unfold is_neighbor in Hj.
  destruct (sim !! p) as [row |]; [| discriminate].
  destruct (row !! j) as [x |]; [| discriminate].
  rewrite (proj1 (js_ge_nan x)) in Hj. discriminate.
Qed.

(** X4.  The page sends [parseFloat] of its epsilon field, which is NaN for
    an empty field, and the worker clusters with the threshold
    [1 - epsilon].  With a NaN epsilon and [minPts >= 1], [dbscan] returns,
    for any vectors and on either path, no cluster and every index as noise. *)
Theorem dbscan_nan_epsilon (nav : Navigator) (points : list (list float))
  (minPts : Z) (useGPU : bool) :
  (1 <= minPts)%Z ->
  dbscan nav points (Worker.similarityThreshold nan) minPts useGPU
  = Ok (mkResult [] (seq 0 (length points))).
Proof.
  intros HminPts.
  change (Worker.similarityThreshold nan) with nan.
  destruct (dbscan_run nav points nan minPts useGPU) as (m & _ & Hlen & ->).
  apply run_without_core; [assumption |].
  intros i _. unfold core, enough. rewrite neighbors_of_nan. simpl.
  apply Z.leb_gt. lia.
Qed.

Lemma dbscan_nan_epsilon_witness :
  dbscan no_gpu points3 (Worker.similarityThreshold nan) 2 false
  = Ok (mkResult [] (seq 0 (length points3))).
Proof. apply (dbscan_nan_epsilon no_gpu points3 2 false). lia. Defined.

(** *** A [minPts] that every point meets *)

(** X5.  [dbscan] does not reject a [minPts] of zero or less: every point
    is then a core point, whatever the matrix holds, so that no index is
    noise and every index is in a cluster. *)
Theorem dbscan_nonpositive_minPts (nav : Navigator) (points : list (list float))
  (eps : float) (minPts : Z) (useGPU : bool) :
  (minPts <= 0)%Z ->
  exists r,
    dbscan nav points eps minPts useGPU = Ok r
    /\ res_noise r = []
    /\ forall i, i < length points -> exists c, in_cluster r c i.
Proof.
  intros HminPts.
  destruct (dbscan_run nav points eps minPts useGPU) as (m & _ & Hlen & ->).
  destruct (run_facts (length points) m eps minPts Hlen)
    as (st & cid & r & Hscan & I & Hrun & Hnoise & Hlencl & Hcl & Hin).
  assert (Hcore : forall i, core (length points) m eps minPts i = true).
  { intros i. unfold core, enough. apply Z.leb_le. lia. }
  assert (Hnot : forall i, assignments st !! i <> Some (Some (-1)%Z)).
  { intros i Ha. apply (inv_noise_unreach I) in Ha as [Ha _].
    rewrite Hcore in Ha. discriminate. }
  exists r. split; [assumption |]. split.
  - rewrite Hnoise. destruct (noise st) as [| i l] eqn:E; [reflexivity |].
    exfalso. apply (Hnot i). apply (inv_noise I). rewrite E. left.
  - intros i Hi.
    destruct (inv_final_cell _ _ _ _ _ _ _ _ i I Hi) as (a & Ha & [-> | Hrange]).
    + exfalso. apply (Hnot i). assumption.
    + exists (Z.to_nat a). apply Hin. split; [assumption |].
      rewrite Ha. do 2 f_equal. lia.
Qed.

Lemma dbscan_nonpositive_minPts_witness :
  exists r,
    dbscan no_gpu points3 0.85 0 false = Ok r
    /\ res_noise r = []
    /\ forall i, i < length points3 -> exists c, in_cluster r c i.
Proof. apply (dbscan_nonpositive_minPts no_gpu points3 0.85 0 false). lia. Defined.

(** *** A first point with every point in its neighbourhood *)

(** X6.  When the row of point 0 passes the threshold in every cell and
    [minPts] is at most the number of points, the first expansion takes
    every index: [dbscan] returns the single cluster [0, ..., N-1] and no
    noise, whatever the other rows hold. *)
Theorem dbscan_single_cluster (N : nat) (sim : list (list float)) (eps : float)
  (minPts : Z) :
  length sim = N -> 0 < N -> (minPts <= Z.of_nat N)%Z ->
  (forall j, j < N -> is_neighbor sim eps 0 j = true) ->
  dbscanFromMatrix N sim eps minPts = Ok (mkResult [seq 0 N] []).
Proof.
  intros Hrows HN HminPts Hrow0.
  assert (Hnb : forall j, j < N -> j ∈ neighbors_of N sim eps 0).
  { intros j Hj. apply elem_of_neighbors_of. auto. }
  assert (Hcore : core N sim eps minPts 0 = true).
  { unfold core, enough. apply Z.leb_le.
    assert (Hall : neighbors_of N sim eps 0 = seq 0 N).
    { apply sorted_lt_eq_seq; [apply neighbors_of_sorted |].
      intros j. split; [| apply Hnb].
      intros Hj. apply elem_of_neighbors_of in Hj. tauto. }
    rewrite Hall, length_seq. assumption. }
  destruct (run_facts N sim eps minPts Hrows)
    as (st & cid & r & Hscan & I & Hrun & Hnoise & Hlencl & Hcl & Hin).
  destruct (scan_upto_inv N sim eps minPts Hrows 1) as (st1 & cid1 & Hscan1 & I1); [lia |].
  destruct (scan_upto_stable N sim eps minPts Hrows 1 N st1 st cid1 cid
              ltac:(lia) ltac:(lia) Hscan1 Hscan) as [Hstable _].
  assert (Hcid1 : cid1 <= 1).
  { destruct cid1 as [| [| c]]; [lia | lia |]. exfalso.
    destruct (inv_roots I1 0) as (r0 & Hr0 & Ha0 & _); [lia |].
    destruct (inv_roots I1 1) as (r1 & Hr1 & Ha1 & _); [lia |].
    assert (r0 = 0) by lia. assert (r1 = 0) by lia. subst.
    rewrite Ha0 in Ha1. discriminate. }
  assert (Hasg1 : forall j, j < N -> assignments st1 !! j = Some (Some 0%Z)).
  { intros j Hj.
    assert (Hv : j ∈ visited st1).
    { destruct (inv_closed I1 0 j) as [Hv | Hp]; auto.
      - apply (inv_below I1). lia.
      - inversion Hp. }
    apply (inv_vis_asg I1 j Hj) in Hv.
    destruct (assignments st1 !! j) as [[a |] |] eqn:E.
    - destruct (inv_range I1 j a E) as [-> | Hr]; [| do 2 f_equal; lia].
      exfalso. apply (inv_noise I1) in E as Hn. apply (inv_noise_lt I1) in Hn.
      assert (j = 0) by lia. subst j.
      apply (inv_noise_unreach I1) in E as [E _]. congruence.
    - congruence.
    - apply lookup_ge_None_1 in E. rewrite (inv_len I1) in E. lia. }
  assert (Hasg : forall j, j < N -> assignments st !! j = Some (Some 0%Z)).
  { intros j Hj. apply (stable_asg _ _ Hstable). auto. }
  assert (Hcid : cid = 1).
  { destruct cid as [| [| c]]; [| reflexivity |].
    - destruct (inv_range I 0 _ (Hasg 0 HN)); lia.
    - destruct (inv_roots I 1) as (r1 & Hr1 & Ha1 & _); [lia |].
      rewrite (Hasg r1 Hr1) in Ha1. discriminate. }
  rewrite Hrun. f_equal. destruct r as [cls ns]. simpl in *. subst cid. f_equal.
  - destruct cls as [| cl [| cl' cls]]; try discriminate.
    f_equal. specialize (Hcl 0 ltac:(lia)). simpl in Hcl. injection Hcl as ->.
    apply sorted_lt_eq_seq; [apply members_sorted |].
    intros j. rewrite elem_of_members. split; [tauto | auto].
  - subst ns. destruct (noise st) as [| j l] eqn:E; [reflexivity |].
    assert (Hj : j ∈ noise st) by (rewrite E; left).
    pose proof (inv_noise_lt I j Hj) as Hlt. apply (inv_noise I) in Hj.
    rewrite (Hasg j Hlt) in Hj. discriminate.
Qed.

Lemma dbscan_single_cluster_witness :
  dbscanFromMatrix 3 chain3 0.25 3 = Ok (mkResult [seq 0 3] []).
Proof.
  apply (dbscan_single_cluster 3 chain3 0.25 3 eq_refl); [lia | lia |].
  intros [| [| [| j]]] Hj; [vm_compute; reflexivity .. | lia].
Defined.

(** *** What a cluster and the noise array hold *)

(** X2.  The noise array of [dbscan], read off the matrix it ran on: an
    index is noise exactly when it is no core point and no core point with a
    smaller index reaches it through a chain of core points.  In
    particular a core point is never noise. *)
Theorem dbscan_noise_exactly (nav : Navigator) (points : list (list float))
  (eps : float) (minPts : Z) (useGPU : bool) :
  exists m r,
    computeDistanceMatrix nav points useGPU = Ok m
    /\ dbscan nav points eps minPts useGPU = Ok r
    /\ forall i, i ∈ res_noise r <->
         i < length points
         /\ core (length points) m eps minPts i = false
         /\ forall root, root < i -> ~ reach (length points) m eps minPts root i.
Proof.
  destruct (dbscan_run nav points eps minPts useGPU) as (m & Hm & Hlen & Hrun).
  destruct (noise_characterization (length points) m eps minPts Hlen)
    as (r & Hr & Hnoise).
  exists m, r. split; [assumption |]. split; [congruence | assumption].
Qed.

(** X7.  For an integer [minPts], every cluster of [dbscan] grows from a
    core point: the first index of the cluster is a core point of the
    matrix (it has at least [minPts] neighbours), and every index of the
    cluster is reached from it through a chain of core points.  A [minPts]
    that is NaN, at which no point is a core point, is not covered. *)
Theorem dbscan_cluster_grows_from_core (nav : Navigator)
  (points : list (list float)) (eps : float) (minPts : Z) (useGPU : bool) :
  exists m r,
    computeDistanceMatrix nav points useGPU = Ok m
    /\ dbscan nav points eps minPts useGPU = Ok r
    /\ forall c cl, clusters r !! c = Some cl ->
         exists root,
           head cl = Some root
           /\ core (length points) m eps minPts root = true
           /\ forall i, i ∈ cl -> reach (length points) m eps minPts root i.
Proof.
  destruct (dbscan_run nav points eps minPts useGPU) as (m & Hm & Hlen & Hrun).
  destruct (run_facts (length points) m eps minPts Hlen)
    as (st & cid & r & Hscan & I & Hr & Hnoise & Hlencl & Hcl & Hin).
  exists m, r. split; [assumption |]. split; [congruence |].
  intros c cl Hc.
  pose proof (lookup_lt_Some _ _ _ Hc) as Hlt. rewrite Hlencl in Hlt.
  rewrite (Hcl c Hlt) in Hc. injection Hc as <-.
  destruct (inv_roots I c Hlt) as (root & Hroot & Hasg & Hmin).
  assert (Hreach : forall i, assignments st !! i = Some (Some (Z.of_nat c)) ->
                             reach (length points) m eps minPts root i).
  { intros i Hi.
    destruct (inv_clustered_reach I i _ Hi) as (root' & _ & Hr' & Hasg' & Hmin'); [lia |].
    assert (root' = root) as ->; [| assumption].
    pose proof (Hmin' root Hasg). pose proof (Hmin root' _ ltac:(reflexivity) Hasg').
    lia. }
  exists root. split; [| split].
  - apply head_sorted_least.
    + apply members_sorted.
    + apply elem_of_members. split; [lia | assumption].
    + intros y Hy. apply elem_of_members in Hy as [_ Hy].
      apply (Hmin y _ ltac:(reflexivity) Hy).
  - pose proof (Hreach root Hasg) as Hr0. apply reach_core in Hr0. exact Hr0.
  - intros i Hi. apply elem_of_members in Hi as [_ Hi]. apply Hreach. assumption.
Qed.

(** On a symmetric neighbour relation the final state links every core point
    to the core points it reaches. *)
Lemma core_chain_in_one_cluster (N : nat) (sim : list (list float))
  (eps : float) (minPts : Z) :
  length sim = N -> symmetric_neighbors N sim eps ->
  exists r,
    dbscanFromMatrix N sim eps minPts = Ok r
    /\ forall x y, x < N -> reach N sim eps minPts x y ->
         core N sim eps minPts y = true ->
         exists c, in_cluster r c x /\ in_cluster r c y.
Proof.
  intros Hrows Hsym.
  destruct (run_facts N sim eps minPts Hrows)
    as (st & cid & r & Hscan & I & Hrun & Hnoise & Hlencl & Hcl & Hin).
  exists r. split; [assumption |].
  intros x y Hx Hreach. induction Hreach as [Hcx | c0 q Hreach IH Hc0 Hq]; intros Hcy.
  - destruct (inv_final_cell _ _ _ _ _ _ _ _ x I Hx) as (a & Ha & [-> | Hrange]).
    + apply (inv_noise_unreach I) in Ha as [Ha _]. congruence.
    + assert (Hc : in_cluster r (Z.to_nat a) x).
      { apply Hin. split; [assumption |]. rewrite Ha. do 2 f_equal. lia. }
      eauto.
  - destruct (IH Hc0) as (c & Hcx & Hcc0). exists c. split; [assumption |].
    apply Hin in Hcc0 as [Hlt Hasg].
    assert (Hqlt : q < N) by (apply elem_of_neighbors_of in Hq; tauto).
    destruct (inv_link I Hsym c0 q) as [[_ Heq] | (_ & Hp & _)]; auto.
    + apply (inv_below I). assumption.
    + apply Hin. split; [assumption |]. congruence.
    + inversion Hp.
Qed.

(** X8.  On a matrix with a symmetric neighbour relation, core points that
    a chain of core points connects are in one cluster: when [x] reaches the
    core point [y], [dbscan] lists both under the same cluster id. *)
Theorem dbscan_core_points_stay_together (N : nat) (sim : list (list float))
  (eps : float) (minPts : Z) :
  length sim = N -> symmetric_neighbors N sim eps ->
  exists r,
    dbscanFromMatrix N sim eps minPts = Ok r
    /\ forall x y, x < N -> reach N sim eps minPts x y ->
         core N sim eps minPts y = true ->
         exists c, in_cluster r c x /\ in_cluster r c y.
Proof.
  intros Hrows Hsym.
  destruct (core_chain_in_one_cluster N sim eps minPts Hrows Hsym) as (r & Hr & Hlink).
  exists r. split; [exact Hr |]. intros x y Hx Hreach Hcore.
  apply Hlink; assumption.
Qed.

Lemma dbscan_core_points_stay_together_witness :
  exists r,
    dbscanFromMatrix 3 chain3 0.85 2 = Ok r
    /\ forall x y, x < 3 -> reach 3 chain3 0.85 2 x y ->
         core 3 chain3 0.85 2 y = true ->
         exists c, in_cluster r c x /\ in_cluster r c y.
Proof.
  apply (dbscan_core_points_stay_together 3 chain3 0.85 2 eq_refl).
  intros [| [| [| i]]] [| [| [| j]]] Hi Hj; try lia; vm_compute; reflexivity.
Defined.

(** X21.  Two copies of one vector are not separated when they are core
    points: for vectors of one dimension on the sequential path, when the
    vector passes the threshold against itself and one copy has [minPts]
    neighbours, [dbscan] lists both copies in the same cluster. *)
Theorem dbscan_keeps_copies_together (nav : Navigator)
  (points : list (list float)) (D : nat) (eps : float) (minPts : Z)
  (i j : nat) (p : list float) :
  Forall (fun q => length q = D) points ->
  points !! i = Some p -> points !! j = Some p ->
  js_ge (vectorSimilarity p p) eps = true ->
  core (length points) (computeDistanceMatrixCPU points) eps minPts i = true ->
  exists r c,
    dbscan nav points eps minPts false = Ok r
    /\ in_cluster r c i /\ in_cluster r c j.
Proof.
  intros Hdim Hi Hj Hself Hcore.
  set (m := computeDistanceMatrixCPU points) in *.
  set (N := length points) in *.
  destruct (computeDistanceMatrixCPU_entries points) as [[Hrows Hcols] Hent].
  fold m N in Hrows, Hcols, Hent.
  assert (HiN : i < N) by (eapply lookup_lt_Some; eassumption).
  assert (HjN : j < N) by (eapply lookup_lt_Some; eassumption).
  assert (Hsym : symmetric_neighbors N m eps).
  { apply symmetric_matrix_neighbors. intros a b Ha Hb.
    destruct (lookup_lt_is_Some_2 points a Ha) as [pa Hpa].
    destruct (lookup_lt_is_Some_2 points b Hb) as [pb Hpb].
    rewrite (Hent a b pa pb Hpa Hpb), (Hent b a pb pa Hpb Hpa). f_equal.
    apply vectorSimilarity_comm. rewrite Forall_forall in Hdim.
    rewrite (Hdim pa), (Hdim pb); [reflexivity | |]; apply list_elem_of_lookup; eauto. }
  assert (Hrow : forall k, is_neighbor m eps i k = is_neighbor m eps j k).
  { intros k. rewrite !is_neighbor_entry.
    destruct (points !! k) as [q |] eqn:Hk.
    - rewrite (Hent i k p q Hi Hk), (Hent j k p q Hj Hk). reflexivity.
    - apply lookup_ge_None in Hk. fold N in Hk.
      assert (Hnone : forall a, entry m a k = None).
      { intros a. unfold entry. destruct (m !! a) as [row |] eqn:Ha; [| reflexivity].
        apply lookup_ge_None. rewrite Forall_forall in Hcols.
        rewrite (Hcols row); [lia |]. apply list_elem_of_lookup. eauto. }
      rewrite !Hnone. reflexivity. }
  assert (Hcorej : core N m eps minPts j = true).
  { assert (Hsame : neighbors_of N m eps j = neighbors_of N m eps i).
    { unfold neighbors_of. apply list_filter_iff. intros k. rewrite Hrow. reflexivity. }
    unfold core. rewrite Hsame. exact Hcore. }
  assert (Hij : j ∈ neighbors_of N m eps i).
  { apply elem_of_neighbors_of. split; [assumption |].
    rewrite is_neighbor_entry, (Hent i j p p Hi Hj). assumption. }
  assert (Hreach : reach N m eps minPts i j).
  { eapply reach_step; [apply reach_root; assumption | assumption | assumption]. }
  destruct (core_chain_in_one_cluster N m eps minPts Hrows Hsym) as (r & Hr & Hlink).
  destruct (Hlink i j HiN Hreach Hcorej) as (c & Hci & Hcj).
  exists r, c. split; [| auto]. unfold dbscan, computeDistanceMatrix. simpl. exact Hr.
Qed.

Lemma dbscan_keeps_copies_together_witness :
  exists r c,
    dbscan no_gpu [[1; 0]; [0; 1]; [1; 0]]%float 0.85 2 false = Ok r
    /\ in_cluster r c 0 /\ in_cluster r c 2.
Proof.
  apply (dbscan_keeps_copies_together no_gpu [[1; 0]; [0; 1]; [1; 0]]%float 2 0.85 2
           0 2 [1; 0]%float);
    [repeat constructor | reflexivity | reflexivity | reflexivity | reflexivity].
Defined.

(** *** The table read back from the device *)

(** X9.  When the adapter, the device and the kernel all answer, and the
    kernel hands back [N * N] numbers, [computeDistanceMatrix] returns them
    cut into [N] rows of [N]: an N x N matrix whose cell [(i, j)] is the
    number at position [i * N + j], taken as it is. *)
Theorem computeDistanceMatrix_from_device (nav : Navigator) (gpu : Gpu)
  (adapter : Adapter) (device : Device) (points : list (list float))
  (p0 : list float) (rest : list (list float)) (similarities : list float) :
  nav_gpu nav = Some gpu ->
  requestAdapter gpu = inr (Some adapter) ->
  requestDevice adapter = inr device ->
  points = p0 :: rest ->
  runKernel device (length points) (length p0) (concat points) = inr similarities ->
  length similarities = length points * length points ->
  exists m,
    computeDistanceMatrix nav points true = Ok m
    /\ square (length points) m
    /\ forall i j, i < length points -> j < length points ->
         entry m i j = similarities !! (i * length points + j).
Proof.
  intros Hgpu Hadapter Hdevice Hpoints Hkernel Hlen.
  assert (Hrun : gpuAttempt gpu points
                 = Ok (map (fun i => take (length points)
                                       (drop (i * length points) similarities))
                           (seq 0 (length points)))).
  { unfold gpuAttempt. rewrite Hadapter. cbn [await bind].
    rewrite Hdevice. cbn [await bind]. subst points. cbv zeta.
    rewrite Hkernel. reflexivity. }
  set (N := length points) in *.
  exists (map (fun i => take N (drop (i * N) similarities)) (seq 0 N)).
  split; [| split].
  - unfold computeDistanceMatrix. rewrite Hgpu, Hrun. reflexivity.
  - split; [rewrite length_map, length_seq; reflexivity |].
    apply Forall_forall. intros row Hrow.
    apply list_elem_of_fmap in Hrow as (i & -> & Hi). apply elem_of_seq in Hi.
    rewrite length_take, length_drop, Hlen. nia.
  - intros i j Hi Hj. unfold entry.
    change (map ?f ?l) with (f <$> l). rewrite list_lookup_fmap.
    rewrite (proj2 (lookup_seq 0 N i i)) by (split; [reflexivity | assumption]).
    simpl. rewrite lookup_take_lt by assumption. rewrite lookup_drop. reflexivity.
Qed.

Lemma computeDistanceMatrix_from_device_witness :
  exists m,
    computeDistanceMatrix ones_gpu points3 true = Ok m
    /\ square (length points3) m
    /\ forall i j, i < length points3 -> j < length points3 ->
         entry m i j = replicate 9 1%float !! (i * length points3 + j).
Proof.
  apply (computeDistanceMatrix_from_device ones_gpu _ _ ones_device points3 _ _
           (replicate 9 1%float) eq_refl eq_refl eq_refl eq_refl);
    reflexivity.
Defined.

(** *** Vectors of different lengths *)

Lemma float_mul_nan_r (x : float) : (x * nan = nan)%float.
Proof.
  apply Prim2SF_inj. rewrite mul_spec. change (Prim2SF nan) with S754_nan.
  destruct (Prim2SF x) as [[] | [] | | [] ? ?]; reflexivity.
Qed.

Lemma float_add_nan_r (x : float) : (x + nan = nan)%float.
Proof.
  apply Prim2SF_inj. rewrite add_spec. change (Prim2SF nan) with S754_nan.
  destruct (Prim2SF x) as [[] | [] | | [] ? ?]; reflexivity.
Qed.

Lemma float_add_nan_l (x : float) : (nan + x = nan)%float.
Proof.
  apply Prim2SF_inj. rewrite add_spec. change (Prim2SF nan) with S754_nan.
  reflexivity.
Qed.

(** The coordinates of the second vector past the length of the first are
    not read. *)
Lemma vectorSimilarity_take (p q : list float) :
  vectorSimilarity p q = vectorSimilarity p (take (length p) q).
Proof.
  unfold vectorSimilarity.
  assert (Hin : forall k, k ∈ seq 0 (length p) -> k < length p).
  { intros k Hk. apply elem_of_seq in Hk. lia. }
  revert Hin. generalize (seq 0 (length p)) 0%float. intros l.
  induction l as [| k l IH]; intros acc Hin; simpl; [reflexivity |].
  assert (Hk : k < length p) by (apply Hin; left).
  assert (Hq : num_at (take (length p) q) k = num_at q k).
  { unfold num_at. rewrite lookup_take_lt by assumption. reflexivity. }
  rewrite Hq. apply IH. intros k' Hk'. apply Hin. right. assumption.
Qed.

(** X10.  [vectorSimilarity] does not compare the lengths of its
    arguments.  When the second vector is shorter than the first the result
    is NaN, while in the other order the result is the dot product over the
    shorter length, the coordinates past it being ignored.  In the matrix of
    [computeDistanceMatrixCPU] the cell of such a pair is therefore NaN on
    one side of the diagonal only, and passes no threshold. *)
Theorem vectorSimilarity_lengths (p q : list float) :
  length q < length p ->
  vectorSimilarity p q = nan
  /\ vectorSimilarity q p = vectorSimilarity q (take (length q) p)
  /\ forall points i j eps,
       points !! i = Some p -> points !! j = Some q ->
       entry (computeDistanceMatrixCPU points) i j = Some nan
       /\ is_neighbor (computeDistanceMatrixCPU points) eps i j = false.
Proof.
  intros Hlen.
  assert (Hnan : vectorSimilarity p q = nan).
  { unfold vectorSimilarity.
    assert (Hsplit : seq 0 (length p)
                     = seq 0 (length q) ++ length q :: seq (S (length q)) (length p - S (length q))).
    { replace (length p) with (length q + S (length p - S (length q))) at 1 by lia.
      rewrite seq_app. reflexivity. }
    rewrite Hsplit, fold_left_app. simpl.
    generalize (fold_left
                  (fun dotProduct i => (dotProduct + num_at p i * num_at q i)%float)
                  (seq 0 (length q)) 0%float). intros acc.
    assert (Hq : num_at q (length q) = nan).
    { unfold num_at. rewrite (proj2 (lookup_ge_None q (length q))) by lia. reflexivity. }
    rewrite Hq, float_mul_nan_r, float_add_nan_r.
    generalize (seq (S (length q)) (length p - S (length q))). intros l.
    induction l as [| k l IH]; simpl; [reflexivity |].
    rewrite float_add_nan_l. assumption. }
  split; [assumption |]. split; [apply vectorSimilarity_take |].
  intros points i j eps Hp Hq.
  destruct (computeDistanceMatrixCPU_entries points) as [_ Hent].
  pose proof (Hent i j p q Hp Hq) as He. rewrite Hnan in He.
  split; [assumption |].
  rewrite is_neighbor_entry, He. apply js_ge_nan.
Qed.

Lemma vectorSimilarity_lengths_witness :
  vectorSimilarity [1; 2]%float [1]%float = nan
  /\ vectorSimilarity [1]%float [1; 2]%float
     = vectorSimilarity [1]%float (take (length [1]%float) [1; 2]%float)
  /\ forall points i j eps,
       points !! i = Some [1; 2]%float -> points !! j = Some [1]%float ->
       entry (computeDistanceMatrixCPU points) i j = Some nan
       /\ is_neighbor (computeDistanceMatrixCPU points) eps i j = false.
Proof. apply (vectorSimilarity_lengths [1; 2]%float [1]%float). simpl. lia. Defined.

(** ** The worker *)

Import Worker.

(** *** Filling an array by index *)

Lemma length_array_set {A : Type} (a : list (option A)) (i : nat) (v : A) :
  length (array_set a i v) = max (length a) (S i).
Proof.
  unfold array_set. destruct (decide (i < length a)).
  - rewrite length_insert. lia.
  - rewrite !length_app, length_replicate. simpl. lia.
Qed.

Lemma lookup_array_set_eq {A : Type} (a : list (option A)) (i : nat) (v : A) :
  array_set a i v !! i = Some (Some v).
Proof.
  unfold array_set. destruct (decide (i < length a)).
  - apply list_lookup_insert_eq. assumption.
  - rewrite lookup_app_r by lia. rewrite lookup_app_r by (rewrite length_replicate; lia).
    rewrite length_replicate. replace (i - length a - (i - length a)) with 0 by lia.
    reflexivity.
Qed.

(** A write keeps what the other cells hold. *)
Lemma lookup_array_set_ne {A : Type} (a : list (option A)) (i j : nat) (v : A)
  (x : option A) :
  i <> j -> a !! j = Some x -> array_set a i v !! j = Some x.
Proof.
  intros Hne Hj. unfold array_set. destruct (decide (i < length a)).
  - rewrite list_lookup_insert_ne by assumption. assumption.
  - apply lookup_app_l_Some. assumption.
Qed.

Lemma length_fill {A : Type} (indices : list nat) (v : A) (a : list (option A))
  (n : nat) :
  (forall i, i ∈ indices -> i < n) -> length a <= n ->
  length a <= length (fill indices v a) <= n.
Proof.
  unfold fill. revert a. induction indices as [| i indices IH]; intros a Hi Ha; simpl.
  - lia.
  - assert (Hlen : length (array_set a i v) = max (length a) (S i))
      by apply length_array_set.
    assert (i < n) by (apply Hi; left).
    destruct (IH (array_set a i v)) as [H1 H2].
    + intros j Hj. apply Hi. right. assumption.
    + lia.
    + lia.
Qed.

Lemma lookup_fill_in {A : Type} (indices : list nat) (v : A)
  (a : list (option A)) (i : nat) :
  i ∈ indices -> fill indices v a !! i = Some (Some v).
Proof.
  unfold fill. revert a. induction indices as [| j indices IH]; intros a Hi; simpl.
  - inversion Hi.
  - destruct (decide (i ∈ indices)) as [Hin | Hout]; [apply IH; assumption |].
    apply elem_of_cons in Hi as [-> | Hi]; [| contradiction].
    clear IH. generalize (lookup_array_set_eq a j v).
    generalize (array_set a j v). clear a.
    induction indices as [| k indices IH]; intros a Ha; simpl; [assumption |].
    apply IH.
    + intros Hin. apply Hout. right. assumption.
    + apply lookup_array_set_ne; [| assumption].
      intros ->. apply Hout. left.
Qed.

Lemma lookup_fill_out {A : Type} (indices : list nat) (v : A)
  (a : list (option A)) (i : nat) (x : option A) :
  i ∉ indices -> a !! i = Some x -> fill indices v a !! i = Some x.
Proof.
  unfold fill. revert a. induction indices as [| k indices IH]; intros a Hout Ha; simpl;
    [assumption |].
  apply IH.
  - intros Hin. apply Hout. right. assumption.
  - apply lookup_array_set_ne; [| assumption]. intros ->. apply Hout. left.
Qed.

(** *** The distinct texts and their indices *)

Lemma uniqueTexts_from (texts set : list string) :
  NoDup set ->
  let result :=
    fold_left (fun set text => if bool_decide (text ∈ set) then set else set ++ [text])
              texts set in
  NoDup result /\ forall t, t ∈ result <-> t ∈ set \/ t ∈ texts.
Proof.
  revert set. induction texts as [| x texts IH]; intros set Hset; simpl.
  - split; [assumption |]. intros t. rewrite elem_of_nil. tauto.
  - destruct (bool_decide_reflect (x ∈ set)) as [Hin | Hout].
    + destruct (IH set Hset) as [Hnd Hel]. split; [assumption |].
      intros t. rewrite Hel, elem_of_cons. split; [tauto |].
      intros [? | [-> | ?]]; tauto.
    + destruct (IH (set ++ [x])) as [Hnd Hel].
      { apply NoDup_app. split; [assumption |]. split; [| apply NoDup_singleton].
        intros y Hy Hyx. apply list_elem_of_singleton in Hyx as ->. contradiction. }
      split; [assumption |].
      intros t. rewrite Hel, elem_of_app, list_elem_of_singleton, elem_of_cons. tauto.
Qed.

Lemma uniqueTexts_NoDup (texts : list string) : NoDup (uniqueTexts texts).
Proof. apply (uniqueTexts_from texts []). constructor. Qed.

Lemma elem_of_uniqueTexts (texts : list string) (t : string) :
  t ∈ uniqueTexts texts <-> t ∈ texts.
Proof.
  unfold uniqueTexts.
  destruct (uniqueTexts_from texts [] ltac:(constructor)) as [_ Hel].
  cbv zeta in Hel. rewrite Hel, elem_of_nil. tauto.
Qed.

Lemma elem_of_occurrences (texts : list string) (t : string) (i : nat) :
  i ∈ occurrences texts t <-> texts !! i = Some t.
Proof.
  unfold occurrences. rewrite list_elem_of_filter, elem_of_seq. split; [tauto |].
  intros Hi. split; [assumption |]. apply lookup_lt_Some in Hi. lia.
Qed.

Lemma occurrences_snoc (l : list string) (x t : string) :
  occurrences (l ++ [x]) t
  = occurrences l t ++ (if decide (t = x) then [length l] else []).
Proof.
  unfold occurrences. rewrite length_app. simpl.
  rewrite Nat.add_1_r, seq_S, filter_app. simpl. f_equal.
  - apply filter_ext_in. intros i Hi. apply elem_of_seq in Hi.
    rewrite lookup_app_l by lia. reflexivity.
  - rewrite filter_cons, filter_nil.
    assert (Hlast : (l ++ [x]) !! length l = Some x).
    { rewrite lookup_app_r by lia. rewrite Nat.sub_diag. reflexivity. }
    rewrite Hlast. destruct (decide (Some x = Some t)) as [[= ->] | Hne].
    + rewrite decide_True by reflexivity. reflexivity.
    + rewrite decide_False by congruence. reflexivity.
Qed.

Lemma occurrences_not_in (texts : list string) (t : string) :
  t ∉ texts -> occurrences texts t = [].
Proof.
  intros Hout. destruct (occurrences texts t) as [| i l] eqn:E; [reflexivity |].
  exfalso. apply Hout. assert (Hi : i ∈ occurrences texts t) by (rewrite E; left).
  apply elem_of_occurrences in Hi. apply list_elem_of_lookup. eauto.
Qed.

(** [textToIndexMap] maps every text of [texts] to the indices that hold it. *)
Lemma textToIndexMap_lookup (texts : list string) (t : string) :
  textToIndexMap texts !! t
  = if decide (t ∈ texts) then Some (occurrences texts t) else None.
Proof.
  unfold textToIndexMap. induction texts as [| x l IH] using rev_ind.
  - destruct (decide (t ∈ [])) as [Hin | _]; [inversion Hin |].
    apply lookup_empty.
  - rewrite length_app. simpl. rewrite Nat.add_1_r, seq_S. simpl.
    rewrite zip_with_app by (rewrite length_seq; reflexivity).
    rewrite fold_left_app. simpl.
    set (map := fold_left _ (zip (seq 0 (length l)) l) ∅) in *.
    rewrite occurrences_snoc.
    assert (Hx : forall indices, map !! x = indices ->
              (match indices with
               | Some indices => <[x := indices ++ [length l]]> map
               | None => <[x := [length l]]> map
               end) !! t
              = if decide (t ∈ l ++ [x])
                then Some (occurrences l t ++ (if decide (t = x) then [length l] else []))
                else None).
    { intros indices Hindices.
      destruct (decide (t = x)) as [-> | Hne].
      - rewrite decide_True by (apply elem_of_app; right; left).
        destruct indices as [indices |].
        + rewrite lookup_insert_eq. rewrite Hindices in IH.
          destruct (decide (x ∈ l)); [| discriminate]. congruence.
        + rewrite lookup_insert_eq. rewrite Hindices in IH.
          destruct (decide (x ∈ l)) as [| Hout]; [discriminate |].
          rewrite (occurrences_not_in l x Hout). reflexivity.
      - assert (Hsame : forall v : list nat, <[x := v]> map !! t = map !! t).
        { intros v. apply lookup_insert_ne. congruence. }
        destruct indices; rewrite Hsame, IH, app_nil_r;
          destruct (decide (t ∈ l)) as [Hin | Hout].
        + rewrite decide_True by (apply elem_of_app; left; assumption). reflexivity.
        + rewrite decide_False; [reflexivity |].
          rewrite elem_of_app, list_elem_of_singleton. tauto.
        + rewrite decide_True by (apply elem_of_app; left; assumption). reflexivity.
        + rewrite decide_False; [reflexivity |].
          rewrite elem_of_app, list_elem_of_singleton. tauto. }
    apply Hx. reflexivity.
Qed.

Lemma sum_indicator (us : list string) (x : string) :
  NoDup us -> x ∈ us ->
  sum_list_with (fun t => if decide (t = x) then 1 else 0) us = 1.
Proof.
  induction us as [| u us IH]; intros Hnd Hx; [inversion Hx |].
  apply NoDup_cons in Hnd as [Hu Hnd]. simpl.
  destruct (decide (u = x)) as [-> | Hne].
  - assert (Hzero : forall l : list string, x ∉ l ->
              sum_list_with (fun t => if decide (t = x) then 1 else 0) l = 0).
    { intros l. induction l as [| y l IHl]; intros Hl; [reflexivity |]. simpl.
      rewrite decide_False by (intros ->; apply Hl; left).
      apply IHl. intros Hin. apply Hl. right. assumption. }
    rewrite Hzero by assumption. reflexivity.
  - apply elem_of_cons in Hx as [-> | Hx]; [congruence |]. rewrite IH by assumption.
    reflexivity.
Qed.

(** Every index of [texts] is counted once, under its text. *)
Lemma sum_occurrences (texts us : list string) :
  NoDup us -> (forall t, t ∈ texts -> t ∈ us) ->
  sum_list_with (fun t => length (occurrences texts t)) us = length texts.
Proof.
  intros Hnd. induction texts as [| x l IH] using rev_ind; intros Hsub.
  - clear. induction us as [| u us IHus]; [reflexivity | exact IHus].
  - assert (Hsplit : forall vs : list string,
              sum_list_with (fun t => length (occurrences (l ++ [x]) t)) vs
              = sum_list_with (fun t => length (occurrences l t)) vs
                + sum_list_with (fun t => if decide (t = x) then 1 else 0) vs).
    { intros vs. induction vs as [| v vs IHvs]; [reflexivity |]. simpl.
      rewrite IHvs, occurrences_snoc, length_app.
      destruct (decide (v = x)); simpl; lia. }
    rewrite Hsplit, length_app. simpl. f_equal.
    + apply IH. intros t Ht. apply Hsub. apply elem_of_app. left. assumption.
    + apply sum_indicator; [assumption |].
      apply Hsub. apply elem_of_app. right. left.
Qed.

(** *** The order of the results *)

Lemma sort_insert_perm (x : Cluster) (l : list Cluster) : sort_insert x l ≡ₚ x :: l.
Proof.
  induction l as [| y l IH]; simpl; [reflexivity |].
  destruct (size y <=? size x); [reflexivity |].
  rewrite IH. apply Permutation_swap.
Qed.

Lemma sort_perm (l : list Cluster) : sort l ≡ₚ l.
Proof.
  induction l as [| x l IH]; simpl; [reflexivity |].
  rewrite sort_insert_perm, IH. reflexivity.
Qed.

Lemma sort_insert_sorted (x : Cluster) (l : list Cluster) :
  StronglySorted (fun a b => size b <= size a) l ->
  StronglySorted (fun a b => size b <= size a) (sort_insert x l).
Proof.
  induction 1 as [| y l Hs IH Hy]; simpl.
  - constructor; constructor.
  - destruct (Nat.leb_spec (size y) (size x)) as [Hle | Hgt].
    + constructor; [constructor; assumption |].
      constructor; [assumption |].
      eapply Forall_impl; [exact Hy |]. simpl. intros z Hz. lia.
    + constructor; [assumption |].
      rewrite sort_insert_perm. constructor; [lia | assumption].
Qed.

Lemma sort_sorted (l : list Cluster) :
  StronglySorted (fun a b => size b <= size a) (sort l).
Proof.
  induction l as [| x l IH]; simpl; [constructor |].
  apply sort_insert_sorted. assumption.
Qed.

(** Results of one size keep the order of their cluster ids. *)
Lemma sort_stable (l : list Cluster) (k : nat) :
  filter (fun c => size c = k) (sort l) = filter (fun c => size c = k) l.
Proof.
  induction l as [| x l IH]; simpl; [reflexivity |].
  rewrite filter_cons, <- IH. generalize (sort l). clear IH l. intros l.
  induction l as [| y l IH]; simpl.
  - rewrite filter_cons, filter_nil. reflexivity.
  - destruct (Nat.leb_spec (size y) (size x)) as [Hle | Hgt].
    + rewrite !filter_cons. reflexivity.
    + rewrite !filter_cons, IH.
      destruct (decide (size x = k)), (decide (size y = k)); try reflexivity. lia.
Qed.

(** *** The loop of [computeEmbeddings] *)

Lemma forEach_cons {A S : Type} (x : A) (l : list A) (body : A -> S -> Run S)
  (s : S) (m : Memory) :
  forEach (x :: l) body s m
  = match body x s m with
    | (Ok s', m') => forEach l body s' m'
    | (Throw e, m') => (Throw e, m')
    | (OutOfFuel, m') => (OutOfFuel, m')
    end.
Proof. reflexivity. Qed.

Section Embed.

Variable host : Host.
Variable extractor : Extractor.
Variable startTime : float.
Variable texts : list string.

(** One turn: the clock is read, a ['computing'] message is posted, and the
    vector comes from the cache or, failing that, from the extractor. *)
Lemma embedStep_spec (text : string) (pc : nat)
  (emb : list (option (list float))) (m : Memory) (o : outcome _) (m' : Memory) :
  text ∈ texts ->
  embedStep host extractor startTime (textToIndexMap texts) (length texts)
            text (pc, emb) m = (o, m') ->
  let indices := occurrences texts text in
  (instance m' = instance m /\ device m' = device m /\ useGPU m' = useGPU m
   /\ lastTexts m' = lastTexts m /\ lastEmbeddings m' = lastEmbeddings m
   /\ attempts m' = attempts m)
  /\ (exists p, posted m' = posted m ++ [computing p]
                /\ current p = pc + length indices /\ total p = length texts)
  /\ match vectorCache m !! text with
     | Some v =>
       o = Ok (pc + length indices, fill indices v emb)
       /\ vectorCache m' = vectorCache m /\ extracted m' = extracted m
     | None =>
       extracted m' = extracted m ++ [text]
       /\ match extract extractor (extracted m) text with
          | inr v => o = Ok (pc + length indices, fill indices v emb)
                     /\ vectorCache m' = <[text := v]> (vectorCache m)
          | inl err => o = Throw (Error ("处理文本时出错: " +:+ message err))
                       /\ vectorCache m' = vectorCache m
          end
     end.
Proof.
  intros Hin. unfold embedStep. rewrite textToIndexMap_lookup.
  rewrite decide_True by assumption.
  unfold bindR, performance_now, postMessage, read, call_extractor, cache_set, ret, throw.
  destruct m as [ins dev gpu cache lt le clk att ext post]. simpl.
  destruct (cache !! text) as [v |] eqn:Hcache; simpl.
  - intros [= <- <-]. simpl. split; [tauto |]. split; [| tauto]. eexists. split; reflexivity || (split; reflexivity).
  - destruct (extract extractor ext text) as [err | v] eqn:Hex; simpl;
      intros [= <- <-]; simpl; (split; [tauto |]); split; try tauto;
      eexists; split; reflexivity || (split; reflexivity).
Qed.

Lemma occurrences_nonempty (text : string) :
  text ∈ texts -> 0 < length (occurrences texts text).
Proof.
  intros Hin. apply list_elem_of_lookup in Hin as [i Hi].
  apply elem_of_occurrences in Hi.
  destruct (occurrences texts text); [inversion Hi | simpl; lia].
Qed.

Lemma occurrences_lt (text : string) (i : nat) :
  i ∈ occurrences texts text -> i < length texts.
Proof. intros Hi. apply elem_of_occurrences in Hi. eapply lookup_lt_Some. eassumption. Qed.

(** What the loop over the distinct texts [us] does, from any state. *)
Lemma embed_loop (us : list string) :
  NoDup us -> (forall t, t ∈ us -> t ∈ texts) ->
  forall pc emb m o m',
    forEach us (embedStep host extractor startTime (textToIndexMap texts) (length texts))
            (pc, emb) m = (o, m') ->
    length emb <= length texts ->
    (instance m' = instance m /\ device m' = device m /\ useGPU m' = useGPU m
     /\ lastTexts m' = lastTexts m /\ lastEmbeddings m' = lastEmbeddings m
     /\ attempts m' = attempts m)
    /\ (forall t v, vectorCache m !! t = Some v -> vectorCache m' !! t = Some v)
    /\ (forall t, t ∉ us -> vectorCache m' !! t = vectorCache m !! t)
    /\ (exists called,
          extracted m' = extracted m ++ called
          /\ called `prefix_of` filter (fun t => vectorCache m !! t = None) us
          /\ ((exists s, o = Ok s) ->
              called = filter (fun t => vectorCache m !! t = None) us))
    /\ (exists ps,
          posted m' = posted m ++ (computing <$> ps)
          /\ Forall (fun p => total p = length texts /\ pc < current p) ps
          /\ StronglySorted lt (current <$> ps)
          /\ forall pc' emb', o = Ok (pc', emb') ->
               length ps = length us
               /\ match last ps with
                  | Some p => current p = pc'
                  | None => pc' = pc
                  end)
    /\ match o with
       | Ok (pc', emb') =>
         pc' = pc + sum_list_with (fun t => length (occurrences texts t)) us
         /\ length emb' <= length texts
         /\ (forall i t, texts !! i = Some t -> t ∈ us ->
               exists v, emb' !! i = Some (Some v) /\ vectorCache m' !! t = Some v)
         /\ (forall i x, (forall t, texts !! i = Some t -> t ∉ us) ->
               emb !! i = Some x -> emb' !! i = Some x)
       | Throw e =>
         exists called t err,
           extracted m' = extracted m ++ called ++ [t]
           /\ t ∈ us /\ vectorCache m !! t = None
           /\ extract extractor (extracted m ++ called) t = inl err
           /\ e = Error ("处理文本时出错: " +:+ message err)
       | OutOfFuel => False
       end.
Proof.
  induction us as [| u us IH]; intros Hnd Hsub pc emb m o m' Hrun Hlen.
  - simpl in Hrun. injection Hrun as <- <-.
    split; [tauto |]. split; [tauto |]. split; [tauto |].
    split; [exists []; rewrite app_nil_r; auto |].
    split.
    { exists []. simpl. rewrite app_nil_r. split; [reflexivity |].
      split; [constructor |]. split; [constructor |].
      intros pc' emb' [= <- <-]. auto. }
    simpl. split; [lia |]. split; [assumption |]. split; [| auto].
    intros i t _ Hin. inversion Hin.
  - apply NoDup_cons in Hnd as [Hu Hnd].
    assert (Hut : u ∈ texts) by (apply Hsub; left).
    assert (Hsub' : forall t, t ∈ us -> t ∈ texts) by (intros t Ht; apply Hsub; right; assumption).
    pose proof (occurrences_nonempty u Hut) as Hpos.
    rewrite forEach_cons in Hrun.
    destruct (embedStep host extractor startTime (textToIndexMap texts) (length texts)
                        u (pc, emb) m) as [o1 m1] eqn:Hstep.
    destruct (embedStep_spec u pc emb m o1 m1 Hut Hstep)
      as (Hframe1 & (p1 & Hposted1 & Hcur1 & Htot1) & Hcase).
    cbv zeta in *.
    (* the turn that succeeds, with the vector [v] *)
    assert (Hok : forall v,
              o1 = Ok (pc + length (occurrences texts u), fill (occurrences texts u) v emb) ->
              vectorCache m1 !! u = Some v ->
              (forall t, t <> u -> vectorCache m1 !! t = vectorCache m !! t) ->
              (forall t w, vectorCache m !! t = Some w -> vectorCache m1 !! t = Some w) ->
              forall called1,
                extracted m1 = extracted m ++ called1 ->
                called1 = (if decide (vectorCache m !! u = None) then [u] else []) ->
                (instance m' = instance m /\ device m' = device m /\ useGPU m' = useGPU m
     /\ lastTexts m' = lastTexts m /\ lastEmbeddings m' = lastEmbeddings m
     /\ attempts m' = attempts m)
    /\ (forall t v, vectorCache m !! t = Some v -> vectorCache m' !! t = Some v)
    /\ (forall t, t ∉ u :: us -> vectorCache m' !! t = vectorCache m !! t)
    /\ (exists called,
          extracted m' = extracted m ++ called
          /\ called `prefix_of` filter (fun t => vectorCache m !! t = None) (u :: us)
          /\ ((exists s, o = Ok s) ->
              called = filter (fun t => vectorCache m !! t = None) (u :: us)))
    /\ (exists ps,
          posted m' = posted m ++ (computing <$> ps)
          /\ Forall (fun p => total p = length texts /\ pc < current p) ps
          /\ StronglySorted lt (current <$> ps)
          /\ forall pc' emb', o = Ok (pc', emb') ->
               length ps = length (u :: us)
               /\ match last ps with
                  | Some p => current p = pc'
                  | None => pc' = pc
                  end)
    /\ match o with
       | Ok (pc', emb') =>
         pc' = pc + sum_list_with (fun t => length (occurrences texts t)) (u :: us)
         /\ length emb' <= length texts
         /\ (forall i t, texts !! i = Some t -> t ∈ u :: us ->
               exists v, emb' !! i = Some (Some v) /\ vectorCache m' !! t = Some v)
         /\ (forall i x, (forall t, texts !! i = Some t -> t ∉ u :: us) ->
               emb !! i = Some x -> emb' !! i = Some x)
       | Throw e =>
         exists called t err,
           extracted m' = extracted m ++ called ++ [t]
           /\ t ∈ u :: us /\ vectorCache m !! t = None
           /\ extract extractor (extracted m ++ called) t = inl err
           /\ e = Error ("处理文本时出错: " +:+ message err)
       | OutOfFuel => False
       end).
    { intros v -> Hcu Hcother Hckeep called1 Hext1 Hcalled1.
      set (pc1 := pc + length (occurrences texts u)) in *.
      set (emb1 := fill (occurrences texts u) v emb) in *.
      assert (Hlen1 : length emb <= length emb1 <= length texts).
      { apply length_fill; [apply occurrences_lt | assumption]. }
      destruct (IH Hnd Hsub' pc1 emb1 m1 o m' Hrun ltac:(lia))
        as (Hframe & Hkeep & Hout & (called & Hext & Hpre & Hall)
            & (ps & Hposted & Hps & Hsorted & Hlast) & Hres).
      assert (Hfilter : forall t, t ∈ us ->
                (vectorCache m1 !! t = None <-> vectorCache m !! t = None)).
      { intros t Ht. rewrite Hcother; [tauto |]. intros ->. contradiction. }
      assert (Hfilter' : filter (fun t => vectorCache m1 !! t = None) us
                         = filter (fun t => vectorCache m !! t = None) us).
      { apply filter_ext_in. assumption. }
      rewrite Hfilter' in *.
      assert (Hhead : filter (fun t => vectorCache m !! t = None) (u :: us)
                      = called1 ++ filter (fun t => vectorCache m !! t = None) us).
      { rewrite filter_cons, Hcalled1.
        destruct (decide (vectorCache m !! u = None)); reflexivity. }
      split; [intuition congruence |].
      split; [intros t w Ht; apply Hkeep, Hckeep; assumption |].
      split.
      { intros t Ht. rewrite Hout by (intros Hin; apply Ht; right; assumption).
        apply Hcother. intros ->. apply Ht. left. }
      split.
      { exists (called1 ++ called). rewrite Hext, Hext1, app_assoc.
        split; [reflexivity |]. rewrite Hhead. split.
        - apply prefix_app. assumption.
        - intros Hs. rewrite (Hall Hs). reflexivity. }
      split.
      { exists (p1 :: ps). rewrite Hposted, Hposted1. simpl.
        rewrite <- app_assoc. split; [reflexivity |]. split; [| split].
        - constructor; [split; [assumption | lia] |].
          eapply Forall_impl; [exact Hps |]. simpl. intros p [? ?]. split; [assumption | lia].
        - constructor; [assumption |]. apply Forall_fmap.
          eapply Forall_impl; [exact Hps |]. simpl. intros p [_ ?]. lia.
        - intros pc' emb' Ho. destruct (Hlast pc' emb' Ho) as [Hl Hla].
          split; [simpl; lia |].
          destruct ps as [| p2 ps']; [simpl in *; lia |].
          change (last (p1 :: p2 :: ps')) with (last (p2 :: ps')).
          destruct (last (p2 :: ps')) eqn:E; [assumption |].
          apply last_None in E. discriminate. }
      destruct o as [[pc' emb'] | e |]; [| | assumption].
      - destruct Hres as (Hpc & Hlen' & Hfilled & Hkept).
        split; [simpl; lia |]. split; [assumption |]. split.
        + intros i t Hi Ht. apply elem_of_cons in Ht as [-> | Ht]; [| auto].
          exists v. split.
          * apply Hkept.
            -- intros t Ht. rewrite Hi in Ht. injection Ht as <-. assumption.
            -- apply lookup_fill_in. apply elem_of_occurrences. assumption.
          * rewrite Hout by assumption. assumption.
        + intros i x Hi Hx. apply Hkept.
          * intros t Ht Hin. apply (Hi t Ht). right. assumption.
          * apply lookup_fill_out; [| assumption].
            intros Hin. apply elem_of_occurrences in Hin.
            apply (Hi u Hin). left.
      - destruct Hres as (called' & t & err & Hext' & Ht & Hnone & Hex & ->).
        exists (called1 ++ called'), t, err.
        rewrite Hext', Hext1, <- !app_assoc. split; [reflexivity |].
        split; [right; assumption |].
        split; [apply Hfilter; assumption |].
        split; [| reflexivity]. rewrite app_assoc, <- Hext1. assumption. }
    destruct (vectorCache m !! u) as [v |] eqn:Hcache.
    + destruct Hcase as (Ho1 & Hc1 & Hext1).
      rewrite Ho1 in Hrun.
      apply (Hok v Ho1) with (called1 := []).
      * rewrite Hc1. assumption.
      * intros t _. rewrite Hc1. reflexivity.
      * intros t w. rewrite Hc1. auto.
      * rewrite Hext1, app_nil_r. reflexivity.
      * rewrite decide_False by discriminate. reflexivity.
    + destruct Hcase as (Hext1 & Hcase).
      destruct (extract extractor (extracted m) u) as [err | v] eqn:Hex.
      * destruct Hcase as (-> & Hc1). injection Hrun as <- <-.
        split; [tauto |]. split; [rewrite Hc1; auto |].
        split; [rewrite Hc1; auto |].
        split.
        { exists [u]. split; [assumption |]. rewrite filter_cons.
          rewrite decide_True by assumption. split.
          - exists (filter (fun t => vectorCache m !! t = None) us). reflexivity.
          - intros [s Hs]. discriminate. }
        split.
        { exists [p1]. split; [assumption |]. split; [| split].
          - constructor; [| constructor]. split; [assumption | lia].
          - constructor; constructor.
          - intros pc' emb' Ho. discriminate. }
        exists [], u, err. rewrite app_nil_r. simpl.
        split; [assumption |]. split; [left |]. auto.
      * destruct Hcase as (Ho1 & Hc1). rewrite Ho1 in Hrun.
        apply (Hok v Ho1) with (called1 := [u]).
        -- rewrite Hc1. apply lookup_insert_eq.
        -- intros t Ht. rewrite Hc1. apply lookup_insert_ne. congruence.
        -- intros t w Ht. rewrite Hc1. rewrite lookup_insert_ne by congruence. assumption.
        -- exact Hext1.
        -- rewrite decide_True by reflexivity. reflexivity.
Qed.

End Embed.

(** An array with a vector at every index below its length has no hole. *)
Lemma filled_dense {A : Type} (a : list (option A)) :
  (forall i, i < length a -> exists v, a !! i = Some (Some v)) ->
  exists l, a = Some <$> l.
Proof.
  induction a as [| x a IH]; intros Hfilled.
  - exists []. reflexivity.
  - destruct IH as [l ->].
    { intros i Hi. apply (Hfilled (S i)). simpl. lia. }
    destruct (Hfilled 0) as [v Hv]; [simpl; lia |].
    injection Hv as ->. exists (v :: l). reflexivity.
Qed.

Lemma dense_fmap_Some {A : Type} (l : list A) : dense (Some <$> l) = Some l.
Proof.
  induction l as [| x l IH]; [reflexivity |].
  change (dense (Some <$> x :: l))
    with (match dense (Some <$> l) with
          | Some l' => Some (x :: l')
          | None => None
          end).
  rewrite IH. reflexivity.
Qed.

(** What a call of [computeEmbeddings] does, whatever its outcome. *)
Lemma computeEmbeddings_run (host : Host) (texts : list string)
  (extractor : Extractor) (m : Memory) (o : outcome _) (m' : Memory) :
  computeEmbeddings host texts extractor m = (o, m') ->
  (instance m' = instance m /\ device m' = device m /\ useGPU m' = useGPU m
   /\ lastTexts m' = lastTexts m /\ lastEmbeddings m' = lastEmbeddings m
   /\ attempts m' = attempts m)
  /\ (forall t v, vectorCache m !! t = Some v -> vectorCache m' !! t = Some v)
  /\ (forall t, t ∉ texts -> vectorCache m' !! t = vectorCache m !! t)
  /\ (exists called,
        extracted m' = extracted m ++ called
        /\ called `prefix_of` filter (fun t => vectorCache m !! t = None) (uniqueTexts texts)
        /\ ((exists s, o = Ok s) ->
            called = filter (fun t => vectorCache m !! t = None) (uniqueTexts texts)))
  /\ (exists ps,
        posted m' = posted m ++ (computing <$> ps)
        /\ Forall (fun p => total p = length texts /\ 0 < current p) ps
        /\ StronglySorted lt (current <$> ps)
        /\ ((exists s, o = Ok s) ->
            length ps = length (uniqueTexts texts)
            /\ match last ps with
               | Some p => current p = length texts
               | None => texts = []
               end))
  /\ match o with
     | Ok (embeddings, _) =>
       exists points,
         embeddings = Some <$> points
         /\ length points = length texts
         /\ forall i t, texts !! i = Some t ->
              exists v, points !! i = Some v /\ vectorCache m' !! t = Some v
     | Throw e =>
       exists called t err,
         extracted m' = extracted m ++ called ++ [t]
         /\ t ∈ texts /\ vectorCache m !! t = None
         /\ extract extractor (extracted m ++ called) t = inl err
         /\ e = Error ("处理文本时出错: " +:+ message err)
     | OutOfFuel => False
     end.
Proof.
  unfold computeEmbeddings, bindR. unfold performance_now at 1.
  set (m0 := mkMemory _ _ _ _ _ _ (S (clock m)) _ _ _).
  destruct (forEach (uniqueTexts texts) _ (0, []) m0) as [o1 m1] eqn:Hloop.
  pose proof (embed_loop host extractor (now host (clock m)) texts (uniqueTexts texts)
                (uniqueTexts_NoDup texts)
                (fun t => proj1 (elem_of_uniqueTexts texts t))
                0 [] m0 o1 m1 Hloop ltac:(simpl; lia))
    as (Hframe & Hkeep & Hout & (called & Hext & Hpre & Hall)
        & (ps & Hposted & Hps & Hsorted & Hlast) & Hres).
  subst m0. simpl in Hframe, Hkeep, Hout, Hext, Hpre, Hall, Hposted, Hres.
  intros Hrun.
  assert (Ho : match o1, o with
               | Ok (_, emb), Ok (emb', _) => emb' = emb
               | Throw e, Throw e' => e' = e
               | OutOfFuel, OutOfFuel => True
               | _, _ => False
               end).
  { destruct o1 as [[pc emb] | e |]; simpl in Hrun; injection Hrun as <- _;
      reflexivity || exact I. }
  assert (Hfields : instance m' = instance m1 /\ device m' = device m1
                    /\ useGPU m' = useGPU m1 /\ lastTexts m' = lastTexts m1
                    /\ lastEmbeddings m' = lastEmbeddings m1 /\ attempts m' = attempts m1
                    /\ vectorCache m' = vectorCache m1 /\ extracted m' = extracted m1
                    /\ posted m' = posted m1).
  { destruct o1 as [[pc emb] | e |]; simpl in Hrun; injection Hrun as _ <-;
      simpl; tauto. }
  clear Hrun.
  destruct Hfields as (F1 & F2 & F3 & F4 & F5 & F6 & F7 & F8 & F9).
  rewrite F1, F2, F3, F4, F5, F6, F7, F8, F9.
  assert (Hsame : (exists s, o = Ok s) -> exists pc emb, o1 = Ok (pc, emb)).
  { intros [s ->]. destruct o1 as [[pc emb] | e |]; try contradiction. eauto. }
  split; [assumption |]. split; [assumption |].
  split; [intros t Ht; apply Hout; rewrite elem_of_uniqueTexts; assumption |].
  split.
  { exists called. split; [assumption |]. split; [assumption |].
    intros Hs. destruct (Hsame Hs) as (pc & emb & ->). apply Hall. eauto. }
  split.
  { exists ps. split; [assumption |]. split; [assumption |]. split; [assumption |].
    intros Hs. destruct (Hsame Hs) as (pc & emb & ->).
    destruct (Hlast pc emb eq_refl) as [Hl Hla]. split; [assumption |].
    destruct Hres as (Hpc & _).
    rewrite sum_occurrences in Hpc;
      [| apply uniqueTexts_NoDup | intros t; apply elem_of_uniqueTexts].
    destruct (last ps); [lia |]. apply nil_length_inv. lia. }
  destruct o1 as [[pc emb] | e |], o as [[emb' time] | e' |]; try contradiction.
  - subst emb'. destruct Hres as (_ & Hlen & Hfilled & _).
    assert (Hcell : forall i, i < length texts ->
              exists v, emb !! i = Some (Some v)
                        /\ exists t, texts !! i = Some t /\ vectorCache m1 !! t = Some v).
    { intros i Hi. destruct (lookup_lt_is_Some_2 texts i Hi) as [t Ht].
      destruct (Hfilled i t Ht) as (v & Hv & Hc).
      - apply elem_of_uniqueTexts. apply list_elem_of_lookup. eauto.
      - eauto. }
    assert (Hlen' : length emb = length texts).
    { destruct (decide (length texts = 0)) as [H0 | H0]; [lia |].
      destruct (Hcell (length texts - 1)) as (v & Hv & _); [lia |].
      apply lookup_lt_Some in Hv. lia. }
    destruct (filled_dense emb) as [points ->].
    { intros i Hi. destruct (Hcell i) as (v & Hv & _); [lia | eauto]. }
    exists points. split; [reflexivity |].
    rewrite length_fmap in Hlen'. split; [assumption |].
    intros i t Ht. destruct (Hcell i) as (v & Hv & t' & Ht' & Hc).
    { eapply lookup_lt_Some. eassumption. }
    rewrite list_lookup_fmap in Hv. destruct (points !! i) as [w |]; [| discriminate].
    injection Hv as ->. exists v. split; [reflexivity |]. congruence.
  - subst e'. destruct Hres as (called' & t & err & H1 & H2 & H3 & H4 & H5).
    exists called', t, err. rewrite elem_of_uniqueTexts in H2. auto.
Qed.

(** *** [computeEmbeddings] *)

(** X11.  When [computeEmbeddings] returns, [embeddings] has one vector for
    each text and no hole: the vector at an index is the one that the cache
    now holds for the text at that index, so that equal texts share one
    vector, and the array can be handed to [dbscan] as it is. *)
Theorem computeEmbeddings_fills_every_index (host : Host) (texts : list string)
  (extractor : Extractor) (m m' : Memory)
  (embeddings : list (option (list float))) (time : float) :
  computeEmbeddings host texts extractor m = (Ok (embeddings, time), m') ->
  length embeddings = length texts
  /\ (forall i text, texts !! i = Some text ->
        exists vector, embeddings !! i = Some (Some vector)
                       /\ vectorCache m' !! text = Some vector)
  /\ (forall i j, texts !! i = texts !! j -> embeddings !! i = embeddings !! j)
  /\ exists points, dense embeddings = Some points /\ length points = length texts.
Proof.
  intros Hrun.
  destruct (computeEmbeddings_run host texts extractor m _ m' Hrun)
    as (_ & _ & _ & _ & _ & (points & -> & Hlen & Hcell)).
  assert (Hcell' : forall i text, texts !! i = Some text ->
            exists vector, (Some <$> points) !! i = Some (Some vector)
                           /\ vectorCache m' !! text = Some vector).
  { intros i text Hi. destruct (Hcell i text Hi) as (v & Hv & Hc).
    exists v. rewrite list_lookup_fmap, Hv. auto. }
  split; [rewrite length_fmap; assumption |]. split; [assumption |]. split.
  - intros i j Hij. destruct (texts !! i) as [text |] eqn:Hi.
    + destruct (Hcell' i text Hi) as (v & -> & Hc).
      destruct (Hcell' j text (eq_sym Hij)) as (w & -> & Hc'). congruence.
    + symmetry in Hij. apply lookup_ge_None in Hi, Hij.
      rewrite !(proj2 (lookup_ge_None _ _)); rewrite ?length_fmap; [reflexivity | lia | lia].
  - exists points. split; [apply dense_fmap_Some | assumption].
Qed.

Lemma computeEmbeddings_fills_every_index_witness :
  length [Some [1; 0]; Some [0; 1]; Some [1; 0]]%float = length sample_texts
  /\ (forall i text, sample_texts !! i = Some text ->
        exists vector, [Some [1; 0]; Some [0; 1]; Some [1; 0]]%float !! i = Some (Some vector)
                       /\ vectorCache sample_memory !! text = Some vector)
  /\ (forall i j, sample_texts !! i = sample_texts !! j ->
        [Some [1; 0]; Some [0; 1]; Some [1; 0]]%float !! i
        = [Some [1; 0]; Some [0; 1]; Some [1; 0]]%float !! j)
  /\ exists points, dense [Some [1; 0]; Some [0; 1]; Some [1; 0]]%float = Some points
                    /\ length points = length sample_texts.
Proof.
  apply (computeEmbeddings_fills_every_index sample_host sample_texts sample_extractor
           loaded sample_memory _ 3000%float).
  vm_compute. reflexivity.
Defined.

Lemma prefix_NoDup {A : Type} (l k : list A) : l `prefix_of` k -> NoDup k -> NoDup l.
Proof. intros [k' ->] Hnd. apply NoDup_app in Hnd. tauto. Qed.

(** X12.  Whatever its outcome, [computeEmbeddings] hands to the extractor
    only texts of the request that the cache does not hold, each at most
    once; when it returns, these are all the distinct uncached texts, in
    the order of their first occurrence.  The cache never loses or changes
    an entry, and texts outside the request stay as they were. *)
Theorem computeEmbeddings_extracts_once (host : Host) (texts : list string)
  (extractor : Extractor) (m m' : Memory) (o : outcome _) :
  computeEmbeddings host texts extractor m = (o, m') ->
  (exists called,
     extracted m' = extracted m ++ called
     /\ NoDup called
     /\ (forall t, t ∈ called -> t ∈ texts /\ vectorCache m !! t = None)
     /\ ((exists s, o = Ok s) ->
         called = filter (fun t => vectorCache m !! t = None) (uniqueTexts texts)))
  /\ (forall t v, vectorCache m !! t = Some v -> vectorCache m' !! t = Some v)
  /\ (forall t, t ∉ texts -> vectorCache m' !! t = vectorCache m !! t).
Proof.
  intros Hrun.
  destruct (computeEmbeddings_run host texts extractor m o m' Hrun)
    as (_ & Hkeep & Hout & (called & Hext & Hpre & Hall) & _ & _).
  split; [| split; assumption].
  exists called. split; [assumption |]. split; [| split; [| assumption]].
  - eapply prefix_NoDup; [exact Hpre |]. apply NoDup_filter, uniqueTexts_NoDup.
  - intros t Ht. destruct Hpre as [k Hk].
    assert (Hin : t ∈ filter (fun t => vectorCache m !! t = None) (uniqueTexts texts)).
    { rewrite Hk. apply elem_of_app. left. assumption. }
    apply list_elem_of_filter in Hin as [Hnone Hin].
    apply (proj1 (elem_of_uniqueTexts _ _)) in Hin. auto.
Qed.

Lemma computeEmbeddings_extracts_once_witness :
  (exists called,
     extracted sample_memory = extracted loaded ++ called
     /\ NoDup called
     /\ (forall t, t ∈ called -> t ∈ sample_texts /\ vectorCache loaded !! t = None)
     /\ ((exists s, Ok ([Some [1; 0]; Some [0; 1]; Some [1; 0]]%float, 3000%float) = Ok s) ->
         called = filter (fun t => vectorCache loaded !! t = None)
                         (uniqueTexts sample_texts)))
  /\ (forall t v, vectorCache loaded !! t = Some v -> vectorCache sample_memory !! t = Some v)
  /\ (forall t, t ∉ sample_texts ->
        vectorCache sample_memory !! t = vectorCache loaded !! t).
Proof.
  apply (computeEmbeddings_extracts_once sample_host sample_texts sample_extractor
           loaded sample_memory).
  vm_compute. reflexivity.
Defined.

(** X13.  When [computeEmbeddings] returns it has posted one ['computing']
    message for each distinct text; their [total] is the number of texts,
    their [current] counts grow strictly, and the last one equals [total]:
    the progress shown by the page ends at 100 percent. *)
Theorem computeEmbeddings_progress (host : Host) (texts : list string)
  (extractor : Extractor) (m m' : Memory)
  (embeddings : list (option (list float))) (time : float) :
  computeEmbeddings host texts extractor m = (Ok (embeddings, time), m') ->
  exists ps,
    posted m' = posted m ++ (computing <$> ps)
    /\ length ps = length (uniqueTexts texts)
    /\ Forall (fun p => total p = length texts /\ 0 < current p <= total p) ps
    /\ StronglySorted lt (current <$> ps)
    /\ (texts <> [] -> exists p, last ps = Some p /\ current p = total p).
Proof.
  intros Hrun.
  destruct (computeEmbeddings_run host texts extractor m _ m' Hrun)
    as (_ & _ & _ & _ & (ps & Hposted & Hps & Hsorted & Hlast) & _).
  destruct Hlast as [Hlen Hla]; [eauto |].
  exists ps. split; [assumption |]. split; [assumption |].
  assert (Hfinal : texts <> [] -> exists p, last ps = Some p /\ current p = length texts).
  { intros Hne. destruct (last ps) as [p |]; [eauto | contradiction]. }
  assert (Hbound : forall p, p ∈ ps -> current p <= length texts).
  { intros p Hp. destruct (decide (texts = [])) as [-> | Hne].
    - simpl in Hla. destruct (last ps) as [q |] eqn:E.
      + rewrite Forall_forall in Hps. destruct (Hps q) as [_ Hq]; [| simpl in Hla; lia].
        apply last_Some in E as [l' ->]. apply elem_of_app. right. left.
      + apply last_None in E. subst ps. inversion Hp.
    - destruct (Hfinal Hne) as (q & Hq & Hcur).
      apply last_Some in Hq as [l' ->].
      apply elem_of_app in Hp as [Hp | Hp].
      + rewrite fmap_app in Hsorted.
        assert (Hlt : current p < current q).
        { clear -Hsorted Hp. induction l' as [| x l' IH]; [inversion Hp |].
          simpl in Hsorted. apply StronglySorted_inv in Hsorted as [Hs Hx].
          apply elem_of_cons in Hp as [-> | Hp]; [| auto].
          rewrite Forall_forall in Hx. apply Hx. apply elem_of_app. right. left. }
        lia.
      + apply list_elem_of_singleton in Hp as ->. lia. }
  split; [| split].
  - apply Forall_forall. intros p Hp. rewrite Forall_forall in Hps.
    destruct (Hps p Hp) as [Ht Hc]. specialize (Hbound p Hp). lia.
  - assumption.
  - intros Hne. destruct (Hfinal Hne) as (p & Hp & Hcur). exists p. split; [assumption |].
    rewrite Forall_forall in Hps. destruct (Hps p) as [Ht _]; [| lia].
    apply last_Some in Hp as [l' ->]. apply elem_of_app. right. left.
Qed.

Lemma computeEmbeddings_progress_witness :
  exists ps,
    posted sample_memory = posted loaded ++ (computing <$> ps)
    /\ length ps = length (uniqueTexts sample_texts)
    /\ Forall (fun p => total p = length sample_texts /\ 0 < current p <= total p) ps
    /\ StronglySorted lt (current <$> ps)
    /\ (sample_texts <> [] -> exists p, last ps = Some p /\ current p = total p).
Proof.
  apply (computeEmbeddings_progress sample_host sample_texts sample_extractor
           loaded sample_memory [Some [1; 0]; Some [0; 1]; Some [1; 0]]%float 3000%float).
  vm_compute. reflexivity.
Defined.

(** X14.  When the cache holds every text of the request,
    [computeEmbeddings] returns the cached vectors without a call to the
    extractor, and leaves the cache as it was: a request that repeats texts
    seen before costs no run of the model. *)
Theorem computeEmbeddings_cached (host : Host) (texts : list string)
  (extractor : Extractor) (m : Memory) :
  (forall t, t ∈ texts -> is_Some (vectorCache m !! t)) ->
  exists time m',
    computeEmbeddings host texts extractor m
    = (Ok ((fun t => vectorCache m !! t) <$> texts, time), m')
    /\ extracted m' = extracted m
    /\ vectorCache m' = vectorCache m.
Proof.
  intros Hcached.
  destruct (computeEmbeddings host texts extractor m) as [o m'] eqn:Hrun.
  destruct (computeEmbeddings_run host texts extractor m o m' Hrun)
    as (_ & Hkeep & Hout & (called & Hext & Hpre & _) & _ & Hres).
  assert (Hnone : filter (fun t => vectorCache m !! t = None) (uniqueTexts texts) = []).
  { destruct (filter _ (uniqueTexts texts)) as [| t l] eqn:E; [reflexivity |].
    assert (Ht : t ∈ filter (fun t => vectorCache m !! t = None) (uniqueTexts texts))
      by (rewrite E; left).
    apply list_elem_of_filter in Ht as [Hn Ht].
    apply (proj1 (elem_of_uniqueTexts _ _)) in Ht.
    destruct (Hcached t Ht) as [v Hv]. congruence. }
  assert (Hcache : vectorCache m' = vectorCache m).
  { apply map_eq. intros t. destruct (decide (t ∈ texts)) as [Hin | Hnin]; [| auto].
    destruct (Hcached t Hin) as [v Hv]. rewrite Hv. auto. }
  destruct o as [[emb time] | e |]; [| | contradiction].
  - exists time, m'. split; [| split; [| assumption]].
    + do 3 f_equal. destruct Hres as (points & -> & Hlen & Hcell).
      apply list_eq. intros i. rewrite !list_lookup_fmap.
      destruct (texts !! i) as [t |] eqn:Hi; simpl.
      * destruct (Hcell i t Hi) as (v & -> & Hc). simpl. congruence.
      * apply lookup_ge_None in Hi.
        rewrite (proj2 (lookup_ge_None points i)) by lia. reflexivity.
    + rewrite Hnone in Hpre. apply prefix_nil_inv in Hpre. subst called.
      rewrite Hext, app_nil_r. reflexivity.
  - exfalso. destruct Hres as (called' & t & err & _ & Ht & Hn & _).
    destruct (Hcached t Ht) as [v Hv]. congruence.
Qed.

Lemma computeEmbeddings_cached_witness :
  exists time m',
    computeEmbeddings sample_host sample_texts failing_extractor sample_memory
    = (Ok ((fun t => vectorCache sample_memory !! t) <$> sample_texts, time), m')
    /\ extracted m' = extracted sample_memory
    /\ vectorCache m' = vectorCache sample_memory.
Proof.
  apply (computeEmbeddings_cached sample_host sample_texts failing_extractor sample_memory).
  intros t Ht. unfold sample_texts in Ht.
  rewrite !elem_of_cons, elem_of_nil in Ht.
  destruct Ht as [-> | [-> | [-> | []]]]; vm_compute; eauto.
Defined.

(** X15.  The only thing [computeEmbeddings] throws is the error of a call
    to the extractor, wrapped in its own message: the call was made for a
    text of the request that the cache did not hold, and the vectors found
    before it stay in the cache.  The lookup in [textToIndexMap] never
    misses, and the worker's memory of its last request is not touched. *)
Theorem computeEmbeddings_failure (host : Host) (texts : list string)
  (extractor : Extractor) (m m' : Memory) (e : exn) :
  computeEmbeddings host texts extractor m = (Throw e, m') ->
  (exists called text err,
     extracted m' = extracted m ++ called ++ [text]
     /\ text ∈ texts
     /\ vectorCache m !! text = None
     /\ extract extractor (extracted m ++ called) text = inl err
     /\ e = Error ("处理文本时出错: " +:+ message err))
  /\ (forall t v, vectorCache m !! t = Some v -> vectorCache m' !! t = Some v)
  /\ lastTexts m' = lastTexts m
  /\ lastEmbeddings m' = lastEmbeddings m.
Proof.
  intros Hrun.
  destruct (computeEmbeddings_run host texts extractor m _ m' Hrun)
    as (Hframe & Hkeep & _ & _ & _ & Hres).
  split; [assumption |]. split; [assumption |]. tauto.
Qed.

Lemma computeEmbeddings_failure_witness :
  (exists called text err,
     extracted (snd (computeEmbeddings sample_host sample_texts failing_extractor loaded))
     = extracted loaded ++ called ++ [text]
     /\ text ∈ sample_texts
     /\ vectorCache loaded !! text = None
     /\ extract failing_extractor (extracted loaded ++ called) text = inl err
     /\ Error "处理文本时出错: out of memory"
        = Error ("处理文本时出错: " +:+ message err))
  /\ (forall t v, vectorCache loaded !! t = Some v ->
        vectorCache (snd (computeEmbeddings sample_host sample_texts failing_extractor loaded))
        !! t = Some v)
  /\ lastTexts (snd (computeEmbeddings sample_host sample_texts failing_extractor loaded))
     = lastTexts loaded
  /\ lastEmbeddings (snd (computeEmbeddings sample_host sample_texts failing_extractor loaded))
     = lastEmbeddings loaded.
Proof.
  apply (computeEmbeddings_failure sample_host sample_texts failing_extractor loaded).
  vm_compute. reflexivity.
Defined.

(** *** [getInstance] *)

Lemma detectWebGPU_run (host : Host) (m : Memory) :
  exists d g,
    detectWebGPU host m
    = (Ok tt, mkMemory (instance m) d g (vectorCache m) (lastTexts m)
                       (lastEmbeddings m) (clock m) (attempts m) (extracted m)
                       (posted m))
    /\ ((useGPU m = true <-> device m = "webgpu"%string)
        -> (g = true <-> d = "webgpu"%string)).
Proof.
  unfold detectWebGPU, set_device, ret.
  assert (Hsame : (Ok tt, m)
                  = (Ok tt, mkMemory (instance m) (device m) (useGPU m) (vectorCache m)
                                     (lastTexts m) (lastEmbeddings m) (clock m)
                                     (attempts m) (extracted m) (posted m)))
    by (destruct m; reflexivity).
  assert (Hwasm : false = true <-> "wasm"%string = "webgpu"%string)
    by (split; discriminate).
  destruct (nav_gpu (navigator host)) as [gpu |]; [| eauto].
  destruct (requestAdapter gpu) as [e | [adapter |]]; [eauto | | eauto].
  destruct (requestDevice adapter) as [e | dev]; [eauto |].
  exists "webgpu"%string, true. split; [reflexivity |]. tauto.
Qed.

(** What a call of [getInstance] does. *)
Lemma getInstance_run (host : Host) (m : Memory) (o : outcome Extractor)
  (m' : Memory) :
  getInstance host m = (o, m') ->
  (vectorCache m' = vectorCache m /\ lastTexts m' = lastTexts m
   /\ lastEmbeddings m' = lastEmbeddings m /\ extracted m' = extracted m
   /\ clock m' = clock m)
  /\ (coherent m -> coherent m')
  /\ match instance m with
     | Some extractor => o = Ok extractor /\ m' = m
     | None =>
       attempts m' = S (attempts m)
       /\ match pipeline host (attempts m) (device m') with
          | inr extractor =>
            o = Ok extractor /\ instance m' = Some extractor
            /\ posted m' = posted m ++ [initiate; ready (device m') (useGPU m')]
          | inl err =>
            o = Throw (Error (errorMessage err)) /\ instance m' = None
            /\ posted m' = posted m ++ [initiate]
          end
     end.
Proof.
  unfold getInstance, bindR, read. destruct (instance m) as [extractor |] eqn:Hinst.
  - unfold ret. intros [= <- <-]. tauto.
  - unfold postMessage at 1.
    set (m1 := mkMemory _ _ _ _ _ _ _ _ _ (posted m ++ [initiate])).
    destruct (detectWebGPU_run host m1) as (d & g & -> & Hcoh).
    subst m1. simpl. unfold call_pipeline. simpl.
    destruct (pipeline host (attempts m) d) as [err | extractor] eqn:Hpipe; simpl.
    + unfold throw. intros [= <- <-]. simpl. rewrite Hpipe.
      unfold coherent. simpl. tauto.
    + intros [= <- <-]. simpl. rewrite Hpipe, <- app_assoc.
      unfold coherent. simpl. tauto.
Qed.

(** X16.  [getInstance] hands out the extractor it holds without touching
    anything.  When it holds none it calls [pipeline] once, with the device
    that the probe for WebGPU left: a request of the probe that raises is
    swallowed, so the call fails only when [pipeline] does, with the message
    built from its error, and the instance then stays unset for the next
    call to try again.  The [device] and [useGPU] fields stay in agreement. *)
Theorem getInstance_outcome (host : Host) (m m' : Memory) (o : outcome Extractor) :
  getInstance host m = (o, m') -> coherent m ->
  coherent m'
  /\ match instance m with
     | Some extractor => o = Ok extractor /\ m' = m
     | None =>
       attempts m' = S (attempts m)
       /\ match pipeline host (attempts m) (device m') with
          | inr extractor =>
            o = Ok extractor /\ instance m' = Some extractor
            /\ posted m' = posted m ++ [initiate; ready (device m') (useGPU m')]
          | inl err =>
            o = Throw (Error (errorMessage err)) /\ instance m' = None
            /\ posted m' = posted m ++ [initiate]
          end
     end.
Proof.
  intros Hrun Hcoh.
  destruct (getInstance_run host m o m' Hrun) as (_ & Hcoh' & Hres). auto.
Qed.

Lemma getInstance_outcome_witness :
  coherent (snd (getInstance sample_host loaded))
  /\ match instance loaded with
     | Some extractor =>
       Ok sample_extractor = Ok extractor /\ snd (getInstance sample_host loaded) = loaded
     | None =>
       attempts (snd (getInstance sample_host loaded)) = S (attempts loaded)
       /\ match pipeline sample_host (attempts loaded)
                         (device (snd (getInstance sample_host loaded))) with
          | inr extractor =>
            Ok sample_extractor = Ok extractor
            /\ instance (snd (getInstance sample_host loaded)) = Some extractor
            /\ posted (snd (getInstance sample_host loaded))
               = posted loaded
                 ++ [initiate; ready (device (snd (getInstance sample_host loaded)))
                                     (useGPU (snd (getInstance sample_host loaded)))]
          | inl err =>
            Ok sample_extractor = Throw (Error (errorMessage err))
            /\ instance (snd (getInstance sample_host loaded)) = None
            /\ posted (snd (getInstance sample_host loaded)) = posted loaded ++ [initiate]
          end
     end.
Proof.
  apply (getInstance_outcome sample_host loaded).
  - vm_compute. reflexivity.
  - split; discriminate.
Defined.

(** *** The message handler *)

Lemma sameTexts_from (a b : list string) (s : nat) :
  forallb (fun '(i, text) => bool_decide (b !! i = Some text)) (zip (seq s (length a)) a)
  = true
  <-> forall k t, a !! k = Some t -> b !! (s + k) = Some t.
Proof.
  revert s. induction a as [| x a IH]; intros s; simpl.
  - split; [intros _ k t Hk; inversion Hk | reflexivity].
  - rewrite andb_true_iff, bool_decide_eq_true, IH. split.
    + intros [H0 HS] [| k] t Hk; simpl in Hk.
      * injection Hk as <-. rewrite Nat.add_0_r. assumption.
      * rewrite <- Nat.add_succ_comm. apply HS. assumption.
    + intros H. split.
      * rewrite <- (Nat.add_0_r s). apply (H 0). reflexivity.
      * intros k t Hk. rewrite Nat.add_succ_comm. apply (H (S k)). assumption.
Qed.

(** The test of the handler holds exactly when the texts are the last texts. *)
Lemma sameTexts_spec (a b : list string) : sameTexts a b = true <-> a = b.
Proof.
  unfold sameTexts. rewrite andb_true_iff, Nat.eqb_eq, sameTexts_from. split.
  - intros [Hlen H]. apply list_eq. intros i.
    destruct (a !! i) as [t |] eqn:Hi.
    + symmetry. apply (H i t Hi).
    + symmetry. apply lookup_ge_None. apply lookup_ge_None in Hi. lia.
  - intros ->. split; [reflexivity |]. intros k t Hk. assumption.
Qed.

Lemma elem_of_concat {A : Type} (x : A) (ls : list (list A)) :
  x ∈ concat ls <-> exists l, x ∈ l /\ l ∈ ls.
Proof.
  induction ls as [| l ls IH]; simpl.
  - split; [intros H; inversion H | intros (l & _ & H); inversion H].
  - rewrite elem_of_app, IH. split.
    + intros [H | (l' & H & Hl')]; [exists l; split; [assumption | left] |].
      exists l'. split; [assumption | right; assumption].
    + intros (l' & H & Hl'). apply elem_of_cons in Hl' as [-> | Hl']; eauto.
Qed.

(** The indices that [dbscan] returns are the indices of the points, each
    once, and no cluster is empty. *)
Lemma dbscan_indices (nav : Navigator) (points : list (list float)) (eps : float)
  (minPts : Z) (useGPU : bool) :
  exists r,
    dbscan nav points eps minPts useGPU = Ok r
    /\ concat (clusters r) ++ res_noise r ≡ₚ seq 0 (length points)
    /\ Forall (fun cl => cl <> []) (clusters r).
Proof.
  destruct (dbscan_run nav points eps minPts useGPU) as (m & _ & Hlen & ->).
  set (N := length points) in *.
  destruct (run_facts N m eps minPts Hlen)
    as (st & cid & r & Hscan & I & Hrun & Hnoise & Hlencl & Hcl & Hin).
  exists r. split; [assumption |].
  assert (Hclusters : clusters r = (fun c => members (assignments st) c N) <$> seq 0 cid).
  { apply list_eq. intros c. rewrite list_lookup_fmap.
    destruct (decide (c < cid)) as [Hc | Hc].
    - rewrite (Hcl c Hc).
      rewrite (proj2 (lookup_seq 0 cid c c)) by (split; [reflexivity | assumption]).
      reflexivity.
    - rewrite (proj2 (lookup_ge_None _ c)) by lia.
      rewrite (proj2 (lookup_ge_None (seq 0 cid) c)) by (rewrite length_seq; lia).
      reflexivity. }
  split.
  - apply NoDup_Permutation.
    + apply NoDup_app. split; [| split].
      * rewrite Hclusters.
        assert (Hgen : forall cs, NoDup cs ->
                  NoDup (concat ((fun c => members (assignments st) c N) <$> cs))).
        { induction cs as [| c cs IH]; intros Hnd; simpl; [constructor |].
          apply NoDup_cons in Hnd as [Hc Hnd]. apply NoDup_app.
          split; [apply StronglySorted_lt_NoDup, members_sorted |].
          split; [| apply IH; assumption].
          intros i Hi Hi'. apply elem_of_members in Hi as [_ Hi].
          apply elem_of_concat in Hi' as (cl & Hcl' & Hcs).
          apply list_elem_of_fmap in Hcs as (c' & -> & Hc').
          apply elem_of_members in Hcl' as [_ Hcl'].
          rewrite Hi in Hcl'. injection Hcl' as Heq.
          apply Nat2Z.inj in Heq. subst c'. contradiction. }
        apply Hgen, NoDup_seq.
      * intros i Hi Hn. rewrite Hnoise in Hn. apply (inv_noise I) in Hn.
        apply elem_of_concat in Hi as (cl & Hi & Hcl').
        apply list_elem_of_lookup in Hcl' as [c Hc].
        assert (Hic : in_cluster r c i) by (exists cl; auto).
        apply Hin in Hic as [_ Hic]. rewrite Hn in Hic. injection Hic as Hic. lia.
      * rewrite Hnoise. apply StronglySorted_lt_NoDup, (inv_noise_sorted I).
    + apply NoDup_seq.
    + intros i. rewrite elem_of_app, elem_of_seq. split.
      * intros [Hi | Hi].
        -- apply elem_of_concat in Hi as (cl & Hi & Hcl').
           apply list_elem_of_lookup in Hcl' as [c Hc].
           assert (Hic : in_cluster r c i) by (exists cl; auto).
           apply Hin in Hic. lia.
        -- rewrite Hnoise in Hi. apply (inv_noise_lt I) in Hi. lia.
      * intros [_ Hi]. simpl in Hi.
        destruct (inv_final_cell _ _ _ _ _ _ _ _ i I Hi) as (a & Ha & [-> | Hrange]).
        -- right. rewrite Hnoise. apply (inv_noise I). assumption.
        -- left. assert (Hic : in_cluster r (Z.to_nat a) i).
           { apply Hin. split; [assumption |]. rewrite Ha. do 2 f_equal. lia. }
           destruct Hic as (cl & Hc & Hi'). apply elem_of_concat.
           exists cl. split; [assumption |]. apply list_elem_of_lookup. eauto.
  - apply Forall_forall. intros cl Hcl'. apply list_elem_of_lookup in Hcl' as [c Hc].
    pose proof (lookup_lt_Some _ _ _ Hc) as Hlt. rewrite Hlencl in Hlt.
    destruct (inv_roots I c Hlt) as (root & Hroot & Hasg & _).
    assert (Hic : in_cluster r c root) by (apply Hin; split; [lia | assumption]).
    destruct Hic as (cl' & Hc' & Hi). rewrite Hc in Hc'. injection Hc' as <-.
    intros ->. inversion Hi.
Qed.

Section Handler.

Variable host : Host.

(** The computation of fresh vectors: it posts progress messages only, and
    remembers the texts with their vectors when it returns. *)
Lemma computeAndRemember_run (texts : list string) (m : Memory) (o : outcome _)
  (m' : Memory) :
  computeAndRemember host texts m = (o, m') ->
  (exists msgs, posted m' = posted m ++ msgs
                /\ Forall (fun msg => is_progress msg = true) msgs)
  /\ match o with
     | Ok (embeddings, _) =>
       exists points,
         embeddings = Some <$> points /\ length points = length texts
         /\ lastTexts m' = Some texts /\ lastEmbeddings m' = Some embeddings
     | Throw _ => lastTexts m' = lastTexts m /\ lastEmbeddings m' = lastEmbeddings m
     | OutOfFuel => False
     end.
Proof.
  unfold computeAndRemember, bindR.
  destruct (getInstance host m) as [og mg] eqn:Hg.
  destruct (getInstance_run host m og mg Hg) as ((G1 & G2 & G3 & G4 & G5) & _ & Hres).
  assert (Hgm : exists msgs, posted mg = posted m ++ msgs
                             /\ Forall (fun msg => is_progress msg = true) msgs
                             /\ og <> OutOfFuel).
  { destruct (instance m) as [ex |].
    - destruct Hres as [-> ->]. exists []. rewrite app_nil_r.
      split; [reflexivity |]. split; [constructor | discriminate].
    - destruct Hres as [_ Hres].
      destruct (pipeline host (attempts m) (device mg)) as [err | ex].
      + destruct Hres as (-> & _ & ->). eexists. split; [reflexivity |].
        split; [repeat constructor | discriminate].
      + destruct Hres as (-> & _ & ->). eexists. split; [reflexivity |].
        split; [repeat constructor | discriminate]. }
  destruct Hgm as (msgs1 & Hp1 & Hprog1 & Hfuel).
  destruct og as [extractor | e |]; [| | contradiction].
  - destruct (computeEmbeddings host texts extractor mg) as [oc mc] eqn:Hc.
    destruct (computeEmbeddings_run host texts extractor mg oc mc Hc)
      as ((C1 & C2 & C3 & C4 & C5 & C6) & _ & _ & _ & (ps & Hp2 & _) & Hres2).
    assert (Hprog2 : Forall (fun msg => is_progress msg = true) (computing <$> ps)).
    { apply Forall_fmap, Forall_true. reflexivity. }
    destruct oc as [[emb vt] | e |]; [| | contradiction].
    + unfold set_last, ret. simpl. intros [= <- <-]. simpl. split.
      * exists (msgs1 ++ (computing <$> ps)). rewrite Hp2, Hp1, app_assoc.
        split; [reflexivity |]. apply Forall_app. auto.
      * destruct Hres2 as (points & -> & Hlen & _). exists points. auto.
    + intros [= <- <-]. split.
      * exists (msgs1 ++ (computing <$> ps)). rewrite Hp2, Hp1, app_assoc.
        split; [reflexivity |]. apply Forall_app. auto.
      * split; congruence.
  - intros [= <- <-]. split; [eauto |]. auto.
Qed.

Lemma obtainEmbeddings_run (texts : list string) (m : Memory) (o : outcome _)
  (m' : Memory) :
  remembers_vectors m ->
  obtainEmbeddings host texts m = (o, m') ->
  remembers_vectors m'
  /\ (exists msgs, posted m' = posted m ++ msgs
                   /\ Forall (fun msg => is_progress msg = true) msgs)
  /\ match o with
     | Ok (embeddings, _) =>
       exists points,
         embeddings = Some <$> points /\ length points = length texts
         /\ lastTexts m' = Some texts /\ lastEmbeddings m' = Some embeddings
     | Throw _ => True
     | OutOfFuel => False
     end.
Proof.
  intros Hrem.
  assert (Hfresh : computeAndRemember host texts m = (o, m') ->
            remembers_vectors m'
            /\ (exists msgs, posted m' = posted m ++ msgs
                             /\ Forall (fun msg => is_progress msg = true) msgs)
            /\ match o with
               | Ok (embeddings, _) =>
                 exists points,
                   embeddings = Some <$> points /\ length points = length texts
                   /\ lastTexts m' = Some texts /\ lastEmbeddings m' = Some embeddings
               | Throw _ => True
               | OutOfFuel => False
               end).
  { intros Hrun. destruct (computeAndRemember_run texts m o m' Hrun) as [Hmsgs Hres].
    split; [| split; [assumption |]].
    - destruct o as [[emb vt] | e |]; [| | contradiction].
      + destruct Hres as (points & -> & Hlen & Hlt & Hle).
        intros lt le Hlt' Hle'. rewrite Hlt in Hlt'. rewrite Hle in Hle'.
        injection Hlt' as <-. injection Hle' as <-. eauto.
      + destruct Hres as [Hlt Hle]. unfold remembers_vectors.
        rewrite Hlt, Hle. assumption.
    - destruct o as [[emb vt] | e |]; auto. }
  unfold obtainEmbeddings, bindR, read.
  destruct (lastTexts m) as [lt |] eqn:Hlt; [| assumption].
  destruct (lastEmbeddings m) as [le |] eqn:Hle; [| assumption].
  destruct (sameTexts texts lt) eqn:Hsame; [| assumption].
  apply sameTexts_spec in Hsame. subst lt.
  unfold postMessage, ret. simpl. intros [= <- <-]. simpl.
  split; [| split].
  - intros lt' le'. simpl. rewrite Hlt, Hle. intros [= <-] [= <-].
    apply (Hrem texts le Hlt Hle).
  - eexists. split; [reflexivity |]. repeat constructor.
  - destruct (Hrem texts le Hlt Hle) as (points & -> & Hlen). exists points. auto.
Qed.

(** The clustering of an array of vectors without a hole always ends with a
    ['complete'] message. *)
Lemma clusterAndReport_run (d : Data) (texts : list string) (startTime : float)
  (points : list (list float)) (vectorizationTime : float) (m : Memory) :
  exists r perf m',
    dbscan (navigator host) points (similarityThreshold (epsilon d)) (minPts d) (useGPU m)
    = Ok r
    /\ concat (clusters r) ++ res_noise r ≡ₚ seq 0 (length points)
    /\ Forall (fun cl => cl <> []) (clusters r)
    /\ clusterAndReport host d texts startTime (Some <$> points) vectorizationTime m
       = (Ok tt, m')
    /\ posted m' = posted m
                   ++ [clustering;
                       complete (sort (map (toCluster texts) (clusters r)))
                                (map (fun index => texts !! index) (res_noise r)) perf]
    /\ instance m' = instance m /\ device m' = device m /\ useGPU m' = useGPU m
    /\ vectorCache m' = vectorCache m /\ lastTexts m' = lastTexts m
    /\ lastEmbeddings m' = lastEmbeddings m /\ attempts m' = attempts m
    /\ extracted m' = extracted m.
Proof.
  destruct (dbscan_indices (navigator host) points (similarityThreshold (epsilon d))
                           (minPts d) (useGPU m)) as (r & Hr & Hperm & Hne).
  exists r. unfold clusterAndReport, bindR, postMessage, read, lift, performance_now.
  simpl. rewrite dense_fmap_Some, Hr. simpl.
  eexists. eexists. split; [reflexivity |]. split; [assumption |].
  split; [assumption |]. split; [reflexivity |]. simpl.
  rewrite <- app_assoc. simpl. split; [reflexivity |]. tauto.
Qed.

(** What the [try] block of the handler does. *)
Lemma handle_run (d : Data) (m : Memory) :
  remembers_vectors m ->
  let texts := filter (fun text => trim host text <> ""%string) (data_texts d) in
  exists o m' msgs,
    handle host d m = (o, m')
    /\ remembers_vectors m'
    /\ posted m' = posted m ++ msgs
    /\ match o with
       | Ok _ =>
         exists progress points r perf,
           msgs = progress
                  ++ [complete (sort (map (toCluster texts) (clusters r)))
                               (map (fun index => texts !! index) (res_noise r)) perf]
           /\ Forall (fun msg => is_progress msg = true) progress
           /\ length points = length texts
           /\ lastTexts m' = Some texts
           /\ lastEmbeddings m' = Some (Some <$> points)
           /\ dbscan (navigator host) points (similarityThreshold (epsilon d))
                     (minPts d) (useGPU m') = Ok r
           /\ concat (clusters r) ++ res_noise r ≡ₚ seq 0 (length points)
           /\ Forall (fun cl => cl <> []) (clusters r)
       | Throw _ => Forall (fun msg => is_progress msg = true) msgs
       | OutOfFuel => False
       end.
Proof.
  intros Hrem texts. unfold handle, bindR. fold texts.
  unfold performance_now at 1.
  set (m0 := mkMemory _ _ _ _ _ _ (S (clock m)) _ _ _).
  assert (Hrem0 : remembers_vectors m0) by exact Hrem.
  destruct (obtainEmbeddings host texts m0) as [oe me] eqn:He.
  destruct (obtainEmbeddings_run texts m0 oe me Hrem0 He)
    as (Hreme & (msgs1 & Hp1 & Hprog1) & Hres).
  change (posted m0) with (posted m) in Hp1.
  destruct oe as [[emb vt] | e |]; [| | contradiction].
  - destruct Hres as (points & -> & Hlen & Hlt & Hle).
    destruct (clusterAndReport_run d texts (now host (clock m)) points vt me)
      as (r & perf & m' & Hr & Hperm & Hne & Hrun & Hp2 & F1 & F2 & F3 & F4 & F5 & F6 & F7 & F8).
    exists (Ok tt), m', (msgs1 ++ [clustering; complete (sort (map (toCluster texts) (clusters r)))
                                (map (fun index => texts !! index) (res_noise r)) perf]).
    split; [assumption |]. split.
    { unfold remembers_vectors. rewrite F5, F6. assumption. }
    split; [rewrite Hp2, Hp1, app_assoc; reflexivity |].
    exists (msgs1 ++ [clustering]), points, r, perf.
    split; [rewrite <- app_assoc; reflexivity |].
    split; [apply Forall_app; split; [assumption | repeat constructor] |].
    split; [assumption |]. split; [congruence |]. split; [congruence |].
    split; [rewrite F3; assumption |]. auto.
  - exists (Throw e), me, msgs1. auto.
Qed.

End Handler.

Lemma concat_Permutation {A : Type} (l k : list (list A)) :
  l ≡ₚ k -> concat l ≡ₚ concat k.
Proof.
  induction 1 as [| x l k _ IH | x y l | l k j _ IH1 _ IH2]; simpl.
  - reflexivity.
  - rewrite IH. reflexivity.
  - rewrite !app_assoc. f_equiv. apply Permutation_app_comm.
  - etransitivity; eassumption.
Qed.

Lemma concat_fmap_fmap {A B : Type} (f : A -> B) (ls : list (list A)) :
  concat ((fun l : list A => f <$> l) <$> ls) = f <$> concat ls.
Proof.
  induction ls as [| l ls IH]; simpl; [reflexivity |].
  rewrite fmap_app, <- IH. reflexivity.
Qed.

Lemma lookup_all (texts : list string) :
  (fun index => texts !! index) <$> seq 0 (length texts) = Some <$> texts.
Proof.
  apply list_eq. intros i. rewrite !list_lookup_fmap.
  destruct (decide (i < length texts)) as [Hi | Hi].
  - rewrite (proj2 (lookup_seq 0 (length texts) i i)) by (split; [reflexivity | assumption]).
    destruct (lookup_lt_is_Some_2 texts i Hi) as [t Ht]. simpl. rewrite Ht. reflexivity.
  - rewrite (proj2 (lookup_ge_None (seq 0 (length texts)) i)) by (rewrite length_seq; lia).
    rewrite (proj2 (lookup_ge_None texts i)) by lia. reflexivity.
Qed.

(** What the page is told when a ['complete'] message is among the messages
    of one call of the handler. *)
Lemma onMessage_complete_inv (host : Host) (event : Event) (m m' : Memory)
  (o : outcome unit) (msgs : list Message) (results : list Cluster)
  (noise : list (option string)) (perf : Performance) :
  remembers_vectors m ->
  onMessage host event m = (o, m') ->
  posted m' = posted m ++ msgs ->
  complete results noise perf ∈ msgs ->
  let texts := filter (fun text => trim host text <> ""%string)
                      (data_texts (data event)) in
  exists r,
    results = sort (map (toCluster texts) (clusters r))
    /\ noise = map (fun index => texts !! index) (res_noise r)
    /\ concat (clusters r) ++ res_noise r ≡ₚ seq 0 (length texts)
    /\ Forall (fun cl => cl <> []) (clusters r)
    /\ lastTexts m' = Some texts.
Proof.
  intros Hrem Hrun Hposted Hin texts. unfold onMessage in Hrun.
  destruct (String.eqb (type event) "compute_embeddings").
  - unfold try_catch in Hrun.
    destruct (handle_run host (data event) m Hrem) as (oh & mh & msgs0 & Hh & _ & Hp & Hres).
    fold texts in Hres. rewrite Hh in Hrun.
    destruct oh as [[] | e |]; [| | contradiction].
    + injection Hrun as <- <-. rewrite Hp in Hposted. apply app_inv_head in Hposted.
      subst msgs0.
      destruct Hres as (progress & points & r & perf' & -> & Hprog & Hlen & Hlt & _ & _
                        & Hperm & Hne).
      apply elem_of_app in Hin as [Hin | Hin].
      * rewrite Forall_forall in Hprog. specialize (Hprog _ Hin). discriminate.
      * apply list_elem_of_singleton in Hin. injection Hin as -> -> ->.
        exists r. rewrite <- Hlen. auto.
    + unfold postMessage in Hrun. injection Hrun as <- <-. simpl in Hposted.
      rewrite Hp, <- app_assoc in Hposted. apply app_inv_head in Hposted. subst msgs.
      apply elem_of_app in Hin as [Hin | Hin].
      * rewrite Forall_forall in Hres. specialize (Hres _ Hin). discriminate.
      * apply list_elem_of_singleton in Hin. discriminate.
  - unfold ret in Hrun. injection Hrun as <- <-.
    rewrite <- (app_nil_r (posted m)) in Hposted at 1.
    apply app_inv_head in Hposted. subst msgs. inversion Hin.
Qed.

(** X17.  Every call of the message handler returns: an error of the model
    or of the extractor is caught and reported.  For a
    ['compute_embeddings'] message the worker posts progress messages and
    then exactly one last message, ['complete'] or ['error']; any other
    message is ignored.  What the worker remembers of its last request
    stays an array of vectors without a hole. *)
Theorem onMessage_settles (host : Host) (event : Event) (m : Memory) :
  remembers_vectors m ->
  exists m',
    onMessage host event m = (Ok tt, m')
    /\ remembers_vectors m'
    /\ if String.eqb (type event) "compute_embeddings"
       then exists msgs final,
              posted m' = posted m ++ msgs ++ [final]
              /\ Forall (fun msg => is_progress msg = true) msgs
              /\ is_progress final = false
       else m' = m.
Proof.
  intros Hrem. unfold onMessage.
  destruct (String.eqb (type event) "compute_embeddings"); [| exists m; auto].
  unfold try_catch.
  destruct (handle_run host (data event) m Hrem) as (oh & mh & msgs0 & -> & Hremh & Hp & Hres).
  destruct oh as [[] | e |]; [| | contradiction].
  - exists mh. split; [reflexivity |]. split; [assumption |].
    destruct Hres as (progress & points & r & perf & -> & Hprog & _).
    eexists progress, _. split; [exact Hp |]. split; [assumption | reflexivity].
  - eexists. split; [reflexivity |]. split; [exact Hremh |].
    exists msgs0, (error (message_of host e)). simpl. rewrite Hp, <- app_assoc.
    split; [reflexivity |]. split; [assumption | reflexivity].
Qed.

Lemma onMessage_settles_witness :
  exists m',
    onMessage sample_host sample_event loaded = (Ok tt, m')
    /\ remembers_vectors m'
    /\ if String.eqb (type sample_event) "compute_embeddings"
       then exists msgs final,
              posted m' = posted loaded ++ msgs ++ [final]
              /\ Forall (fun msg => is_progress msg = true) msgs
              /\ is_progress final = false
       else m' = loaded.
Proof.
  apply (onMessage_settles sample_host sample_event loaded).
  intros lt le Hlt. discriminate Hlt.
Defined.

(** X18.  The ['complete'] message of a request lists every text of the
    request exactly once: the texts of its clusters together with its noise
    texts are a rearrangement of the non-blank texts that were sent, none of
    them [undefined].  The clusters come with their sizes in descending
    order, each [size] is the number of texts of its cluster and at least
    one, and the worker then remembers these texts as its last request. *)
Theorem onMessage_complete_lists_every_text (host : Host) (event : Event)
  (m m' : Memory) (o : outcome unit) (msgs : list Message)
  (results : list Cluster) (noise : list (option string)) (perf : Performance) :
  remembers_vectors m ->
  onMessage host event m = (o, m') ->
  posted m' = posted m ++ msgs ->
  complete results noise perf ∈ msgs ->
  let sent := filter (fun text => trim host text <> ""%string)
                     (data_texts (data event)) in
  concat (texts <$> results) ++ noise ≡ₚ Some <$> sent
  /\ StronglySorted (fun a b => size b <= size a) results
  /\ Forall (fun c => size c = length (texts c) /\ 0 < size c) results
  /\ lastTexts m' = Some sent.
Proof.
  intros Hrem Hrun Hposted Hin sent.
  destruct (onMessage_complete_inv host event m m' o msgs results noise perf
              Hrem Hrun Hposted Hin) as (r & -> & -> & Hperm & Hne & Hlast).
  fold sent in Hperm, Hlast |- *.
  split; [| split; [apply sort_sorted | split; [| assumption]]].
  - change (map ?f ?l) with (f <$> l).
    rewrite (concat_Permutation _ _ (fmap_Permutation texts _ _ (sort_perm _))).
    rewrite <- list_fmap_compose.
    change (texts ∘ toCluster sent) with (fun cl : list nat => (fun index => sent !! index) <$> cl).
    rewrite concat_fmap_fmap, <- fmap_app, Hperm. apply reflexive_eq, lookup_all.
  - apply Forall_forall. intros c Hc. rewrite sort_perm in Hc.
    apply list_elem_of_fmap in Hc as (cl & -> & Hcl). simpl.
    rewrite length_map. split; [reflexivity |].
    rewrite Forall_forall in Hne. specialize (Hne cl Hcl).
    destruct cl; [congruence | simpl; lia].
Qed.

Lemma onMessage_complete_lists_every_text_witness :
  let sent := filter (fun text => trim sample_host text <> ""%string)
                     (data_texts (data sample_event)) in
  concat (texts <$> [mkCluster 2 [Some "a"; Some "a"]]%string) ++ [Some "b"%string]
  ≡ₚ Some <$> sent
  /\ StronglySorted (fun a b => size b <= size a) [mkCluster 2 [Some "a"; Some "a"]]%string
  /\ Forall (fun c => size c = length (texts c) /\ 0 < size c)
            [mkCluster 2 [Some "a"; Some "a"]]%string
  /\ lastTexts sample_worker = Some sent.
Proof.
  apply (onMessage_complete_lists_every_text sample_host sample_event loaded sample_worker
           (Ok tt) (posted sample_worker) _ _
           (mkPerformance "0.0" "0.0" "0.0" "0.0")).
  - intros lt le Hlt. discriminate Hlt.
  - vm_compute. reflexivity.
  - reflexivity.
  - vm_compute. do 5 right. left.
Defined.

(** X19.  A request whose non-blank texts are the texts of the last
    request is clustered again from the vectors that the worker remembers:
    the model is not asked for (no call of [pipeline]), the extractor is not
    run, the cache stays as it is, and the page gets one
    ['computing'] message at 100 percent, then ['clustering'], then
    ['complete'] with the clusters that [dbscan] finds for the new
    [epsilon] and [minPts]. *)
Theorem onMessage_reuses_vectors (host : Host) (event : Event) (m : Memory)
  (sent : list string) (points : list (list float)) :
  type event = "compute_embeddings"%string ->
  filter (fun text => trim host text <> ""%string) (data_texts (data event)) = sent ->
  lastTexts m = Some sent ->
  lastEmbeddings m = Some (Some <$> points) ->
  exists r perf m',
    dbscan (navigator host) points (similarityThreshold (epsilon (data event)))
           (minPts (data event)) (useGPU m) = Ok r
    /\ onMessage host event m = (Ok tt, m')
    /\ posted m'
       = posted m
         ++ [computing (mkProgress (length sent) (length sent) "0.0" "∞");
             clustering;
             complete (sort (map (toCluster sent) (clusters r)))
                      (map (fun index => sent !! index) (res_noise r)) perf]
    /\ averageSpeed perf = "∞"%string
    /\ extracted m' = extracted m /\ attempts m' = attempts m
    /\ vectorCache m' = vectorCache m /\ instance m' = instance m
    /\ lastTexts m' = Some sent /\ lastEmbeddings m' = Some (Some <$> points).
Proof.
  intros Htype Hsent Hlt Hle.
  unfold onMessage. rewrite Htype. simpl String.eqb. cbv iota.
  unfold try_catch, handle, bindR. rewrite Hsent.
  unfold performance_now at 1. unfold obtainEmbeddings, bindR, read. simpl.
  rewrite Hlt, Hle. rewrite (proj2 (sameTexts_spec sent sent) eq_refl).
  unfold postMessage at 1. unfold ret. simpl.
  set (mb := mkMemory _ _ _ _ _ _ _ _ _ _).
  destruct (dbscan_indices (navigator host) points
              (similarityThreshold (epsilon (data event))) (minPts (data event))
              (useGPU m)) as (r & Hr & _).
  exists r. unfold clusterAndReport, bindR, postMessage, read, lift, performance_now.
  subst mb. simpl. rewrite dense_fmap_Some, Hr. simpl.
  eexists. eexists. split; [reflexivity |]. split; [reflexivity |]. simpl.
  rewrite <- !app_assoc. simpl. split; [reflexivity |].
  repeat split.
Qed.

Lemma onMessage_reuses_vectors_witness :
  exists r perf m',
    dbscan (navigator sample_host) [[1; 0]; [0; 1]; [1; 0]]%float
           (similarityThreshold (epsilon (data sample_event_again)))
           (minPts (data sample_event_again)) (useGPU sample_worker) = Ok r
    /\ onMessage sample_host sample_event_again sample_worker = (Ok tt, m')
    /\ posted m'
       = posted sample_worker
         ++ [computing (mkProgress (length sample_texts) (length sample_texts) "0.0" "∞");
             clustering;
             complete (sort (map (toCluster sample_texts) (clusters r)))
                      (map (fun index => sample_texts !! index) (res_noise r)) perf]
    /\ averageSpeed perf = "∞"%string
    /\ extracted m' = extracted sample_worker /\ attempts m' = attempts sample_worker
    /\ vectorCache m' = vectorCache sample_worker /\ instance m' = instance sample_worker
    /\ lastTexts m' = Some sample_texts
    /\ lastEmbeddings m' = Some (Some <$> [[1; 0]; [0; 1]; [1; 0]]%float).
Proof.
  apply (onMessage_reuses_vectors sample_host sample_event_again sample_worker
           sample_texts [[1; 0]; [0; 1]; [1; 0]]%float);
    vm_compute; reflexivity.
Defined.

(** *** The sheet of the page *)

Lemma excel_rows_of_clusters (results : list Cluster) (g : nat -> Z) :
  let rows := concat (imap (fun clusterIdx cluster =>
                              map (fun text => [Page.str text; Page.num (g clusterIdx)])
                                  (texts cluster))
                           results) in
  head <$> rows = (fun text => Some (Page.str text)) <$> concat (texts <$> results)
  /\ Forall (fun row => exists text clusterIdx,
                          row = [Page.str text; Page.num (g clusterIdx)]
                          /\ clusterIdx < length results) rows.
Proof.
  revert g. induction results as [| c results IH]; intros g; simpl.
  - split; [reflexivity | constructor].
  - destruct (IH (fun i => g (S i))) as [Hhead Hrows]. split.
    + rewrite !fmap_app. f_equal; [| exact Hhead].
      change (map ?f ?l) with (f <$> l). rewrite <- list_fmap_compose. reflexivity.
    + apply Forall_app. split.
      * apply Forall_forall. intros row Hrow.
        apply list_elem_of_fmap in Hrow as (text & -> & _).
        exists text, 0. split; [reflexivity | lia].
      * eapply Forall_impl; [exact Hrows |]. simpl.
        intros row (text & i & -> & Hi). exists text, (S i). split; [reflexivity | lia].
Qed.

(** X20.  The sheet that the page builds from a ['complete'] message has
    the header row and then one row for each text of the request: the first
    column holds the texts that were sent, each as often as it was sent,
    and the second column holds [-1] or the position of a cluster in the
    list of results. *)
Theorem excelData_one_row_per_text (host : Host) (event : Event)
  (m m' : Memory) (o : outcome unit) (msgs : list Message)
  (results : list Cluster) (noise : list (option string)) (perf : Performance) :
  remembers_vectors m ->
  onMessage host event m = (o, m') ->
  posted m' = posted m ++ msgs ->
  complete results noise perf ∈ msgs ->
  let sent := filter (fun text => trim host text <> ""%string)
                     (data_texts (data event)) in
  exists rows,
    Page.excelData results noise
    = [Page.str (Some "query"%string); Page.str (Some "cluster_id"%string)] :: rows
    /\ length rows = length sent
    /\ head <$> rows ≡ₚ (fun text => Some (Page.str (Some text))) <$> sent
    /\ Forall (fun row => exists text id,
                            row = [Page.str text; Page.num id]
                            /\ (-1 <= id < Z.of_nat (length results))%Z) rows.
Proof.
  intros Hrem Hrun Hposted Hin sent.
  destruct (onMessage_complete_inv host event m m' o msgs results noise perf
              Hrem Hrun Hposted Hin) as (r & Hresults & Hnoise & Hperm & Hne & _).
  fold sent in Hresults, Hnoise, Hperm.
  assert (Htexts : concat (texts <$> results) ++ noise ≡ₚ Some <$> sent).
  { rewrite Hresults, Hnoise. change (map ?f ?l) with (f <$> l).
    rewrite (concat_Permutation _ _ (fmap_Permutation texts _ _ (sort_perm _))).
    rewrite <- list_fmap_compose.
    change (texts ∘ toCluster sent)
      with (fun cl : list nat => (fun index => sent !! index) <$> cl).
    rewrite concat_fmap_fmap, <- fmap_app, Hperm. apply reflexive_eq, lookup_all. }
  destruct (excel_rows_of_clusters results Z.of_nat) as [Hhead Hrows]. cbv zeta in *.
  unfold Page.excelData. simpl. eexists. split; [reflexivity |].
  assert (Hcol : head <$> (concat (imap (fun clusterIdx cluster =>
                              map (fun text => [Page.str text; Page.num (Z.of_nat clusterIdx)])
                                  (texts cluster)) results)
                           ++ map (fun text => [Page.str text; Page.num (-1)]) noise)
                 = (fun text => Some (Page.str text)) <$> (concat (texts <$> results) ++ noise)).
  { rewrite !fmap_app, Hhead. f_equal.
    change (map ?f ?l) with (f <$> l). rewrite <- list_fmap_compose. reflexivity. }
  split; [| split].
  - rewrite <- (length_fmap head), Hcol, length_fmap, Htexts, length_fmap. reflexivity.
  - rewrite Hcol, Htexts, <- list_fmap_compose. reflexivity.
  - apply Forall_app. split.
    + eapply Forall_impl; [exact Hrows |]. simpl.
      intros row (text & i & -> & Hi). exists text, (Z.of_nat i). split; [reflexivity | lia].
    + apply Forall_forall. intros row Hrow.
      apply list_elem_of_fmap in Hrow as (text & -> & _).
      exists text, (-1)%Z. split; [reflexivity | lia].
Qed.

Lemma excelData_one_row_per_text_witness :
  let sent := filter (fun text => trim sample_host text <> ""%string)
                     (data_texts (data sample_event)) in
  exists rows,
    Page.excelData [mkCluster 2 [Some "a"; Some "a"]]%string [Some "b"%string]
    = [Page.str (Some "query"%string); Page.str (Some "cluster_id"%string)] :: rows
    /\ length rows = length sent
    /\ head <$> rows ≡ₚ (fun text => Some (Page.str (Some text))) <$> sent
    /\ Forall (fun row => exists text id,
                            row = [Page.str text; Page.num id]
                            /\ (-1 <= id < Z.of_nat (length [mkCluster 2 [Some "a"; Some "a"]]%string))%Z)
              rows.
Proof.
  apply (excelData_one_row_per_text sample_host sample_event loaded sample_worker
           (Ok tt) (posted sample_worker) _ _
           (mkPerformance "0.0" "0.0" "0.0" "0.0")).
  - intros lt le Hlt. discriminate Hlt.
  - vm_compute. reflexivity.
  - reflexivity.
  - vm_compute. do 5 right. left.
Defined.
